(** * groufix: reference unpacking, format search and render graph

    A shallow embedding of three parts of the groufix core,
    [src/groufix/core/format.c], [src/groufix/core/ref.c] and
    [src/groufix/core/graph.c], and of the macros of [groufix/def.h],
    [groufix/core/refs.h] and [src/groufix/core/objects.h] that they rest
    on, together with the properties that its specification states about
    them and further properties that the code shows.

    Machine integers are values of [Z] with the wrap-around written out;
    vectors ([GFXVec]) are lists; heap objects live in finite maps from
    addresses to records, so that pointer identity and mutation through a
    pointer are what they are in the C code. *)

From Stdlib Require Import ZArith Lia Bool String.
From stdpp Require Import base option list sorting gmap.

Set Default Proof Using "Type".

(** Unsigned machine integers of [w] bits. *)
Definition wrap (w : Z) (z : Z) : Z := Z.modulo z (2 ^ w).

(** A bit test, [(mask & bit) != 0] used as a C truth value. *)
Definition has_bits (mask bit : Z) : bool := negb (Z.land mask bit =? 0)%Z.

(* ===================================================================== *)
(** * General usefulness ([def.h]) *)
(* ===================================================================== *)

(** The macros of [def.h] on operands of one unsigned type of [w] bits.
    Operands of a type narrower than [int] are converted to [int] before
    the arithmetic, so that nothing wraps at [w] bits; operands of a type
    at least as wide as [int] keep their type and wrap. *)
Module Def.
Local Open Scope Z_scope.

(** [GFX_IS_POWER_OF_TWO(x)]: [((x) & ((x) - 1)) == 0] *)
Definition GFX_IS_POWER_OF_TWO (w x : Z) : bool :=
  Z.land x (wrap w (x - 1)) =? 0.

(** [GFX_ALIGN_UP(offset, align)]:
    [((offset) + (align) - 1) & ~((align) - 1)], where [int] has [int_bits]
    bits. For [w < int_bits] the operands are converted to [int]: the sum
    [offset + align] is taken in [int] and is undefined ([None]) where it
    exceeds [INT_MAX]. Otherwise the sum wraps at [w] bits. *)
Definition GFX_ALIGN_UP (int_bits w offset align : Z) : option Z :=
  if w <? int_bits then
    if offset + align <? 2 ^ (int_bits - 1)
    then Some (Z.land (offset + align - 1) (Z.lnot (align - 1)))
    else None
  else
    Some (Z.land (wrap w (wrap w (offset + align) - 1))
                 (wrap w (Z.lnot (wrap w (align - 1))))).

(** [GFX_ALIGN_DOWN(offset, align)]: [(offset) & ~((align) - 1)] *)
Definition GFX_ALIGN_DOWN (w offset align : Z) : Z :=
  Z.land offset (wrap w (Z.lnot (wrap w (align - 1)))).

End Def.

(* ===================================================================== *)
(** * The format dictionary ([format.c]) *)
(* ===================================================================== *)

Module Format.
Local Open Scope Z_scope.

Definition UINT_MAX : Z := 4294967295.

(** [GFXFormat]: four component depths ([unsigned char comps[4]]), a type
    mask and an order. *)
Record GFXFormat := mkFormat {
  comps0 : Z; comps1 : Z; comps2 : Z; comps3 : Z;
  type : Z;
  order : Z
}.

Record VkFormatProperties := mkProps {
  linearTilingFeatures : Z;
  optimalTilingFeatures : Z;
  bufferFeatures : Z
}.

(** An element of [device->formats]:
    [{ GFXFormat, VkFormat, VkFormatProperties }]. *)
Record FormatElem := mkElem {
  elem_format : GFXFormat;
  elem_vk_format : Z;
  elem_properties : VkFormatProperties
}.

Record _GFXDevice := mkDevice { formats : list FormatElem }.

(** The eleven feature bits that [_GFX_GET_FEATURES] translates, named after
    the groufix side of each pair. *)
Inductive Feature :=
  | VERTEX_BUFFER | UNIFORM_TEXEL_BUFFER | STORAGE_TEXEL_BUFFER
  | SAMPLED_IMAGE | SAMPLED_IMAGE_LINEAR | SAMPLED_IMAGE_MINMAX
  | STORAGE_IMAGE | ATTACHMENT | ATTACHMENT_BLEND
  | IMAGE_READ | IMAGE_WRITE.

(** What [format.c] takes from headers that are not part of these sources
    ([groufix/core/formats.h] and the Vulkan header): the empty format, the
    containment and compression tests, the two fuzzy flags and the values of
    the feature bits on both sides. They are parameters of everything
    below. *)
Record FormatsHeader := mkHeader {
  GFX_FORMAT_EMPTY : GFXFormat;
  GFX_FORMAT_IS_CONTAINED : GFXFormat -> GFXFormat -> bool;
  GFX_FORMAT_IS_COMPRESSED : GFXFormat -> bool;
  GFX_FUZZY_MIN_DEPTH : Z;
  GFX_FUZZY_MAX_DEPTH : Z;
  VK_FORMAT_FEATURE : Feature -> Z;
  GFX_FORMAT_FEATURE : Feature -> Z
}.

(** [GFX_DIFF(x, y)] *)
Definition GFX_DIFF (x y : Z) : Z := if x >? y then x - y else y - x.

(** [_GFX_GET_DISTANCE(fmta, fmtb)]: four differences, each cast to
    [unsigned int], added as [unsigned int]. *)
Definition _GFX_GET_DISTANCE (fmta fmtb : GFXFormat) : Z :=
  wrap 32 (wrap 32 (wrap 32
    (wrap 32 (GFX_DIFF (comps0 fmta) (comps0 fmtb)) +
     wrap 32 (GFX_DIFF (comps1 fmta) (comps1 fmtb))) +
     wrap 32 (GFX_DIFF (comps2 fmta) (comps2 fmtb))) +
     wrap 32 (GFX_DIFF (comps3 fmta) (comps3 fmtb))).

Section WithHeader.
Variable H : FormatsHeader.

(** The Vulkan feature word that a feature is read from. *)
Definition feature_word (vkProps : VkFormatProperties) (f : Feature) : Z :=
  match f with
  | VERTEX_BUFFER | UNIFORM_TEXEL_BUFFER | STORAGE_TEXEL_BUFFER =>
      bufferFeatures vkProps
  | _ => optimalTilingFeatures vkProps
  end.

Definition feature_bit (vkProps : VkFormatProperties) (f : Feature) : Z :=
  if has_bits (feature_word vkProps f) (VK_FORMAT_FEATURE H f)
  then GFX_FORMAT_FEATURE H f else 0.

(** [_GFX_GET_FEATURES(vkProps)] *)
Definition _GFX_GET_FEATURES (vkProps : VkFormatProperties) : Z :=
  Z.lor (feature_bit vkProps VERTEX_BUFFER)
 (Z.lor (feature_bit vkProps UNIFORM_TEXEL_BUFFER)
 (Z.lor (feature_bit vkProps STORAGE_TEXEL_BUFFER)
 (Z.lor (feature_bit vkProps SAMPLED_IMAGE)
 (Z.lor (feature_bit vkProps SAMPLED_IMAGE_LINEAR)
 (Z.lor (feature_bit vkProps SAMPLED_IMAGE_MINMAX)
 (Z.lor (feature_bit vkProps STORAGE_IMAGE)
 (Z.lor (feature_bit vkProps ATTACHMENT)
 (Z.lor (feature_bit vkProps ATTACHMENT_BLEND)
 (Z.lor (feature_bit vkProps IMAGE_READ)
        (feature_bit vkProps IMAGE_WRITE)))))))))).

(** The first [continue] of [gfx_format_fuzzy]: type/order and minimal
    features. [true] means the element is skipped. *)
Definition skip_match (fmt : GFXFormat) (features : Z) (elem : FormatElem) : bool :=
  let eFmt := elem_format elem in
  let eFeatures := _GFX_GET_FEATURES (elem_properties elem) in
  negb (Z.land features eFeatures =? features) ||
  negb (Z.land (type eFmt) (type fmt) =? type eFmt) ||
  (if GFX_FORMAT_IS_COMPRESSED H eFmt
   then negb (order eFmt =? order fmt)
   else negb (Z.land (order eFmt) (order fmt) =? order eFmt)).

(** The second [continue]: the bit depth requirements. *)
Definition skip_depth (fmt : GFXFormat) (flags : Z) (elem : FormatElem) : bool :=
  let eFmt := elem_format elem in
  (has_bits flags (GFX_FUZZY_MIN_DEPTH H) &&
    ((comps0 eFmt <? comps0 fmt) || (comps1 eFmt <? comps1 fmt) ||
     (comps2 eFmt <? comps2 fmt) || (comps3 eFmt <? comps3 fmt))) ||
  (has_bits flags (GFX_FUZZY_MAX_DEPTH H) &&
    ((comps0 eFmt >? comps0 fmt) || (comps1 eFmt >? comps1 fmt) ||
     (comps2 eFmt >? comps2 fmt) || (comps3 eFmt >? comps3 fmt))).

(** The locals of the loop: [retFmt], [contained], [dist]. *)
Record Best := mkBest { retFmt : GFXFormat; contained : bool; dist : Z }.

(** [contained ? (cont && d < dist) : (cont || d < dist)] and the
    assignment it guards. *)
Definition closest (fmt : GFXFormat) (b : Best) (eFmt : GFXFormat) : Best :=
  let cont := GFX_FORMAT_IS_CONTAINED H eFmt fmt in
  let d := _GFX_GET_DISTANCE eFmt fmt in
  if (if contained b then cont && (d <? dist b) else cont || (d <? dist b))
  then mkBest eFmt cont d
  else b.

(** One iteration of the loop over [dev->formats]. *)
Definition fuzzy_body (fmt : GFXFormat) (flags features : Z)
    (b : Best) (elem : FormatElem) : Best :=
  if skip_match fmt features elem then b
  else if skip_depth fmt flags elem then b
  else closest fmt b (elem_format elem).

(** [gfx_format_fuzzy(fmt, flags, features, device)] *)
Definition gfx_format_fuzzy (fmt : GFXFormat) (flags features : Z)
    (dev : _GFXDevice) : GFXFormat :=
  retFmt (fold_left (fuzzy_body fmt flags features) (formats dev)
            (mkBest (GFX_FORMAT_EMPTY H) false UINT_MAX)).

(** The candidates: the formats of the elements that pass both filters, in
    the order of the dictionary. *)
Definition candidate (fmt : GFXFormat) (flags features : Z) (elem : FormatElem) : bool :=
  negb (skip_match fmt features elem) && negb (skip_depth fmt flags elem).

Definition candidates (fmt : GFXFormat) (flags features : Z)
    (dev : _GFXDevice) : list GFXFormat :=
  map elem_format (List.filter (candidate fmt flags features) (formats dev)).

(** What the spec says of the format returned, over the list of
    candidates in dictionary order: [r] is one of them; it contains [fmt]
    as soon as any candidate does; and among the candidates of its own
    containment class it is the first of those at the smallest distance:
    every earlier one is strictly farther, no later one is nearer. *)
Definition best_match (fmt : GFXFormat) (cands : list GFXFormat)
    (r : GFXFormat) : Prop :=
  let cont c := GFX_FORMAT_IS_CONTAINED H c fmt in
  let d c := _GFX_GET_DISTANCE c fmt in
  exists earlier later,
    cands = earlier ++ r :: later /\
    (forall c, c ∈ cands -> cont c = true -> cont r = true) /\
    (forall c, c ∈ earlier -> cont c = cont r -> d r < d c) /\
    (forall c, c ∈ later -> cont c = cont r -> d r <= d c).

End WithHeader.

(** ** The fuzzy search as the specification words it *)

(** The L1 distance of the per-channel bit depths of two formats. *)
Definition l1_distance (a b : GFXFormat) : Z :=
  Z.abs (comps0 a - comps0 b) + Z.abs (comps1 a - comps1 b) +
  Z.abs (comps2 a - comps2 b) + Z.abs (comps3 a - comps3 b).

Section Request.
Variable H : FormatsHeader.

(** A record that the request admits: [features] is a subset of the
    features of the record; the type of the record lies within the
    requested type; the order of a compressed record is the requested
    order, that of any other record lies within it; with
    [GFX_FUZZY_MIN_DEPTH] no depth of the record is below the requested
    one, and with [GFX_FUZZY_MAX_DEPTH] none is above it. *)
Definition admits (fmt : GFXFormat) (flags features : Z) (elem : FormatElem) : bool :=
  let e := elem_format elem in
  (Z.land features (_GFX_GET_FEATURES H (elem_properties elem)) =? features) &&
  (Z.land (type e) (type fmt) =? type e) &&
  (if GFX_FORMAT_IS_COMPRESSED H e then order e =? order fmt
   else Z.land (order e) (order fmt) =? order e) &&
  (if has_bits flags (GFX_FUZZY_MIN_DEPTH H)
   then (comps0 fmt <=? comps0 e) && (comps1 fmt <=? comps1 e) &&
        (comps2 fmt <=? comps2 e) && (comps3 fmt <=? comps3 e)
   else true) &&
  (if has_bits flags (GFX_FUZZY_MAX_DEPTH H)
   then (comps0 e <=? comps0 fmt) && (comps1 e <=? comps1 fmt) &&
        (comps2 e <=? comps2 fmt) && (comps3 e <=? comps3 fmt)
   else true).

(** The formats of the records that the request admits, in the order of
    the dictionary. *)
Definition admitted (fmt : GFXFormat) (flags features : Z) (dev : _GFXDevice)
    : list GFXFormat :=
  map elem_format (List.filter (admits fmt flags features) (formats dev)).

(** [r] is the one of [cands] that the specification prefers: it contains
    [fmt] as soon as any of them does; and among those of its own
    containment class it is the first at the smallest L1 distance: every
    earlier one is strictly farther, no later one is nearer. *)
Definition preferred (fmt : GFXFormat) (cands : list GFXFormat) (r : GFXFormat) : Prop :=
  let cont c := GFX_FORMAT_IS_CONTAINED H c fmt in
  exists earlier later,
    cands = earlier ++ r :: later /\
    (forall c, c ∈ cands -> cont c = true -> cont r = true) /\
    (forall c, c ∈ earlier -> cont c = cont r -> l1_distance r fmt < l1_distance c fmt) /\
    (forall c, c ∈ later -> cont c = cont r -> l1_distance r fmt <= l1_distance c fmt).

End Request.

(** Component depths are [unsigned char]. *)
Definition depth_ok (c : Z) : Prop := 0 <= c < 256.

Definition format_ok (f : GFXFormat) : Prop :=
  depth_ok (comps0 f) /\ depth_ok (comps1 f) /\
  depth_ok (comps2 f) /\ depth_ok (comps3 f).

(** ** Resolving a format, its support, and the dictionary itself *)

Section Dictionary.
Variable H : FormatsHeader.

(** [VK_FORMAT_UNDEFINED], from the Vulkan header, which is not part of
    these sources. *)
Variable VK_FORMAT_UNDEFINED : Z.






(** One iteration of the loop of [gfx_format_support]. *)
Definition support_body (fmt : GFXFormat) (features : Z) (elem : FormatElem) : Z :=
  if negb (GFX_FORMAT_IS_CONTAINED H (elem_format elem) fmt) then features
  else Z.lor features (_GFX_GET_FEATURES H (elem_properties elem)).

(** [gfx_format_support(fmt, device)] *)
Definition gfx_format_support (fmt : GFXFormat) (dev : _GFXDevice) : Z :=
  fold_left (support_body fmt) (formats dev) 0.

(** [vkGetPhysicalDeviceFormatProperties] for the device, and whether
    [gfx_vec_push] succeeds on a vector of the given size. *)
Variable GetPhysicalDeviceFormatProperties : Z -> VkFormatProperties.
Variable push_ok : nat -> bool.

(** [_gfx_device_map_format(device, fmt, vkFmt)] *)
Definition _gfx_device_map_format (device : _GFXDevice) (fmt : GFXFormat)
    (vkFmt : Z) : bool * _GFXDevice :=
  let props := GetPhysicalDeviceFormatProperties vkFmt in
  if negb (linearTilingFeatures props =? 0) ||
     negb (optimalTilingFeatures props =? 0) ||
     negb (bufferFeatures props =? 0)
  then
    if negb (push_ok (length (formats device))) then (false, device)
    else (true, mkDevice (formats device ++ [mkElem fmt vkFmt props]))
  else (true, device).

(** The test of [_gfx_device_map_format]: the device reports a feature
    for the Vulkan format. *)
Definition format_supported (vkFmt : Z) : bool :=
  let props := GetPhysicalDeviceFormatProperties vkFmt in
  negb (linearTilingFeatures props =? 0) ||
  negb (optimalTilingFeatures props =? 0) ||
  negb (bufferFeatures props =? 0).

(** One line [_GFX_MAP_FMT(gfxName, vkName)]: the two names as the
    preprocessor prints them, and the two values. *)
Record Mapping := mkMapping {
  gfxName : string;
  vkName : string;
  gfxValue : GFXFormat;
  vkValue : Z
}.

(** The lines [_GFX_MAP_FMT(...)] of [_gfx_device_init_formats], in their
    order; the constants they name come from headers that are not part of
    these sources. *)
Variable table : list Mapping.

(** The record that a line stores. *)
Definition mapped (m : Mapping) : FormatElem :=
  mkElem (gfxValue m) (vkValue m) (GetPhysicalDeviceFormatProperties (vkValue m)).

(** The sequence of [_GFX_MAP_FMT] lines from some line on: the line that
    jumped to [clean], if one did, and the device. *)
Fixpoint map_formats (lines : list Mapping) (device : _GFXDevice)
    : option Mapping * _GFXDevice :=
  match lines with
  | [] => (None, device)
  | m :: lines' =>
      let '(ok, device') := _gfx_device_map_format device (gfxValue m) (vkValue m) in
      if negb ok then (Some m, device') else map_formats lines' device'
  end.

(** [_gfx_device_init_formats(device)]: the result, the device, and the
    errors logged, each with its string argument. *)
Definition _gfx_device_init_formats (name : string)
    : bool * _GFXDevice * list (string * option string) :=
  match map_formats table (mkDevice []) with
  | (None, device) => (true, device, [])
  | (Some m, _) =>
      (false, mkDevice [],
       [(("Could not map " ++ gfxName m ++ " to " ++ vkName m ++ ".")%string, None);
        ("[ %s ] could not initialize format dictionary."%string, Some name)])
  end.

End Dictionary.

End Format.

(* ===================================================================== *)
(** * Resource references ([ref.c]) *)
(* ===================================================================== *)

Module Ref.
Local Open Scope Z_scope.

Inductive RefType :=
  | GFX_REF_BUFFER
  | GFX_REF_IMAGE
  | GFX_REF_PRIMITIVE_VERTICES
  | GFX_REF_PRIMITIVE_INDICES
  | GFX_REF_GROUP_BUFFER
  | GFX_REF_GROUP_IMAGE
  | GFX_REF_ATTACHMENT
  | GFX_REF_EMPTY.

#[export] Instance RefType_eq_dec : EqDecision RefType.
Proof. solve_decision. Defined.

(** A [void*]: null, the address of an allocated object, or the address of
    the [buffer] member embedded in the primitive or group allocated at an
    address ([&_GFX_PRIMITIVE->buffer], [&_GFX_GROUP->buffer]). *)
Inductive pointer :=
  | NULL
  | Addr (a : N)
  | BufferOf (a : N).

#[export] Instance pointer_eq_dec : EqDecision pointer.
Proof. solve_decision. Defined.

(** [GFXReference]; [values[0]] and [values[1]] are [size_t] selectors. *)
Record GFXReference := mkRef {
  type : RefType;
  obj : pointer;
  offset : Z;
  values0 : nat;
  values1 : nat
}.

Definition GFX_REF_NULL : GFXReference := mkRef GFX_REF_EMPTY NULL 0 0 0.

Definition GFX_REF_IS_NULL (ref : GFXReference) : bool :=
  bool_decide (type ref = GFX_REF_EMPTY).

(** [_GFXBuffer]: [base.size], [base.flags], [heap->allocator.context]. *)
Record _GFXBuffer := mkBuffer {
  buffer_size : Z;
  buffer_flags : Z;
  buffer_context : Z
}.

Record _GFXImage := mkImage {
  image_flags : Z;
  image_context : Z
}.

(** Modelled from the spec: the [base] member of [_GFXPrimitive] (a
    [GFXPrimitive], declared in a header that is not part of these sources).
    Of its members [ref.c] reads the two flag words, the vertex and index
    counts and the stride; the spec names [numVertices] and [stride] and
    their product [numVertices × stride], which is taken exactly and stored
    into the 64 bits of the unpacked value. *)
Record GFXPrimitive := mkPrimitiveBase {
  flagsVertex : Z;
  flagsIndex : Z;
  numVertices : Z;
  numIndices : Z;
  stride : Z
}.

Record _GFXPrimitive := mkPrimitive {
  primitive_base : GFXPrimitive;
  primitive_buffer : _GFXBuffer;
  refVertex : GFXReference;
  refIndex : GFXReference
}.

Inductive GFXBindingType := GFX_BINDING_BUFFER | GFX_BINDING_IMAGE.

#[export] Instance GFXBindingType_eq_dec : EqDecision GFXBindingType.
Proof. solve_decision. Defined.

(** [GFXBinding]: its type, [count], and the arrays [buffers] and
    [images]. *)
Record GFXBinding := mkBinding {
  binding_type : GFXBindingType;
  count : nat;
  buffers : list GFXReference;
  images : list GFXReference
}.

(** [_GFXGroup]; [numBindings] is the length of [bindings]. *)
Record _GFXGroup := mkGroup {
  group_flags : Z;
  group_buffer : _GFXBuffer;
  bindings : list GFXBinding
}.

Inductive AttachType := _GFX_ATTACH_EMPTY | _GFX_ATTACH_IMAGE | _GFX_ATTACH_WINDOW.

#[export] Instance AttachType_eq_dec : EqDecision AttachType.
Proof. solve_decision. Defined.

(** [_GFXAttach]: its type and [image.base.flags]. *)
Record _GFXAttach := mkAttach {
  attach_type : AttachType;
  attach_image_flags : Z
}.

(** The renderer as [ref.c] sees it: [backing.attachs] and [context]. *)
Record GFXRenderer := mkRenderer {
  attachs : list _GFXAttach;
  renderer_context : Z
}.

Inductive Object :=
  | ObjBuffer (b : _GFXBuffer)
  | ObjImage (i : _GFXImage)
  | ObjPrimitive (p : _GFXPrimitive)
  | ObjGroup (g : _GFXGroup)
  | ObjRenderer (r : GFXRenderer).

(** The objects that references point into, by address. *)
Abbreviation Store := (gmap N Object).

(** The casts [_GFX_BUFFER], [_GFX_IMAGE], [_GFX_PRIMITIVE], [_GFX_GROUP]
    and [_GFX_RENDERER] followed by a read; [None] where the pointer does
    not hold such an object (undefined behaviour in C). *)
Definition _GFX_BUFFER (s : Store) (p : pointer) : option _GFXBuffer :=
  match p with
  | NULL => None
  | Addr a =>
      match s !! a with Some (ObjBuffer b) => Some b | _ => None end
  | BufferOf a =>
      match s !! a with
      | Some (ObjPrimitive p) => Some (primitive_buffer p)
      | Some (ObjGroup g) => Some (group_buffer g)
      | _ => None
      end
  end.

Definition _GFX_IMAGE (s : Store) (p : pointer) : option _GFXImage :=
  match p with
  | Addr a => match s !! a with Some (ObjImage i) => Some i | _ => None end
  | _ => None
  end.

Definition _GFX_PRIMITIVE (s : Store) (p : pointer) : option _GFXPrimitive :=
  match p with
  | Addr a => match s !! a with Some (ObjPrimitive x) => Some x | _ => None end
  | _ => None
  end.

Definition _GFX_GROUP (s : Store) (p : pointer) : option _GFXGroup :=
  match p with
  | Addr a => match s !! a with Some (ObjGroup g) => Some g | _ => None end
  | _ => None
  end.

Definition _GFX_RENDERER (s : Store) (p : pointer) : option GFXRenderer :=
  match p with
  | Addr a => match s !! a with Some (ObjRenderer r) => Some r | _ => None end
  | _ => None
  end.

(** [&obj->buffer] for the primitive or group that [p] points to. *)
Definition buffer_of (p : pointer) : pointer :=
  match p with Addr a => BufferOf a | _ => NULL end.

(** [rec.offset += ref.offset] on [uint64_t]. *)
Definition add_offset (rec : GFXReference) (off : Z) : GFXReference :=
  mkRef (type rec) (obj rec) (wrap 64 (offset rec + off)) (values0 rec) (values1 rec).

(** What the [switch] of [_gfx_ref_resolve] leaves behind: a failed
    [_GFX_CHECK_RESOLVE] (a warning, and [GFX_REF_NULL] is returned), or the
    value of [rec]. *)
Inductive Switch :=
  | Invalid (warning : string)
  | Rec (rec : GFXReference).

Definition resolve_switch (s : Store) (ref : GFXReference) : option Switch :=
  match type ref with
  | GFX_REF_PRIMITIVE_VERTICES =>
      prim ← _GFX_PRIMITIVE s (obj ref);
      if negb (numVertices (primitive_base prim) >? 0)
      then Some (Invalid "Referencing a non-existent vertex buffer!")
      else Some (Rec (add_offset (refVertex prim) (offset ref)))
  | GFX_REF_PRIMITIVE_INDICES =>
      prim ← _GFX_PRIMITIVE s (obj ref);
      if negb (numIndices (primitive_base prim) >? 0)
      then Some (Invalid "Referencing a non-existent index buffer!")
      else Some (Rec (add_offset (refIndex prim) (offset ref)))
  | GFX_REF_GROUP_BUFFER =>
      group ← _GFX_GROUP s (obj ref);
      match bindings group !! values0 ref with
      | None => Some (Invalid "Referencing a non-existent group buffer!")
      | Some binding =>
          if negb (values1 ref <? count binding)%nat
          then Some (Invalid "Referencing a non-existent group buffer!")
          else if negb (bool_decide (binding_type binding = GFX_BINDING_BUFFER))
          then Some (Invalid "Group buffer reference not a buffer!")
          else
            rec ← buffers binding !! values1 ref;
            if bool_decide (obj rec = buffer_of (obj ref))
            then Some (Rec GFX_REF_NULL)
            else Some (Rec (add_offset rec (offset ref)))
      end
  | GFX_REF_GROUP_IMAGE =>
      group ← _GFX_GROUP s (obj ref);
      match bindings group !! values0 ref with
      | None => Some (Invalid "Referencing a non-existent group image!")
      | Some binding =>
          if negb (values1 ref <? count binding)%nat
          then Some (Invalid "Referencing a non-existent group image!")
          else if negb (bool_decide (binding_type binding = GFX_BINDING_IMAGE))
          then Some (Invalid "Group image reference not an image!")
          else
            rec ← images binding !! values1 ref;
            Some (Rec rec)
      end
  | GFX_REF_ATTACHMENT =>
      renderer ← _GFX_RENDERER s (obj ref);
      match attachs renderer !! values0 ref with
      | None => Some (Invalid "Referencing a non-existent renderer attachment!")
      | Some attach =>
          if negb (bool_decide (attach_type attach = _GFX_ATTACH_IMAGE))
          then Some (Invalid "Renderer attachment reference not an image attachment!")
          else Some (Rec GFX_REF_NULL)
      end
  | _ => Some (Rec GFX_REF_NULL)
  end.

(** [_gfx_ref_resolve(ref)]: the resolved reference and the warnings logged
    on the way. The recursion follows stored references; the fuel bounds its
    depth, and [None] is a run that used it up or read through a pointer that
    holds no such object. *)
Fixpoint _gfx_ref_resolve (fuel : nat) (s : Store) (ref : GFXReference)
    : option (GFXReference * list string) :=
  match fuel with
  | O => None
  | S fuel' =>
      sw ← resolve_switch s ref;
      match sw with
      | Invalid warning => Some (GFX_REF_NULL, [warning])
      | Rec rec =>
          if GFX_REF_IS_NULL rec then Some (ref, [])
          else _gfx_ref_resolve fuel' s rec
      end
  end.

(** [_GFXUnpackRef], with the [flags] and [context] that [ref.c] fills. *)
Record _GFXUnpackRef := mkUnpack {
  value : Z;
  flags : Z;
  context : Z;
  obj_buffer : pointer;
  obj_image : pointer;
  obj_renderer : pointer
}.

Definition _GFX_UNPACK_REF_EMPTY : _GFXUnpackRef := mkUnpack 0 0 0 NULL NULL NULL.

(** [_GFX_CHECK_UNPACK(eval, warning)]: nothing when [NDEBUG] is defined,
    otherwise a warning when [eval] is untrue, and no return. *)
Definition _GFX_CHECK_UNPACK (ndebug : bool) (eval : bool) (warning : string)
    : list string :=
  if ndebug then [] else if eval then [] else [warning].

(** The value that the [GFX_REF_PRIMITIVE_INDICES] case assigns:
    [ref.offset + GFX_REF_IS_NULL(refVertex) ? numVertices * stride : 0].
    In C the sum [ref.offset + GFX_REF_IS_NULL(refVertex)] is the condition
    of the conditional operator. *)
Definition indices_value (ref : GFXReference) (prim : _GFXPrimitive) : Z :=
  if negb (wrap 64 (offset ref + (if GFX_REF_IS_NULL (refVertex prim) then 1 else 0)) =? 0)
  then wrap 64 (numVertices (primitive_base prim) * stride (primitive_base prim))
  else 0.

(** [_gfx_ref_unpack(ref)], in a build with ([ndebug = true]) or without
    [NDEBUG]: the unpacked reference and the warnings logged. *)
Definition _gfx_ref_unpack (ndebug : bool) (fuel : nat) (s : Store)
    (ref0 : GFXReference) : option (_GFXUnpackRef * list string) :=
  '(ref, log) ← _gfx_ref_resolve fuel s ref0;
  match type ref with
  | GFX_REF_BUFFER =>
      buffer ← _GFX_BUFFER s (obj ref);
      let v := offset ref in
      Some (mkUnpack v (buffer_flags buffer) (buffer_context buffer)
              (obj ref) NULL NULL,
            log ++ _GFX_CHECK_UNPACK ndebug (v <? buffer_size buffer)
                     "Buffer reference out of bounds!")
  | GFX_REF_IMAGE =>
      image ← _GFX_IMAGE s (obj ref);
      Some (mkUnpack 0 (image_flags image) (image_context image)
              NULL (obj ref) NULL, log)
  | GFX_REF_PRIMITIVE_VERTICES =>
      prim ← _GFX_PRIMITIVE s (obj ref);
      let buffer := primitive_buffer prim in
      let v := offset ref in
      Some (mkUnpack v (flagsVertex (primitive_base prim)) (buffer_context buffer)
              (buffer_of (obj ref)) NULL NULL,
            log ++ _GFX_CHECK_UNPACK ndebug (v <? buffer_size buffer)
                     "Vertex buffer reference out of bounds!")
  | GFX_REF_PRIMITIVE_INDICES =>
      prim ← _GFX_PRIMITIVE s (obj ref);
      let buffer := primitive_buffer prim in
      let v := indices_value ref prim in
      Some (mkUnpack v (flagsIndex (primitive_base prim)) (buffer_context buffer)
              (buffer_of (obj ref)) NULL NULL,
            log ++ _GFX_CHECK_UNPACK ndebug (v <? buffer_size buffer)
                     "Index buffer reference out of bounds!")
  | GFX_REF_GROUP_BUFFER =>
      group ← _GFX_GROUP s (obj ref);
      let buffer := group_buffer group in
      binding ← bindings group !! values0 ref;
      stored ← buffers binding !! values1 ref;
      let v := wrap 64 (offset ref + offset stored) in
      Some (mkUnpack v (group_flags group) (buffer_context buffer)
              (buffer_of (obj ref)) NULL NULL,
            log ++ _GFX_CHECK_UNPACK ndebug (v <? buffer_size buffer)
                     "Group buffer reference out of bounds!")
  | GFX_REF_ATTACHMENT =>
      renderer ← _GFX_RENDERER s (obj ref);
      attach ← attachs renderer !! values0 ref;
      Some (mkUnpack (Z.of_nat (values0 ref)) (attach_image_flags attach)
              (renderer_context renderer) NULL NULL (obj ref), log)
  | _ => Some (_GFX_UNPACK_REF_EMPTY, log)
  end.


(** ** Kinds of references, and equality of unpacked references *)

(** [GFX_REF_IS_BUFFER(ref)] *)
Definition GFX_REF_IS_BUFFER (ref : GFXReference) : bool :=
  bool_decide (type ref = GFX_REF_BUFFER) ||
  bool_decide (type ref = GFX_REF_PRIMITIVE_VERTICES) ||
  bool_decide (type ref = GFX_REF_PRIMITIVE_INDICES) ||
  bool_decide (type ref = GFX_REF_GROUP_BUFFER).

(** [GFX_REF_IS_IMAGE(ref)] *)
Definition GFX_REF_IS_IMAGE (ref : GFXReference) : bool :=
  bool_decide (type ref = GFX_REF_IMAGE) ||
  bool_decide (type ref = GFX_REF_GROUP_IMAGE) ||
  bool_decide (type ref = GFX_REF_ATTACHMENT).

(** [_GFX_UNPACK_REF_IS_EQUAL(refa, refb)] *)
Definition _GFX_UNPACK_REF_IS_EQUAL (refa refb : _GFXUnpackRef) : bool :=
  (negb (bool_decide (obj_buffer refa = NULL)) &&
     bool_decide (obj_buffer refa = obj_buffer refb)) ||
  (negb (bool_decide (obj_image refa = NULL)) &&
     bool_decide (obj_image refa = obj_image refb)) ||
  (negb (bool_decide (obj_renderer refa = NULL)) &&
     (value refa =? value refb) &&
     bool_decide (obj_renderer refa = obj_renderer refb)).

(** What [ref.c] expects of the references that objects store (its
    comments [Must be a buffer.] and [Must be an image.]): the two
    references of a primitive and the [buffers] of a binding are buffer
    references or null, the [images] of a binding are image references or
    null. *)
Definition stores_buffer (ref : GFXReference) : bool :=
  GFX_REF_IS_BUFFER ref || GFX_REF_IS_NULL ref.

Definition stores_image (ref : GFXReference) : bool :=
  GFX_REF_IS_IMAGE ref || GFX_REF_IS_NULL ref.

Definition typed_object (o : Object) : bool :=
  match o with
  | ObjPrimitive p => stores_buffer (refVertex p) && stores_buffer (refIndex p)
  | ObjGroup g =>
      forallb (fun b => forallb stores_buffer (buffers b) &&
                        forallb stores_image (images b)) (bindings g)
  | _ => true
  end.

Definition well_typed (s : Store) : Prop :=
  map_Forall (fun _ o => typed_object o = true) s.

End Ref.

(* ===================================================================== *)
(** * The render graph ([graph.c]) *)
(* ===================================================================== *)

Module Graph.
Local Open Scope Z_scope.

Definition SIZE_MAX : Z := 18446744073709551615.

(** The graph state, in the order of the enumeration. *)
Inductive GraphState :=
  | _GFX_GRAPH_EMPTY
  | _GFX_GRAPH_INVALID
  | _GFX_GRAPH_VALIDATED
  | _GFX_GRAPH_WARMED
  | _GFX_GRAPH_BUILT.

#[export] Instance GraphState_eq_dec : EqDecision GraphState.
Proof. solve_decision. Defined.

(** The integer value of an enumerator, for [<] and [>=] on states. *)
Definition state_value (s : GraphState) : Z :=
  match s with
  | _GFX_GRAPH_EMPTY => 0
  | _GFX_GRAPH_INVALID => 1
  | _GFX_GRAPH_VALIDATED => 2
  | _GFX_GRAPH_WARMED => 3
  | _GFX_GRAPH_BUILT => 4
  end.

(** [GFXPass], the members that [graph.c] reads or writes: [level], [order],
    [gen], [build.backing] and the parents. A [GFXPass*] is an address. *)
Record GFXPass := mkPass {
  level : Z;
  order : Z;
  gen : Z;
  build_backing : Z;
  parents : list N
}.

Definition set_order (o : Z) (p : GFXPass) : GFXPass :=
  mkPass (level p) o (gen p) (build_backing p) (parents p).

(** [renderer->graph]. *)
Record RenderGraph := mkGraph {
  sinks : list N;
  passes : list N;
  state : GraphState
}.

(** What a run leaves behind for an observer: the calls into the pass
    module, in order, and the lines logged. *)
Inductive Event :=
  | PassDestruct (pass : N)
  | PassWarmup (pass : N) (ok : bool)
  | PassBuild (pass : N) (flags : Z) (ok : bool)
  | PassDestroy (pass : N)
  | Analyze
  | LogError (message : string) (failed : option Z)
  | LogWarn (message : string) (failed : option Z).

Section WithPasses.

(** Everything of the renderer and the backend that the pass module touches
    and [graph.c] does not look at. *)
Variable Backend : Type.

(** The pass module ([_gfx_pass_warmup], [_gfx_pass_build],
    [_gfx_pass_destruct]) is not part of these sources: a call is given the
    backend, the address of the pass and the pass, and leaves a result, the
    pass and the backend. *)
Variable _gfx_pass_warmup : Backend -> N -> GFXPass -> bool * GFXPass * Backend.
Variable _gfx_pass_build : Backend -> N -> GFXPass -> Z -> bool * GFXPass * Backend.
Variable _gfx_pass_destruct : Backend -> N -> GFXPass -> GFXPass * Backend.

(** The renderer with the memory its passes live in. *)
Record World := mkWorld {
  graph : RenderGraph;
  heap : gmap N GFXPass;
  backend : Backend;
  trace : list Event
}.

(** A computation on the world; [None] is a read through a pointer that
    holds no pass, or an index outside a vector. *)
Definition M (A : Type) : Type := World -> option (A * World).

Definition ret {A} (a : A) : M A := fun w => Some (a, w).

Definition bind {A B} (k : A -> M B) (c : M A) : M B :=
  fun w => match c w with Some (a, w') => k a w' | None => None end.

#[local] Instance M_ret : MRet M := @ret.
#[local] Instance M_bind : MBind M := @bind.

Definition undefined {A} : M A := fun _ => None.

Definition get_graph : M RenderGraph := fun w => Some (graph w, w).

Definition set_graph (g : RenderGraph) : M unit :=
  fun w => Some (tt, mkWorld g (heap w) (backend w) (trace w)).

Definition set_state (st : GraphState) : M unit :=
  g ← get_graph; set_graph (mkGraph (sinks g) (passes g) st).

Definition set_sinks (l : list N) : M unit :=
  g ← get_graph; set_graph (mkGraph l (passes g) (state g)).

Definition set_passes (l : list N) : M unit :=
  g ← get_graph; set_graph (mkGraph (sinks g) l (state g)).

Definition emit (e : Event) : M unit :=
  fun w => Some (tt, mkWorld (graph w) (heap w) (backend w) (trace w ++ [e])).

(** [*pass] *)
Definition load (pass : N) : M GFXPass :=
  fun w => match heap w !! pass with Some p => Some (p, w) | None => None end.

Definition store (pass : N) (p : GFXPass) : M unit :=
  fun w => Some (tt, mkWorld (graph w) (<[pass := p]> (heap w)) (backend w) (trace w)).

Definition free (pass : N) : M unit :=
  fun w => Some (tt, mkWorld (graph w) (delete pass (heap w)) (backend w) (trace w)).

(** The three calls into the pass module. *)
Definition pass_destruct (pass : N) : M unit :=
  fun w =>
    match heap w !! pass with
    | None => None
    | Some p =>
        let '(p', b') := _gfx_pass_destruct (backend w) pass p in
        Some (tt, mkWorld (graph w) (<[pass := p']> (heap w)) b'
                    (trace w ++ [PassDestruct pass]))
    end.

Definition pass_warmup (pass : N) : M bool :=
  fun w =>
    match heap w !! pass with
    | None => None
    | Some p =>
        let '(ok, p', b') := _gfx_pass_warmup (backend w) pass p in
        Some (ok, mkWorld (graph w) (<[pass := p']> (heap w)) b'
                    (trace w ++ [PassWarmup pass ok]))
    end.

Definition pass_build (pass : N) (flags : Z) : M bool :=
  fun w =>
    match heap w !! pass with
    | None => None
    | Some p =>
        let '(ok, p', b') := _gfx_pass_build (backend w) pass p flags in
        Some (ok, mkWorld (graph w) (<[pass := p']> (heap w)) b'
                    (trace w ++ [PassBuild pass flags ok]))
    end.

(** [for (size_t i = 0; i < renderer->graph.passes.size; ++i)] with the
    pass read from [renderer->graph.passes] at [i] and the local [failed];
    [vec] is what is left of the vector from index [i] on. *)
Fixpoint for_passes (body : nat -> N -> Z -> M Z) (i : nat) (vec : list N)
    (failed : Z) : M Z :=
  match vec with
  | [] => ret failed
  | pass :: vec' =>
      failed' ← body i pass failed;
      for_passes body (S i) vec' failed'
  end.

(** [failed += !ok] on [size_t]. *)
Definition count_failure (failed : Z) (ok : bool) : Z :=
  wrap 64 (failed + (if ok then 0 else 1)).

(** The body of the loop of [_gfx_render_graph_purge]. *)
Definition purge_step (i : nat) (pass : N) (failed : Z) : M Z :=
  pass_destruct pass ;; ret failed.

(** [_gfx_render_graph_purge] *)
Definition _gfx_render_graph_purge : M unit :=
  g ← get_graph;
  _ ← for_passes purge_step 0 (passes g) 0;
  set_state _GFX_GRAPH_EMPTY.

(** [_gfx_render_graph_analyze] *)
Definition _gfx_render_graph_analyze : M bool :=
  emit Analyze ;;
  set_state _GFX_GRAPH_VALIDATED ;;
  ret true.

(** [_gfx_render_graph_init] *)
Definition _gfx_render_graph_init : M unit :=
  set_graph (mkGraph [] [] _GFX_GRAPH_BUILT).

(** The shared opening of warmup and build: purge when invalid, analyze
    when not yet validated. [false] is a failed analysis. *)
Definition purge_and_analyze : M bool :=
  g ← get_graph;
  (if bool_decide (state g = _GFX_GRAPH_INVALID)
   then _gfx_render_graph_purge else ret tt) ;;
  g ← get_graph;
  if state_value (state g) <? state_value _GFX_GRAPH_VALIDATED
  then _gfx_render_graph_analyze
  else ret true.

(** The body of the loop of [_gfx_render_graph_warmup]. *)
Definition warmup_step (i : nat) (pass : N) (failed : Z) : M Z :=
  ok ← pass_warmup pass;
  ret (count_failure failed ok).

(** The body of the loop of [_gfx_render_graph_build]: the pass is built
    with no flags, and its order is set to the index. *)
Definition build_step (i : nat) (pass : N) (failed : Z) : M Z :=
  ok ← pass_build pass 0;
  p ← load pass;
  store pass (set_order (wrap 32 (Z.of_nat i)) p) ;;
  ret (count_failure failed ok).

(** The body of the loop of [_gfx_render_graph_rebuild]. *)
Definition rebuild_step (index flags : Z) (i : nat) (pass : N) (failed : Z) : M Z :=
  p ← load pass;
  if build_backing p =? index then
    ok ← pass_build pass flags;
    ret (count_failure failed ok)
  else ret failed.

(** The body of the loop of [_gfx_render_graph_destruct]. *)
Definition destruct_step (index : Z) (i : nat) (pass : N) (failed : Z) : M Z :=
  p ← load pass;
  if build_backing p =? index then
    pass_destruct pass ;;
    g ← get_graph;
    (if state_value (state g) >=? state_value _GFX_GRAPH_WARMED
     then set_state _GFX_GRAPH_VALIDATED else ret tt) ;;
    ret failed
  else ret failed.

(** [_gfx_render_graph_warmup] *)
Definition _gfx_render_graph_warmup : M bool :=
  g ← get_graph;
  if state_value (state g) >=? state_value _GFX_GRAPH_WARMED then ret true
  else
    analyzed ← purge_and_analyze;
    if negb analyzed then ret false
    else
      g ← get_graph;
      failed ← for_passes warmup_step 0 (passes g) 0;
      if failed >? 0 then
        emit (LogError "Failed to warmup %zu pass(es) of the renderer's graph."
                (Some failed)) ;;
        ret false
      else
        set_state _GFX_GRAPH_WARMED ;;
        ret true.

(** [_gfx_render_graph_build] *)
Definition _gfx_render_graph_build : M bool :=
  g ← get_graph;
  if bool_decide (state g = _GFX_GRAPH_BUILT) then ret true
  else
    analyzed ← purge_and_analyze;
    if negb analyzed then ret false
    else
      g ← get_graph;
      failed ← for_passes build_step 0 (passes g) 0;
      if failed >? 0 then
        emit (LogError "Failed to build %zu pass(es) of the renderer's graph."
                (Some failed)) ;;
        ret false
      else
        set_state _GFX_GRAPH_BUILT ;;
        ret true.

(** The bit [_GFX_RECREATE] of [_GFXRecreateFlags], an enumeration that
    is not part of these sources. *)
Variable _GFX_RECREATE : Z.

(** [_gfx_render_graph_rebuild]; [assert(flags & _GFX_RECREATE)] leaves
    nothing defined for flags without the bit. *)
Definition _gfx_render_graph_rebuild (index : Z) (flags : Z) : M unit :=
  if negb (has_bits flags _GFX_RECREATE) then undefined
  else
    g ← get_graph;
    if state_value (state g) <? state_value _GFX_GRAPH_WARMED then ret tt
    else
      failed ← for_passes (rebuild_step index flags) 0 (passes g) 0;
      if failed >? 0 then
        emit (LogWarn "Failed to rebuild %zu pass(es) of the renderer's graph."
                (Some failed)) ;;
        set_state _GFX_GRAPH_VALIDATED
      else ret tt.

(** [_gfx_render_graph_destruct] *)
Definition _gfx_render_graph_destruct (index : Z) : M unit :=
  g ← get_graph;
  _ ← for_passes (destruct_step index) 0 (passes g) 0;
  ret tt.

(** [_gfx_render_graph_invalidate] *)
Definition _gfx_render_graph_invalidate : M unit :=
  g ← get_graph;
  if negb (bool_decide (state g = _GFX_GRAPH_EMPTY))
  then set_state _GFX_GRAPH_INVALID
  else ret tt.

(** ** Adding a pass *)

(** One more than the largest level among [parents] when that is at least
    [lvl], and [lvl] otherwise; [None] when a parent is not in memory. *)
Fixpoint level_above (h : gmap N GFXPass) (parents : list N) (lvl : Z) : option Z :=
  match parents with
  | [] => Some lvl
  | q :: parents' =>
      p ← h !! q;
      level_above h parents' (if level p >=? lvl then level p + 1 else lvl)
  end.

(** Modelled from the spec: [_gfx_create_pass], which is not part of these
    sources. It gives [NULL] when the allocation fails; otherwise the new
    pass lives at the address the allocator hands out, its level is one more
    than the largest level of its parents, or 0 without parents, it names
    its parents, and nothing is built yet ([build.backing] is [SIZE_MAX]). *)
Definition _gfx_create_pass (malloc : option N) (parents : list N) : M (option N) :=
  match malloc with
  | None => ret None
  | Some pass =>
      fun w =>
        match level_above (heap w) parents 0 with
        | None => None
        | Some lvl => (store pass (mkPass lvl 0 0 SIZE_MAX parents) ;; ret (Some pass)) w
        end
  end.

(** Modelled from the spec: [_gfx_destroy_pass], which is not part of these
    sources: the pass is gone from memory. *)
Definition _gfx_destroy_pass (pass : N) : M unit :=
  emit (PassDestroy pass) ;; free pass.

(** The outcome of the three allocations of one [gfx_renderer_add_pass]: the
    address of the new pass, and whether [gfx_vec_push] and [gfx_vec_insert]
    succeed. *)
Record Alloc := mkAlloc {
  malloc_pass : option N;
  push_ok : bool;
  insert_ok : bool
}.

(** [for (loc = passes.size; loc > 0; --loc)], which breaks at the first
    pass from the right whose level is at most [lvl]. *)
Fixpoint find_loc (h : gmap N GFXPass) (vec : list N) (lvl : Z) (loc : nat)
    : option nat :=
  match loc with
  | O => Some O
  | S loc' =>
      q ← vec !! loc';
      p ← h !! q;
      if level p <=? lvl then Some loc else find_loc h vec lvl loc'
  end.

(** [gfx_vec_insert(vec, 1, &elem, index)] *)
Definition gfx_vec_insert (vec : list N) (elem : N) (index : nat) : list N :=
  take index vec ++ elem :: drop index vec.

(** [gfx_vec_pop(vec, 1)] *)
Definition gfx_vec_pop (vec : list N) : list N :=
  take (length vec - 1) vec.

(** [for (d = 0; d < numParents; ++d) if (sink == parents[d]) break;]: the
    value of [d] after the loop. *)
Fixpoint parent_index (sink : N) (parents : list N) : nat :=
  match parents with
  | [] => O
  | q :: parents' =>
      if bool_decide (sink = q) then O else S (parent_index sink parents')
  end.

(** [for (size_t t = sinks.size-1; t > 0; --t)], erasing the sinks that are
    now a parent. *)
Fixpoint erase_parents (parents : list N) (t : nat) (vec : list N)
    : option (list N) :=
  match t with
  | O => Some vec
  | S t' =>
      sink ← vec !! t';
      erase_parents parents t'
        (if (parent_index sink parents <? length parents)%nat
         then delete t' vec else vec)
  end.

(** The three statements under [clean:] and [error:]. *)
Definition add_pass_clean (pass : N) : M (option N) :=
  _gfx_destroy_pass pass ;;
  emit (LogError "Could not add a new pass to a renderer's graph." None) ;;
  ret None.

(** [gfx_renderer_add_pass(renderer, numParents, parents)] *)
Definition gfx_renderer_add_pass (a : Alloc) (parents : list N) : M (option N) :=
  created ← _gfx_create_pass (malloc_pass a) parents;
  match created with
  | None =>
      emit (LogError "Could not add a new pass to a renderer's graph." None) ;;
      ret None
  | Some pass =>
      if negb (push_ok a) then add_pass_clean pass
      else
        g ← get_graph;
        set_sinks (sinks g ++ [pass]) ;;
        p ← load pass;
        loc ← ((fun w =>
          match find_loc (heap w) (passes g) (level p) (length (passes g)) with
          | Some loc => Some (loc, w)
          | None => None
          end) : M nat);
        if negb (insert_ok a) then
          g ← get_graph;
          set_sinks (gfx_vec_pop (sinks g)) ;;
          add_pass_clean pass
        else
          set_passes (gfx_vec_insert (passes g) pass loc) ;;
          g ← get_graph;
          pruned ← ((fun w =>
            match erase_parents parents (length (sinks g) - 1) (sinks g) with
            | Some l => Some (l, w)
            | None => None
            end) : M (list N));
          set_sinks pruned ;;
          g ← get_graph;
          (if negb (bool_decide (state g = _GFX_GRAPH_EMPTY))
           then set_state (if (1 <? length (passes g))%nat
                           then _GFX_GRAPH_INVALID else _GFX_GRAPH_EMPTY)
           else ret tt) ;;
          ret (Some pass)
  end.

(** ** Clearing the graph and reading its sinks *)

(** [for (size_t i = renderer->graph.passes.size; i > 0; --i)] destroying
    the pass at [i-1]. *)
Fixpoint destroy_passes (vec : list N) (i : nat) : M unit :=
  match i with
  | O => ret tt
  | S i' =>
      match vec !! i' with
      | Some pass => _gfx_destroy_pass pass ;; destroy_passes vec i'
      | None => undefined
      end
  end.

(** [_gfx_render_graph_clear]; [gfx_vec_clear] leaves an empty vector. *)
Definition _gfx_render_graph_clear : M unit :=
  g ← get_graph;
  destroy_passes (passes g) (length (passes g)) ;;
  set_passes [] ;;
  set_sinks [].

(** [gfx_renderer_get_num_sinks] *)
Definition gfx_renderer_get_num_sinks : M nat :=
  g ← get_graph; ret (length (sinks g)).

(** [gfx_renderer_get_sink]; an index outside the vector is undefined. *)
Definition gfx_renderer_get_sink (sink : nat) : M N :=
  g ← get_graph;
  match sinks g !! sink with
  | Some pass => ret pass
  | None => undefined
  end.

(** ** What the spec says of a graph *)

(** Every pointer of [vec] points to a pass in memory. *)
Definition alive (h : gmap N GFXPass) (vec : list N) : Prop :=
  forall p, p ∈ vec -> is_Some (h !! p).

(** The passes of the vector are distinct and in memory, and their number
    is a [size_t]. *)
Definition world_ok (w : World) : Prop :=
  NoDup (passes (graph w)) /\
  alive (heap w) (passes (graph w)) /\
  Z.of_nat (length (passes (graph w))) <= SIZE_MAX.

(** A call of [gfx_renderer_add_pass] as the interface asks for it: the
    parents are passes of this renderer, and the allocator hands out an
    address that is not in use. *)
Definition valid_call (w : World) (a : Alloc) (parents : list N) : Prop :=
  (forall q, q ∈ parents -> q ∈ passes (graph w)) /\
  (forall p, malloc_pass a = Some p -> heap w !! p = None).

(** The worlds that a freshly initialized graph reaches through calls of
    [gfx_renderer_add_pass], failed ones included. *)
Inductive added : World -> Prop :=
  | added_init w w0 :
      _gfx_render_graph_init w = Some (tt, w0) -> added w0
  | added_pass w a parents res w' :
      added w -> valid_call w a parents ->
      gfx_renderer_add_pass a parents w = Some (res, w') -> added w'.

(** Topological order: every parent of a pass of the vector stands at a
    strictly smaller index and has a strictly smaller level. *)
Definition topological (w : World) : Prop :=
  forall j p ps q,
    passes (graph w) !! j = Some p -> heap w !! p = Some ps -> q ∈ parents ps ->
    exists i qs, (i < j)%nat /\ passes (graph w) !! i = Some q /\
                 heap w !! q = Some qs /\ level qs < level ps.

(** Sink closure: the sinks are the passes of the vector that no pass of
    the vector lists as a parent. *)
Definition sink_closure (w : World) : Prop :=
  forall x,
    x ∈ sinks (graph w) <->
    x ∈ passes (graph w) /\
    forall y ps, y ∈ passes (graph w) -> heap w !! y = Some ps -> x ∉ parents ps.

(** The level of a pass in memory. *)
Definition level_of (h : gmap N GFXPass) (p : N) : Z :=
  match h !! p with Some ps => level ps | None => 0 end.

(** What adding passes maintains: the passes of the vector are in memory;
    the parents of a pass are passes of the vector of a smaller level; the
    vector is sorted by level; and the sinks are closed. *)
Definition graph_inv (w : World) : Prop :=
  alive (heap w) (passes (graph w)) /\
  (forall p ps q,
     p ∈ passes (graph w) -> heap w !! p = Some ps -> q ∈ parents ps ->
     q ∈ passes (graph w) /\ level_of (heap w) q < level ps) /\
  StronglySorted (fun x y => level_of (heap w) x <= level_of (heap w) y)
    (passes (graph w)) /\
  sink_closure w.

(** The passes of [vec] that the attachment [index] backs as a window:
    those whose [build.backing] is [index]. *)
Definition backed_by (h : gmap N GFXPass) (index : Z) (vec : list N) : list N :=
  List.filter
    (fun p => match h !! p with
              | Some ps => build_backing ps =? index
              | None => false
              end) vec.

(** ** What the specification says of the calls into the pass module *)

(** The answers of the pass module to one call per pass of [vec], in the
    order of [vec]: each call is given the pass as memory [h] holds it and
    the backend that the call before it left. *)
Fixpoint call_results (call : Backend -> N -> GFXPass -> bool * GFXPass * Backend)
    (h : gmap N GFXPass) (vec : list N) (b : Backend) : list bool :=
  match vec with
  | [] => []
  | pass :: vec' =>
      match h !! pass with
      | Some p =>
          let r := call b pass p in
          r.1.1 :: call_results call h vec' r.2
      | None => []
      end
  end.

(** Memory and backend after [_gfx_pass_destruct] has been called on every
    pass of [vec], in the order of [vec]. *)
Fixpoint destructed (h : gmap N GFXPass) (vec : list N) (b : Backend)
    : gmap N GFXPass * Backend :=
  match vec with
  | [] => (h, b)
  | pass :: vec' =>
      match h !! pass with
      | Some p =>
          let r := _gfx_pass_destruct b pass p in
          destructed (<[pass := r.1]> h) vec' r.2
      | None => (h, b)
      end
  end.

(** What places a pass in the graph: its level and its parents. *)
Definition links (p : GFXPass) : Z * list N := (level p, parents p).

(** The graph of [w'] holds the vectors of the graph of [w], and memory
    places every pass in [w'] as in [w]. *)
Definition same_links (w w' : World) : Prop :=
  passes (graph w') = passes (graph w) /\
  sinks (graph w') = sinks (graph w) /\
  forall p, links <$> (heap w' !! p) = links <$> (heap w !! p).

(** A computation that moves no pass of the graph. *)
Definition keeps_links {A} (c : M A) : Prop :=
  forall w a w', c w = Some (a, w') -> same_links w w'.

(** The worlds that the functions of [graph.c] reach from a freshly
    initialized graph: passes are added, and the graph is warmed up, built,
    rebuilt, destructed, invalidated and cleared in any order. Only calls
    that return count, failed ones included. *)
Inductive reachable : World -> Prop :=
  | reach_init w w0 :
      _gfx_render_graph_init w = Some (tt, w0) -> reachable w0
  | reach_add_pass w a parents res w' :
      reachable w -> valid_call w a parents ->
      gfx_renderer_add_pass a parents w = Some (res, w') -> reachable w'
  | reach_warmup w ok w' :
      reachable w -> _gfx_render_graph_warmup w = Some (ok, w') -> reachable w'
  | reach_build w ok w' :
      reachable w -> _gfx_render_graph_build w = Some (ok, w') -> reachable w'
  | reach_rebuild w index flags w' :
      reachable w ->
      _gfx_render_graph_rebuild index flags w = Some (tt, w') -> reachable w'
  | reach_destruct w index w' :
      reachable w -> _gfx_render_graph_destruct index w = Some (tt, w') ->
      reachable w'
  | reach_invalidate w w' :
      reachable w -> _gfx_render_graph_invalidate w = Some (tt, w') -> reachable w'
  | reach_clear w w' :
      reachable w -> _gfx_render_graph_clear w = Some (tt, w') -> reachable w'.

End WithPasses.

Arguments graph {Backend}.
Arguments heap {Backend}.
Arguments backend {Backend}.
Arguments trace {Backend}.
Arguments ret {Backend A}.
Arguments bind {Backend A B}.
Arguments get_graph {Backend}.
Arguments set_graph {Backend}.
Arguments set_state {Backend}.
Arguments set_sinks {Backend}.
Arguments set_passes {Backend}.
Arguments emit {Backend}.
Arguments load {Backend}.
Arguments store {Backend}.
Arguments free {Backend}.
Arguments pass_destruct {Backend}.
Arguments pass_warmup {Backend}.
Arguments pass_build {Backend}.
Arguments for_passes {Backend}.
Arguments purge_step {Backend}.
Arguments warmup_step {Backend}.
Arguments build_step {Backend}.
Arguments rebuild_step {Backend}.
Arguments destruct_step {Backend}.
Arguments _gfx_render_graph_purge {Backend}.
Arguments _gfx_render_graph_analyze {Backend}.
Arguments _gfx_render_graph_init {Backend}.
Arguments purge_and_analyze {Backend}.
Arguments _gfx_render_graph_warmup {Backend}.
Arguments _gfx_render_graph_build {Backend}.
Arguments _gfx_render_graph_rebuild {Backend}.
Arguments _gfx_render_graph_destruct {Backend}.
Arguments _gfx_render_graph_invalidate {Backend}.
Arguments _gfx_create_pass {Backend}.
Arguments _gfx_destroy_pass {Backend}.
Arguments add_pass_clean {Backend}.
Arguments gfx_renderer_add_pass {Backend}.
Arguments destroy_passes {Backend}.
Arguments _gfx_render_graph_clear {Backend}.
Arguments gfx_renderer_get_num_sinks {Backend}.
Arguments gfx_renderer_get_sink {Backend}.
Arguments world_ok {Backend}.
Arguments valid_call {Backend}.
Arguments added {Backend}.
Arguments added_init {Backend}.
Arguments added_pass {Backend}.
Arguments topological {Backend}.
Arguments sink_closure {Backend}.
Arguments graph_inv {Backend}.
Arguments call_results {Backend}.
Arguments destructed {Backend}.
Arguments same_links {Backend}.
Arguments keeps_links {Backend A}.
Arguments reachable {Backend}.
Arguments reach_init {Backend}.
Arguments reach_add_pass {Backend}.
Arguments reach_warmup {Backend}.
Arguments reach_build {Backend}.
Arguments reach_rebuild {Backend}.
Arguments reach_destruct {Backend}.
Arguments reach_invalidate {Backend}.
Arguments reach_clear {Backend}.

(** The calls to [_gfx_pass_build] in a trace, with flags and results, and
    the passes that [_gfx_pass_destruct] was called on. *)
Definition builds_of (evs : list Event) : list (N * Z * bool) :=
  omap (fun e => match e with
                 | PassBuild pass flags ok => Some (pass, flags, ok)
                 | _ => None
                 end) evs.

Definition destructs_of (evs : list Event) : list N :=
  omap (fun e => match e with PassDestruct pass => Some pass | _ => None end) evs.

(** The entries that a loop over [vec] calling [_gfx_pass_build] with
    [flags] leaves in the trace, given the results of the calls. *)
Definition build_events (flags : Z) (vec : list N) (oks : list bool) : list Event :=
  zip_with (fun pass ok => PassBuild pass flags ok) vec oks.

(** The number of failures among the results of some calls. *)
Definition failures (oks : list bool) : Z :=
  Z.of_nat (length (List.filter negb oks)).

End Graph.

(* ===================================================================== *)
(** * Concrete data *)
(* ===================================================================== *)

(** Small instances on which the definitions above are run. *)

Module FormatData.
Import Format.
Local Open Scope Z_scope.

(** One possible content of the missing headers: containment compares the
    four depths and asks the type and order of the first format to lie
    within those of the second; no format is compressed. *)
Definition header : FormatsHeader := {|
  GFX_FORMAT_EMPTY := mkFormat 0 0 0 0 0 0;
  GFX_FORMAT_IS_CONTAINED := fun a b =>
    (comps0 a =? comps0 b) && (comps1 a =? comps1 b) &&
    (comps2 a =? comps2 b) && (comps3 a =? comps3 b) &&
    (Z.land (type a) (type b) =? type a) &&
    (Z.land (order a) (order b) =? order a);
  GFX_FORMAT_IS_COMPRESSED := fun _ => false;
  GFX_FUZZY_MIN_DEPTH := 1;
  GFX_FUZZY_MAX_DEPTH := 2;
  VK_FORMAT_FEATURE := fun f =>
    match f with
    | SAMPLED_IMAGE => 1 | STORAGE_IMAGE => 2
    | UNIFORM_TEXEL_BUFFER => 8 | STORAGE_TEXEL_BUFFER => 16
    | VERTEX_BUFFER => 64 | ATTACHMENT => 128 | ATTACHMENT_BLEND => 256
    | SAMPLED_IMAGE_LINEAR => 4096 | IMAGE_READ => 16384
    | IMAGE_WRITE => 32768 | SAMPLED_IMAGE_MINMAX => 65536
    end;
  GFX_FORMAT_FEATURE := fun f =>
    match f with
    | VERTEX_BUFFER => 1 | UNIFORM_TEXEL_BUFFER => 2
    | STORAGE_TEXEL_BUFFER => 4 | SAMPLED_IMAGE => 8
    | SAMPLED_IMAGE_LINEAR => 16 | SAMPLED_IMAGE_MINMAX => 32
    | STORAGE_IMAGE => 64 | ATTACHMENT => 128 | ATTACHMENT_BLEND => 256
    | IMAGE_READ => 512 | IMAGE_WRITE => 1024
    end
|}.

Definition UNORM : Z := 1.
Definition RGBA : Z := 15.

Definition rgba8 : GFXFormat := mkFormat 8 8 8 8 UNORM RGBA.
Definition rgba16 : GFXFormat := mkFormat 16 16 16 16 UNORM RGBA.
Definition rgb8 : GFXFormat := mkFormat 8 8 8 0 UNORM RGBA.
Definition rgba10 : GFXFormat := mkFormat 10 10 10 10 UNORM RGBA.

(** Every format can be sampled from an optimally tiled image. *)
Definition sampled : VkFormatProperties := mkProps 0 1 0.

(** A dictionary with depths 8-8-8-8, 16-16-16-16 and 8-8-8-0. *)
Definition device : _GFXDevice :=
  mkDevice [mkElem rgba8 37 sampled; mkElem rgba16 91 sampled; mkElem rgb8 23 sampled].

(** Another possible content of the missing headers: a depth of 0 in
    the second format stands for any depth. *)
Definition wildcard : FormatsHeader := {|
  GFX_FORMAT_EMPTY := GFX_FORMAT_EMPTY header;
  GFX_FORMAT_IS_CONTAINED := fun a b =>
    ((comps0 b =? 0) || (comps0 a =? comps0 b)) &&
    ((comps1 b =? 0) || (comps1 a =? comps1 b)) &&
    ((comps2 b =? 0) || (comps2 a =? comps2 b)) &&
    ((comps3 b =? 0) || (comps3 a =? comps3 b)) &&
    (Z.land (type a) (type b) =? type a) &&
    (Z.land (order a) (order b) =? order a);
  GFX_FORMAT_IS_COMPRESSED := GFX_FORMAT_IS_COMPRESSED header;
  GFX_FUZZY_MIN_DEPTH := GFX_FUZZY_MIN_DEPTH header;
  GFX_FUZZY_MAX_DEPTH := GFX_FUZZY_MAX_DEPTH header;
  VK_FORMAT_FEATURE := VK_FORMAT_FEATURE header;
  GFX_FORMAT_FEATURE := GFX_FORMAT_FEATURE header
|}.

(** A request for 8 bits of red and anything else, and a dictionary in
    which the records nearest to it do not contain it: 16-0-0-0 and
    10-0-0-0 do not, 8-8-8-8, 8-8-8-0 and 8-0-8-8 do, and the record
    8-0-0-0 cannot be sampled. *)
Definition red8 : GFXFormat := mkFormat 8 0 0 0 UNORM RGBA.
Definition r16 : GFXFormat := mkFormat 16 0 0 0 UNORM RGBA.
Definition r10 : GFXFormat := mkFormat 10 0 0 0 UNORM RGBA.
Definition rba8 : GFXFormat := mkFormat 8 0 8 8 UNORM RGBA.

Definition mixed : _GFXDevice :=
  mkDevice [mkElem r16 70 sampled; mkElem rgba8 37 sampled; mkElem rgb8 23 sampled;
            mkElem r10 71 sampled; mkElem rba8 72 sampled;
            mkElem red8 9 (mkProps 0 0 64)].

(** A device that supports the Vulkan formats 37 and 91 but not 23, and
    the three lines that map the formats above to them. *)
Definition properties (vkFmt : Z) : VkFormatProperties :=
  if vkFmt =? 23 then mkProps 0 0 0 else sampled.

Definition lines : list Mapping :=
  [mkMapping "GFX_FORMAT_R8G8B8A8_UNORM" "VK_FORMAT_R8G8B8A8_UNORM" rgba8 37;
   mkMapping "GFX_FORMAT_R8G8B8_UNORM" "VK_FORMAT_R8G8B8_UNORM" rgb8 23;
   mkMapping "GFX_FORMAT_R16G16B16A16_UNORM" "VK_FORMAT_R16G16B16A16_UNORM" rgba16 91].

End FormatData.

Module RefData.
Import Ref.
Local Open Scope Z_scope.

(** A primitive that packs 3 vertices of stride 8 and, behind them, 6
    indices of 2 bytes into its own buffer of 36 bytes. *)
Definition packed : _GFXPrimitive :=
  mkPrimitive (mkPrimitiveBase 0 0 3 6 8) (mkBuffer 36 0 7) GFX_REF_NULL GFX_REF_NULL.

(** A buffer of 24 bytes that holds the vertices of the next primitive. *)
Definition vertices : _GFXBuffer := mkBuffer 24 0 7.

(** A primitive whose vertices live in the buffer at address 2 and whose
    own buffer of 12 bytes holds the indices only. *)
Definition indexed : _GFXPrimitive :=
  mkPrimitive (mkPrimitiveBase 0 0 3 6 8) (mkBuffer 12 0 7)
    (mkRef GFX_REF_BUFFER (Addr 2) 0 0 0) GFX_REF_NULL.

(** A group at address 4 with one buffer binding of two elements, both in
    the group's own buffer of 64 bytes, at offsets 0 and 32. *)
Definition group : _GFXGroup :=
  mkGroup 0 (mkBuffer 64 0 7)
    [mkBinding GFX_BINDING_BUFFER 2
       [mkRef GFX_REF_BUFFER (BufferOf 4) 0 0 0;
        mkRef GFX_REF_BUFFER (BufferOf 4) 32 0 0] []].

(** A buffer of 16 bytes. *)
Definition small : _GFXBuffer := mkBuffer 16 0 7.

Definition memory : Store :=
  <[1%N := ObjPrimitive packed]> (<[2%N := ObjBuffer vertices]>
  (<[3%N := ObjPrimitive indexed]> (<[4%N := ObjGroup group]>
  (<[5%N := ObjBuffer small]> ∅)))).

(** [gfx_ref_prim_indices_at(packed, 4)] and
    [gfx_ref_prim_indices_at(indexed, 4)] *)
Definition packed_indices : GFXReference := mkRef GFX_REF_PRIMITIVE_INDICES (Addr 1) 4 0 0.
Definition indexed_indices : GFXReference := mkRef GFX_REF_PRIMITIVE_INDICES (Addr 3) 4 0 0.

(** [gfx_ref_group_buffer_at(group, 0, 1, 8)] *)
Definition group_element : GFXReference := mkRef GFX_REF_GROUP_BUFFER (Addr 4) 8 0 1.

(** [gfx_ref_buffer_at(small, 32)], past the end of the buffer. *)
Definition beyond : GFXReference := mkRef GFX_REF_BUFFER (Addr 5) 32 0 0.

(** [gfx_ref_prim_vertices_at(indexed, 0, 8)] *)
Definition indexed_vertices : GFXReference :=
  mkRef GFX_REF_PRIMITIVE_VERTICES (Addr 3) 8 0 0.

(** [gfx_ref_group_buffer(group, 3, 0)]: the group has no binding 3. *)
Definition no_binding : GFXReference := mkRef GFX_REF_GROUP_BUFFER (Addr 4) 0 3 0.

End RefData.

Module GraphData.
Import Graph.
Local Open Scope Z_scope.

(** A backend that is the list of the passes whose build fails. Building
    picks the window attachment 0 and counts a generation; warming up
    succeeds; destructing forgets the window. *)
Definition warmup (failing : list N) (pass : N) (p : GFXPass)
    : bool * GFXPass * list N :=
  (true, p, failing).

Definition build (failing : list N) (pass : N) (p : GFXPass) (flags : Z)
    : bool * GFXPass * list N :=
  (negb (bool_decide (pass ∈ failing)),
   mkPass (level p) (order p) (gen p + 1) 0 (parents p), failing).

Definition destruct (failing : list N) (pass : N) (p : GFXPass)
    : GFXPass * list N :=
  (mkPass (level p) (order p) (gen p) SIZE_MAX (parents p), failing).

(** A warmup that fails on the passes of the list. *)
Definition warmup_failing (failing : list N) (pass : N) (p : GFXPass)
    : bool * GFXPass * list N :=
  (negb (bool_decide (pass ∈ failing)), p, failing).

(** A renderer before [_gfx_render_graph_init]. *)
Definition blank : World (list N) :=
  mkWorld (list N) (mkGraph [] [] _GFX_GRAPH_EMPTY) ∅ [] [].

(** The world of [w] after the computation [c], or [w] where [c] has no
    result. *)
Definition after {A} (c : M (list N) A) (w : World (list N)) : World (list N) :=
  match c w with Some (_, w') => w' | None => w end.

(** Every allocation succeeds and the new pass lives at [p]. *)
Definition at_address (p : N) : Alloc := mkAlloc (Some p) true true.

(** A freshly initialized renderer; then pass A at address 1; then B at 2
    and C at 3, both with parent A; then D at 4 with parents B and C. *)
Definition fresh : World (list N) := after _gfx_render_graph_init blank.
Definition one : World (list N) := after (gfx_renderer_add_pass (at_address 1) []) fresh.
Definition two : World (list N) := after (gfx_renderer_add_pass (at_address 2) [1%N]) one.
Definition three : World (list N) := after (gfx_renderer_add_pass (at_address 3) [1%N]) two.
Definition diamond : World (list N) :=
  after (gfx_renderer_add_pass (at_address 4) [2%N; 3%N]) three.

(** The graph of A, B and C after it has been built, and then with D at
    address 4 on B and C. *)
Definition built : World (list N) := after (_gfx_render_graph_build build destruct) three.
Definition grown : World (list N) :=
  after (gfx_renderer_add_pass (at_address 4) [2%N; 3%N]) built.

(** One pass at address 1 that consumes window 0, in a graph in the given
    state, with the given passes failing to build. *)
Definition single (st : GraphState) (failing : list N) : World (list N) :=
  mkWorld (list N) (mkGraph [1%N] [1%N] st)
    (<[1%N := mkPass 0 0 0 0 []]> ∅) failing [].

(** Three passes in a built graph: the first and the last write to window
    0, the second to window 1; the last fails to build. *)
Definition windows : World (list N) :=
  mkWorld (list N) (mkGraph [3%N] [1%N; 2%N; 3%N] _GFX_GRAPH_BUILT)
    (<[1%N := mkPass 0 0 1 0 []]> (<[2%N := mkPass 1 1 1 1 [1%N]]>
    (<[3%N := mkPass 2 2 1 0 [2%N]]> ∅))) [3%N] [].

(** The same three passes in an invalidated graph. *)
Definition stale : World (list N) :=
  mkWorld (list N) (mkGraph [3%N] [1%N; 2%N; 3%N] _GFX_GRAPH_INVALID)
    (heap windows) [3%N] [].

(** One possible value of the bit [_GFX_RECREATE]. *)
Definition recreate : Z := 1.

(** Three passes of a validated graph whose [order] is stale. *)
Definition unordered : World (list N) :=
  mkWorld (list N) (mkGraph [3%N] [1%N; 2%N; 3%N] _GFX_GRAPH_VALIDATED)
    (<[1%N := mkPass 0 7 0 SIZE_MAX []]> (<[2%N := mkPass 1 7 0 SIZE_MAX [1%N]]>
    (<[3%N := mkPass 2 7 0 SIZE_MAX [2%N]]> ∅))) [] [].

(** The address 4 is handed out, but [gfx_vec_insert] fails. *)
Definition no_insert : Alloc := mkAlloc (Some 4%N) true false.

End GraphData.

(* ===================================================================== *)
(** * Properties of the format search *)
(* ===================================================================== *)

Lemma wrap_small w z : (0 <= z < 2 ^ w)%Z -> wrap w z = z.
Proof. intros Hz. unfold wrap. now apply Z.mod_small. Qed.

Lemma wrap_range w z : (0 <= w)%Z -> (0 <= wrap w z < 2 ^ w)%Z.
Proof.
  intros Hw. unfold wrap. apply Z.mod_pos_bound. now apply Z.pow_pos_nonneg.
Qed.

Module FormatSpec.
Import Format.
Local Open Scope Z_scope.

Lemma GFX_DIFF_range a b :
  depth_ok a -> depth_ok b -> 0 <= GFX_DIFF a b < 256.
Proof.
  unfold depth_ok, GFX_DIFF. intros Ha Hb.
  destruct (Z.gtb_spec a b); lia.
Qed.

Lemma distance_sum a b :
  format_ok a -> format_ok b ->
  _GFX_GET_DISTANCE a b =
    GFX_DIFF (comps0 a) (comps0 b) + GFX_DIFF (comps1 a) (comps1 b) +
    GFX_DIFF (comps2 a) (comps2 b) + GFX_DIFF (comps3 a) (comps3 b).
Proof.
  intros (a0 & a1 & a2 & a3) (b0 & b1 & b2 & b3).
  pose proof (GFX_DIFF_range _ _ a0 b0).
  pose proof (GFX_DIFF_range _ _ a1 b1).
  pose proof (GFX_DIFF_range _ _ a2 b2).
  pose proof (GFX_DIFF_range _ _ a3 b3).
  unfold _GFX_GET_DISTANCE.
  assert (2 ^ 32 = 4294967296) as E by reflexivity.
  rewrite (wrap_small 32 (GFX_DIFF (comps0 a) _)) by lia.
  rewrite (wrap_small 32 (GFX_DIFF (comps1 a) _)) by lia.
  rewrite (wrap_small 32 (GFX_DIFF (comps2 a) _)) by lia.
  rewrite (wrap_small 32 (GFX_DIFF (comps3 a) _)) by lia.
  set (d0 := GFX_DIFF (comps0 a) _) in *. set (d1 := GFX_DIFF (comps1 a) _) in *.
  set (d2 := GFX_DIFF (comps2 a) _) in *. set (d3 := GFX_DIFF (comps3 a) _) in *.
  rewrite (wrap_small 32 (d0 + d1)) by lia.
  rewrite (wrap_small 32 (d0 + d1 + d2)) by lia.
  rewrite (wrap_small 32 (d0 + d1 + d2 + d3)) by lia.
  reflexivity.
Qed.

Lemma distance_below_max a b :
  format_ok a -> format_ok b -> _GFX_GET_DISTANCE a b < UINT_MAX.
Proof.
  intros Ha Hb. rewrite distance_sum by assumption.
  destruct Ha as (a0 & a1 & a2 & a3), Hb as (b0 & b1 & b2 & b3).
  pose proof (GFX_DIFF_range _ _ a0 b0).
  pose proof (GFX_DIFF_range _ _ a1 b1).
  pose proof (GFX_DIFF_range _ _ a2 b2).
  pose proof (GFX_DIFF_range _ _ a3 b3).
  unfold UINT_MAX. lia.
Qed.

Section Fuzzy.
Variable H : FormatsHeader.
Variables (fmt : GFXFormat) (flags features : Z).

(** The loop only ever looks at the candidates. *)
Lemma fuzzy_fold_candidates l b :
  fold_left (fuzzy_body H fmt flags features) l b =
  fold_left (closest H fmt)
    (map elem_format (List.filter (candidate H fmt flags features) l)) b.
Proof.
  revert b. induction l as [|e l IH]; intros b; [reflexivity|].
  cbn [fold_left List.filter]. unfold fuzzy_body at 2, candidate at 1.
  destruct (skip_match H fmt features e); cbn [negb andb]; [apply IH|].
  destruct (skip_depth H fmt flags e); cbn [negb andb map fold_left]; apply IH.
Qed.

(** The match is kept when a candidate arrives that is neither of a better
    class nor nearer. *)
Lemma best_match_keep l r x :
  best_match H fmt l r ->
  (GFX_FORMAT_IS_CONTAINED H x fmt = true ->
   GFX_FORMAT_IS_CONTAINED H r fmt = true) ->
  (GFX_FORMAT_IS_CONTAINED H x fmt = GFX_FORMAT_IS_CONTAINED H r fmt ->
   _GFX_GET_DISTANCE r fmt <= _GFX_GET_DISTANCE x fmt) ->
  best_match H fmt (l ++ [x]) r.
Proof.
  intros (l1 & l2 & El & Hcont & Hl1 & Hl2) Hx Hdx. cbv zeta in *.
  exists l1, (l2 ++ [x]). cbv zeta. split; [|split; [|split]].
  - rewrite El. now rewrite <- app_assoc.
  - intros c Hin Hct. apply elem_of_app in Hin as [Hin|Hin]; [eauto|].
    apply list_elem_of_singleton in Hin. subst c. auto.
  - assumption.
  - intros c Hin Hct. apply elem_of_app in Hin as [Hin|Hin]; [eauto|].
    apply list_elem_of_singleton in Hin. subst c. auto.
Qed.

(** A candidate of a better class, or strictly nearer than all of its own
    class before it, becomes the match. *)
Lemma best_match_take l x :
  (forall c, c ∈ l -> GFX_FORMAT_IS_CONTAINED H c fmt = true ->
     GFX_FORMAT_IS_CONTAINED H x fmt = true) ->
  (forall c, c ∈ l ->
     GFX_FORMAT_IS_CONTAINED H c fmt = GFX_FORMAT_IS_CONTAINED H x fmt ->
     _GFX_GET_DISTANCE x fmt < _GFX_GET_DISTANCE c fmt) ->
  best_match H fmt (l ++ [x]) x.
Proof.
  intros Hcont Hd. exists l, []. cbv zeta. split; [|split; [|split]].
  - reflexivity.
  - intros c Hin Hct. apply elem_of_app in Hin as [Hin|Hin]; [eauto|].
    apply list_elem_of_singleton in Hin. now subst c.
  - assumption.
  - intros c Hin. inversion Hin.
Qed.

(** Within a match, every candidate of the class of the match is at least
    as far as the match. *)
Lemma best_match_nearest l r c :
  best_match H fmt l r -> c ∈ l ->
  GFX_FORMAT_IS_CONTAINED H c fmt = GFX_FORMAT_IS_CONTAINED H r fmt ->
  _GFX_GET_DISTANCE r fmt <= _GFX_GET_DISTANCE c fmt.
Proof.
  intros (l1 & l2 & El & Hcont & Hl1 & Hl2) Hin Hct. cbv zeta in *.
  rewrite El in Hin. apply elem_of_app in Hin as [Hin|Hin].
  - specialize (Hl1 c Hin Hct). lia.
  - apply elem_of_cons in Hin as [-> |Hin]; [lia|]. now apply Hl2.
Qed.

Lemma best_match_class l r c :
  best_match H fmt l r -> c ∈ l ->
  GFX_FORMAT_IS_CONTAINED H c fmt = true ->
  GFX_FORMAT_IS_CONTAINED H r fmt = true.
Proof. intros (l1 & l2 & El & Hcont & _) Hin Hct. cbv zeta in *. eauto. Qed.

(** What the locals hold after the loop has gone through the candidates
    [l]: nothing yet, or the best match so far with its class and
    distance. *)
Lemma closest_fold l :
  (forall c, c ∈ l -> _GFX_GET_DISTANCE c fmt < UINT_MAX) ->
  let b := fold_left (closest H fmt) l (mkBest (GFX_FORMAT_EMPTY H) false UINT_MAX) in
  match l with
  | [] => b = mkBest (GFX_FORMAT_EMPTY H) false UINT_MAX
  | _ => best_match H fmt l (retFmt b) /\
         contained b = GFX_FORMAT_IS_CONTAINED H (retFmt b) fmt /\
         dist b = _GFX_GET_DISTANCE (retFmt b) fmt
  end.
Proof.
  induction l as [|x l IH] using rev_ind; intros Hd b; [reflexivity|].
  assert (exists y l', l ++ [x] = y :: l') as (y & l' & E).
  { destruct l; simpl; eauto. }
  rewrite E. rewrite <- E. clear E y l'.
  subst b. rewrite fold_left_app. cbn [fold_left].
  set (b := fold_left (closest H fmt) l _) in *.
  assert (Hd' : forall c, c ∈ l -> _GFX_GET_DISTANCE c fmt < UINT_MAX).
  { intros c Hc. apply Hd. apply elem_of_app. now left. }
  specialize (IH Hd'). cbv zeta in IH.
  assert (Hx : _GFX_GET_DISTANCE x fmt < UINT_MAX).
  { apply Hd. apply elem_of_app. right. now apply list_elem_of_singleton. }
  destruct l as [|y l'].
  - (* the first candidate is always taken *)
    rewrite IH. unfold closest. cbn [contained dist].
    destruct (Z.ltb_spec (_GFX_GET_DISTANCE x fmt) UINT_MAX); [|lia].
    rewrite orb_true_r. cbn [retFmt contained dist].
    split; [|split; reflexivity].
    apply (best_match_take []); intros c Hc; inversion Hc.
  - destruct IH as (Hbest & Hc & Hdist).
    set (l := y :: l') in *. set (r := retFmt b) in *.
    unfold closest. rewrite Hc, Hdist.
    destruct (GFX_FORMAT_IS_CONTAINED H r fmt) eqn:Er;
      destruct (GFX_FORMAT_IS_CONTAINED H x fmt) eqn:Ex; cbn [andb orb];
      try destruct (Z.ltb_spec (_GFX_GET_DISTANCE x fmt) (_GFX_GET_DISTANCE r fmt));
      cbn [retFmt contained dist]; fold r;
      (split; [|split; congruence]).
    + (* containing and nearer than the containing match *)
      apply best_match_take; [auto|].
      intros c Hin Hct. rewrite Ex, <- Er in Hct.
      pose proof (best_match_nearest _ _ _ Hbest Hin Hct). lia.
    + apply best_match_keep; [assumption|auto|intros; lia].
    + apply best_match_keep; [assumption|congruence|congruence].
    + apply best_match_keep; [assumption|congruence|congruence].
    + (* the first containing candidate *)
      apply best_match_take; [auto|].
      intros c Hin Hct. rewrite Ex in Hct.
      pose proof (best_match_class _ _ _ Hbest Hin Hct). congruence.
    + apply best_match_take; [auto|].
      intros c Hin Hct. rewrite Ex in Hct.
      pose proof (best_match_class _ _ _ Hbest Hin Hct). congruence.
    + (* not containing, as the match, and nearer *)
      apply best_match_take.
      * intros c Hin Hct.
        pose proof (best_match_class _ _ _ Hbest Hin Hct). congruence.
      * intros c Hin Hct. rewrite Ex, <- Er in Hct.
        pose proof (best_match_nearest _ _ _ Hbest Hin Hct). lia.
    + apply best_match_keep; [assumption|congruence|intros; lia].
Qed.

End Fuzzy.

(** The format returned, relative to the filters and the distance of the
    code. *)
Lemma fuzzy_best_match (H : FormatsHeader) (fmt : GFXFormat)
    (flags features : Z) (dev : _GFXDevice) :
  format_ok fmt ->
  Forall (fun elem => format_ok (elem_format elem)) (formats dev) ->
  let cands := candidates H fmt flags features dev in
  let r := gfx_format_fuzzy H fmt flags features dev in
  match cands with
  | [] => r = GFX_FORMAT_EMPTY H
  | _ =>
      best_match H fmt cands r /\
      exists elem, elem ∈ formats dev /\ elem_format elem = r /\
                   candidate H fmt flags features elem = true
  end.
Proof.
  intros Hfmt Hdev cands r.
  assert (Hd : forall c, c ∈ cands -> _GFX_GET_DISTANCE c fmt < UINT_MAX).
  { intros c Hc. apply distance_below_max; [|assumption].
    unfold cands, candidates in Hc.
    apply list_elem_of_fmap in Hc as (elem & -> & Hin).
    apply list_elem_of_In, filter_In in Hin as [Hin _].
    rewrite Forall_forall in Hdev. apply Hdev. now apply list_elem_of_In. }
  pose proof (closest_fold H fmt cands Hd) as Hfold. cbv zeta in Hfold.
  assert (Er : r = retFmt (fold_left (closest H fmt) cands
                 (mkBest (GFX_FORMAT_EMPTY H) false UINT_MAX))).
  { unfold r, gfx_format_fuzzy. now rewrite fuzzy_fold_candidates. }
  destruct cands as [|c0 cands'] eqn:Ec.
  - rewrite Er. reflexivity.
  - rewrite <- Er in Hfold. destruct Hfold as (Hbest & _). split; [assumption|].
    destruct Hbest as (l1 & l2 & El & _).
    assert (Hin : r ∈ candidates H fmt flags features dev).
    { fold cands. rewrite Ec, El. apply elem_of_app. right. apply elem_of_cons. now left. }
    unfold candidates in Hin.
    apply list_elem_of_fmap in Hin as (elem & Hr & Hin).
    apply list_elem_of_In, filter_In in Hin as [Hin Hcand].
    exists elem. split; [now apply list_elem_of_In|]. split; [now symmetry|assumption].
Qed.

(** *** The code against the words of the specification *)

(** The macro is the L1 distance of the depths. *)
Lemma distance_is_l1 a b :
  format_ok a -> format_ok b -> _GFX_GET_DISTANCE a b = l1_distance a b.
Proof.
  intros Ha Hb. rewrite distance_sum by assumption.
  unfold l1_distance, GFX_DIFF.
  destruct (Z.gtb_spec (comps0 a) (comps0 b)), (Z.gtb_spec (comps1 a) (comps1 b)),
    (Z.gtb_spec (comps2 a) (comps2 b)), (Z.gtb_spec (comps3 a) (comps3 b)); lia.
Qed.

(** The two [continue] tests of the loop skip exactly the records that the
    request does not admit. *)
Lemma candidate_admits H fmt flags features elem :
  candidate H fmt flags features elem = admits H fmt flags features elem.
Proof.
  unfold candidate, admits, skip_match, skip_depth. cbv zeta.
  rewrite !Z.gtb_ltb, !Z.ltb_antisym.
  destruct (has_bits flags (GFX_FUZZY_MIN_DEPTH H)),
    (has_bits flags (GFX_FUZZY_MAX_DEPTH H)),
    (GFX_FORMAT_IS_COMPRESSED H (elem_format elem));
    cbn [andb orb negb];
    rewrite ?negb_orb, ?negb_involutive, ?andb_true_r, ?andb_assoc;
    reflexivity.
Qed.

Lemma candidates_admitted H fmt flags features dev :
  candidates H fmt flags features dev = admitted H fmt flags features dev.
Proof.
  unfold candidates, admitted. f_equal. apply List.filter_ext.
  intros elem. apply candidate_admits.
Qed.

Lemma best_match_preferred H fmt cands r :
  format_ok fmt -> (forall c, c ∈ cands -> format_ok c) ->
  best_match H fmt cands r -> preferred H fmt cands r.
Proof.
  intros Hfmt Hok (earlier & later & El & Hcont & Hearly & Hlate).
  assert (Hr : format_ok r).
  { apply Hok. rewrite El. apply elem_of_app. right. now left. }
  exists earlier, later. split; [exact El|]. split; [exact Hcont|]. split.
  - intros c Hc Hcl. rewrite <- !distance_is_l1; try assumption.
    + now apply Hearly.
    + apply Hok. rewrite El. apply elem_of_app. now left.
  - intros c Hc Hcl. rewrite <- !distance_is_l1; try assumption.
    + now apply Hlate.
    + apply Hok. rewrite El. apply elem_of_app. right. now right.
Qed.

(** C7. Among the records of the dictionary that the request admits (type
    and order, features, and the depth bounds of [GFX_FUZZY_MIN_DEPTH] and
    [GFX_FUZZY_MAX_DEPTH]), [gfx_format_fuzzy] returns a format that
    contains the requested format whenever one of them does, so that a
    containing format beats every nearer one that does not contain; and
    within its containment class it is at the smallest L1 distance of the
    channel depths, the first such format in dictionary order. Where the
    request admits no record it returns the empty format. *)
Theorem fuzzy_prefers_contained (H : FormatsHeader) (fmt : GFXFormat)
    (flags features : Z) (dev : _GFXDevice) :
  format_ok fmt ->
  Forall (fun elem => format_ok (elem_format elem)) (formats dev) ->
  let cands := admitted H fmt flags features dev in
  let r := gfx_format_fuzzy H fmt flags features dev in
  match cands with
  | [] => r = GFX_FORMAT_EMPTY H
  | _ =>
      preferred H fmt cands r /\
      exists elem, elem ∈ formats dev /\ elem_format elem = r /\
                   admits H fmt flags features elem = true
  end.
Proof.
  intros Hfmt Hdev cands r.
  pose proof (fuzzy_best_match H fmt flags features dev Hfmt Hdev) as Hbest.
  cbv zeta in Hbest. rewrite candidates_admitted in Hbest. fold cands r in Hbest.
  assert (Hok : forall c, c ∈ cands -> format_ok c).
  { intros c Hc. unfold cands, admitted in Hc.
    apply list_elem_of_fmap in Hc as (elem & -> & Hin).
    apply list_elem_of_In, filter_In in Hin as [Hin _].
    rewrite Forall_forall in Hdev. apply Hdev. now apply list_elem_of_In. }
  destruct cands as [|c0 cands']; [exact Hbest|].
  destruct Hbest as (Hb & elem & Hin & Hr & Hc).
  split; [now apply best_match_preferred|].
  exists elem. split; [exact Hin|]. split; [exact Hr|].
  now rewrite <- candidate_admits.
Qed.

(** C7, the theorem at a request for 8 bits of red in a dictionary of six
    records: one cannot be sampled and is not admitted; of the other five
    the two nearest (at distances 2 and 8) do not contain the request; of
    the three that contain it two are at the distance 16, and the first of
    them in dictionary order is returned. *)
Lemma fuzzy_prefers_contained_witness :
  format_ok FormatData.red8 /\
  Forall (fun elem => format_ok (elem_format elem)) (formats FormatData.mixed) /\
  admitted FormatData.wildcard FormatData.red8 0 8 FormatData.mixed
    = [FormatData.r16; FormatData.rgba8; FormatData.rgb8; FormatData.r10;
       FormatData.rba8] /\
  map (fun c => (GFX_FORMAT_IS_CONTAINED FormatData.wildcard c FormatData.red8,
                 l1_distance c FormatData.red8))
    [FormatData.r16; FormatData.rgba8; FormatData.rgb8; FormatData.r10;
     FormatData.rba8]
    = [(false, 8); (true, 24); (true, 16); (false, 2); (true, 16)] /\
  gfx_format_fuzzy FormatData.wildcard FormatData.red8 0 8 FormatData.mixed
    = FormatData.rgb8 /\
  preferred FormatData.wildcard FormatData.red8
    [FormatData.r16; FormatData.rgba8; FormatData.rgb8; FormatData.r10;
     FormatData.rba8]
    FormatData.rgb8.
Proof.
  assert (Hq : format_ok FormatData.red8).
  { unfold format_ok, depth_ok. simpl. lia. }
  assert (Hd : Forall (fun elem => format_ok (elem_format elem))
                 (formats FormatData.mixed)).
  { unfold format_ok, depth_ok. repeat constructor; simpl; lia. }
  split; [exact Hq|]. split; [exact Hd|]. split; [reflexivity|].
  split; [reflexivity|]. split; [reflexivity|].
  exact (proj1 (fuzzy_prefers_contained FormatData.wildcard FormatData.red8 0 8
                  FormatData.mixed Hq Hd)).
Defined.

(** The depth bounds of the request at the dictionary of the spec: asked
    for 10-10-10-10, [GFX_FUZZY_MIN_DEPTH] admits the 16-bit format only,
    [GFX_FUZZY_MAX_DEPTH] the two 8-bit formats, and without a flag all
    three are admitted. *)
Example admitted_depth_bounds :
  admitted FormatData.header FormatData.rgba10 1 8 FormatData.device
    = [FormatData.rgba16] /\
  admitted FormatData.header FormatData.rgba10 2 8 FormatData.device
    = [FormatData.rgba8; FormatData.rgb8] /\
  admitted FormatData.header FormatData.rgba10 0 8 FormatData.device
    = [FormatData.rgba8; FormatData.rgba16; FormatData.rgb8] /\
  admitted FormatData.header FormatData.rgba10 3 8 FormatData.device = [].
Proof. repeat split; reflexivity. Qed.

(** The scenario of the spec: depths 10-10-10-10 with [MIN_DEPTH] give the
    16-bit format, with [MAX_DEPTH] the 8-bit RGBA format; an exact request
    gives the containing format although another could be nearer. *)
Example fuzzy_min_depth :
  gfx_format_fuzzy FormatData.header FormatData.rgba10 1 8 FormatData.device
  = FormatData.rgba16.
Proof. reflexivity. Qed.

Example fuzzy_max_depth :
  gfx_format_fuzzy FormatData.header FormatData.rgba10 2 8 FormatData.device
  = FormatData.rgba8.
Proof. reflexivity. Qed.

Example fuzzy_no_candidate :
  gfx_format_fuzzy FormatData.header FormatData.rgba10 1 64 FormatData.device
  = GFX_FORMAT_EMPTY FormatData.header.
Proof. reflexivity. Qed.

End FormatSpec.

(* ===================================================================== *)
(** * Properties of reference unpacking *)
(* ===================================================================== *)

Module RefSpec.
Import Ref.
Local Open Scope Z_scope.

(** Resolving a reference that cannot resolve further gives it back. *)
Lemma resolve_rec_null fuel s ref rec :
  resolve_switch s ref = Some (Rec rec) ->
  GFX_REF_IS_NULL rec = true ->
  _gfx_ref_resolve (S fuel) s ref = Some (ref, []).
Proof.
  intros E Hnull. cbn [_gfx_ref_resolve]. rewrite E.
  cbn [mbind option_bind]. now rewrite Hnull.
Qed.


(** What the index case of the unpacker computes for a primitive that holds
    its own index buffer: the vertex bytes, or nothing, and never the
    offset of the reference. *)
Lemma unpack_indices_value ndebug fuel s a prim off v0 v1 :
  s !! a = Some (ObjPrimitive prim) ->
  numIndices (primitive_base prim) > 0 ->
  refIndex prim = GFX_REF_NULL ->
  let ref := mkRef GFX_REF_PRIMITIVE_INDICES (Addr a) off v0 v1 in
  value <$> (fst <$> _gfx_ref_unpack ndebug (S fuel) s ref) =
  Some (if wrap 64 (off + (if GFX_REF_IS_NULL (refVertex prim) then 1 else 0)) =? 0
        then 0
        else wrap 64 (numVertices (primitive_base prim) * stride (primitive_base prim))).
Proof.
  intros Hs Hn Hidx ref.
  assert (Hsw : resolve_switch s ref = Some (Rec (add_offset GFX_REF_NULL off))).
  { unfold resolve_switch, ref. cbn [type obj offset _GFX_PRIMITIVE]. rewrite Hs.
    cbn [mbind option_bind].
    destruct (Z.gtb_spec (numIndices (primitive_base prim)) 0); [|lia].
    cbn [negb]. now rewrite Hidx. }
  unfold _gfx_ref_unpack. rewrite (resolve_rec_null _ _ _ _ Hsw eq_refl).
  cbn [mbind option_bind type obj _GFX_PRIMITIVE ref]. rewrite Hs.
  cbn [mbind option_bind fmap option_fmap option_map fst value].
  unfold indices_value. cbn [offset].
  now destruct (wrap 64 _ =? 0).
Qed.

(** C1. In the code the sum of the offset and the null test is the condition
    of the conditional operator. For the primitive that packs 3 vertices of
    stride 8 before its indices, the index reference at offset 4 unpacks to
    24 where the claim gives 4 + 3 * 8 = 28; for the primitive with a vertex
    buffer of its own, the index reference at offset 4 unpacks to 24 where
    the claim gives 4. *)
Theorem unpack_indices_loses_offset :
  (value <$> (fst <$> _gfx_ref_unpack true 1 RefData.memory RefData.packed_indices)
     = Some 24 /\
   offset RefData.packed_indices
     + numVertices (primitive_base RefData.packed) * stride (primitive_base RefData.packed)
     = 28) /\
  (value <$> (fst <$> _gfx_ref_unpack true 1 RefData.memory RefData.indexed_indices)
     = Some 24 /\
   GFX_REF_IS_NULL (refVertex RefData.indexed) = false /\
   offset RefData.indexed_indices = 4).
Proof. repeat split; vm_compute; reflexivity. Qed.

(** The bounds check adds at most one warning to the log and nothing in a
    build with [NDEBUG]. *)
Lemma check_unpack_spec ndebug eval warning :
  _GFX_CHECK_UNPACK ndebug eval warning =
  if ndebug then [] else if eval then [] else [warning].
Proof. reflexivity. Qed.


(** C8, against the claim, for an index reference: the primitive that
    packs its vertices and indices into a buffer of 36 bytes, referenced at
    the index offset 100, unpacks to the value 24 with and without
    [NDEBUG], and no build logs a warning. *)
Example unpack_index_beyond_unreported :
  _gfx_ref_unpack true 1 RefData.memory
    (mkRef GFX_REF_PRIMITIVE_INDICES (Addr 1) 100 0 0)
    = Some (mkUnpack 24 0 7 (BufferOf 1) NULL NULL, []) /\
  _gfx_ref_unpack false 1 RefData.memory
    (mkRef GFX_REF_PRIMITIVE_INDICES (Addr 1) 100 0 0)
    = Some (mkUnpack 24 0 7 (BufferOf 1) NULL NULL, []).
Proof. split; reflexivity. Qed.




(** C10. A group buffer reference whose binding element lies in the group's
    own buffer resolves to itself, offset included, with any fuel; and the
    unpacker then names the group's buffer and adds the offset stored in the
    binding element to the offset of the reference. *)
Theorem resolve_keeps_group_reference (ndebug : bool) (fuel : nat) (s : Store)
    (a : N) (group : _GFXGroup) (binding : GFXBinding)
    (stored ref : GFXReference) :
  type ref = GFX_REF_GROUP_BUFFER ->
  obj ref = Addr a ->
  s !! a = Some (ObjGroup group) ->
  bindings group !! values0 ref = Some binding ->
  (values1 ref < count binding)%nat ->
  binding_type binding = GFX_BINDING_BUFFER ->
  buffers binding !! values1 ref = Some stored ->
  obj stored = BufferOf a ->
  _gfx_ref_resolve (S fuel) s ref = Some (ref, []) /\
  exists unp log,
    _gfx_ref_unpack ndebug (S fuel) s ref = Some (unp, log) /\
    value unp = wrap 64 (offset ref + offset stored) /\
    obj_buffer unp = BufferOf a.
Proof.
  intros Ht Ho Hs Hb Hc Hbt Hst Hobj.
  assert (Hsw : resolve_switch s ref = Some (Rec GFX_REF_NULL)).
  { unfold resolve_switch. rewrite Ht, Ho. cbn [_GFX_GROUP]. rewrite Hs.
    cbn [mbind option_bind]. rewrite Hb.
    destruct (Nat.ltb_spec (values1 ref) (count binding)); [|lia].
    cbn [negb]. rewrite bool_decide_eq_true_2 by assumption. cbn [negb].
    rewrite Hst. cbn [mbind option_bind buffer_of].
    now rewrite bool_decide_eq_true_2 by assumption. }
  pose proof (resolve_rec_null fuel _ _ _ Hsw eq_refl) as Hres.
  split; [assumption|].
  unfold _gfx_ref_unpack. rewrite Hres. cbn [mbind option_bind].
  rewrite Ht, Ho. cbn [_GFX_GROUP]. rewrite Hs. cbn [mbind option_bind].
  rewrite Hb. cbn [mbind option_bind]. rewrite Hst. cbn [mbind option_bind].
  eexists _, _. split; [reflexivity|]. split; reflexivity.
Qed.

(** C10, the theorem at the second element of the group's binding, referenced at
    offset 8: the value is 8 + 32. *)
Lemma resolve_keeps_group_reference_witness :
  _gfx_ref_resolve 1 RefData.memory RefData.group_element
    = Some (RefData.group_element, []) /\
  exists unp log,
    _gfx_ref_unpack true 1 RefData.memory RefData.group_element = Some (unp, log) /\
    value unp = wrap 64 (8 + 32) /\
    obj_buffer unp = BufferOf 4.
Proof.
  refine (resolve_keeps_group_reference true 0 RefData.memory 4 RefData.group
            (mkBinding GFX_BINDING_BUFFER 2
               [mkRef GFX_REF_BUFFER (BufferOf 4) 0 0 0;
                mkRef GFX_REF_BUFFER (BufferOf 4) 32 0 0] [])
            (mkRef GFX_REF_BUFFER (BufferOf 4) 32 0 0) RefData.group_element
            eq_refl eq_refl eq_refl eq_refl _ eq_refl eq_refl eq_refl).
  simpl. lia.
Defined.

End RefSpec.

(* ===================================================================== *)
(** * Properties of the render graph *)
(* ===================================================================== *)

Module GraphSpec.
Import Graph.
Local Open Scope Z_scope.

(** Unfolds the monad and its primitive operations. *)
Ltac run :=
  repeat (progress (
    unfold mbind, M_bind, bind, mret, M_ret, ret, undefined, get_graph, set_graph,
      set_state, set_sinks, set_passes, emit, load, store, free in *;
    cbn beta iota zeta delta
      [graph heap backend trace sinks passes state fst snd state_value
       Z.ltb Z.geb Z.compare Pos.compare Pos.compare_cont negb] in *)).

(** Decides the comparisons of two enumerators. *)
Ltac enumerators :=
  repeat first
    [ rewrite bool_decide_eq_true_2 by reflexivity
    | rewrite bool_decide_eq_false_2 by discriminate ].

Section Passes.
Context {Backend : Type}.
Variable warmup : Backend -> N -> GFXPass -> bool * GFXPass * Backend.
Variable build : Backend -> N -> GFXPass -> Z -> bool * GFXPass * Backend.
Variable destruct : Backend -> N -> GFXPass -> GFXPass * Backend.

(** *** Counting failures *)

Lemma failures_cons ok oks :
  failures (ok :: oks) = (if ok then 0 else 1) + failures oks.
Proof.
  unfold failures. cbn [List.filter]. destruct ok; cbn [negb length]; lia.
Qed.

Lemma failures_nonneg oks : 0 <= failures oks.
Proof. unfold failures. lia. Qed.

Lemma failures_zero oks : failures oks = 0 <-> forallb id oks = true.
Proof.
  induction oks as [|ok oks IH]; [easy|].
  rewrite failures_cons. pose proof (failures_nonneg oks).
  cbn [forallb]. destruct ok; cbn [id andb]; [rewrite <- IH; lia|].
  split; [lia|discriminate].
Qed.

Lemma count_failures oks failed :
  0 <= failed -> failed + Z.of_nat (length oks) <= SIZE_MAX ->
  fold_left count_failure oks failed = failed + failures oks.
Proof.
  revert failed. induction oks as [|ok oks IH]; intros failed H0 Hmax.
  - cbn. unfold failures. cbn. lia.
  - cbn [fold_left]. rewrite failures_cons.
    cbn [length] in Hmax. unfold SIZE_MAX in *.
    assert (count_failure failed ok = failed + (if ok then 0 else 1)) as ->.
    { unfold count_failure. apply wrap_small.
      change (2 ^ 64) with 18446744073709551616. destruct ok; lia. }
    rewrite IH; [lia| destruct ok; lia | unfold SIZE_MAX; destruct ok; lia].
Qed.

(** *** Memory *)

Lemma alive_insert (h : gmap N GFXPass) p ps vec :
  alive h vec -> alive (<[p := ps]> h) vec.
Proof.
  intros Hal q Hq. destruct (decide (p = q)) as [-> |Hne].
  - rewrite lookup_insert_eq. eauto.
  - rewrite lookup_insert_ne by assumption. now apply Hal.
Qed.

Lemma alive_cons (h : gmap N GFXPass) p vec :
  alive h (p :: vec) -> is_Some (h !! p) /\ alive h vec.
Proof.
  intros Hal. split; [apply Hal; now left|].
  intros q Hq. apply Hal. now right.
Qed.

(** *** The loops over the pass vector *)

Lemma for_passes_cons (body : nat -> N -> Z -> M Backend Z) i p vec failed w :
  for_passes body i (p :: vec) failed w =
  match body i p failed w with
  | Some (failed', w') => for_passes body (S i) vec failed' w'
  | None => None
  end.
Proof. reflexivity. Qed.

Lemma purge_step_run i p failed (w : World Backend) ps :
  heap w !! p = Some ps ->
  purge_step destruct i p failed w =
  Some (failed,
        mkWorld Backend (graph w)
          (<[p := (destruct (backend w) p ps).1]> (heap w))
          (destruct (backend w) p ps).2
          (trace w ++ [PassDestruct p])).
Proof.
  intros Hps. unfold purge_step, pass_destruct. run. rewrite Hps.
  now destruct (destruct (backend w) p ps).
Qed.

Lemma build_step_run i p failed (w : World Backend) ps :
  heap w !! p = Some ps ->
  let r := build (backend w) p ps 0 in
  build_step build i p failed w =
  Some (count_failure failed r.1.1,
        mkWorld Backend (graph w)
          (<[p := set_order (wrap 32 (Z.of_nat i)) r.1.2]> (<[p := r.1.2]> (heap w)))
          r.2
          (trace w ++ [PassBuild p 0 r.1.1])).
Proof.
  intros Hps r. unfold build_step, pass_build. run. rewrite Hps. subst r.
  destruct (build (backend w) p ps 0) as [[ok ps'] b'].
  cbn [heap fst snd]. now rewrite lookup_insert_eq.
Qed.

Lemma rebuild_step_run index flags i p failed (w : World Backend) ps :
  heap w !! p = Some ps ->
  let r := build (backend w) p ps flags in
  rebuild_step build index flags i p failed w =
  if build_backing ps =? index then
    Some (count_failure failed r.1.1,
          mkWorld Backend (graph w) (<[p := r.1.2]> (heap w)) r.2
            (trace w ++ [PassBuild p flags r.1.1]))
  else Some (failed, w).
Proof.
  intros Hps r. unfold rebuild_step, pass_build. run. rewrite Hps.
  destruct (build_backing ps =? index); [|reflexivity].
  rewrite Hps. subst r. now destruct (build (backend w) p ps flags) as [[ok ps'] b'].
Qed.

Lemma purge_loop vec : forall i failed (w : World Backend),
  alive (heap w) vec ->
  exists w',
    for_passes (purge_step destruct) i vec failed w = Some (failed, w') /\
    graph w' = graph w /\
    trace w' = trace w ++ map PassDestruct vec /\
    (forall l, alive (heap w) l -> alive (heap w') l).
Proof.
  induction vec as [|p vec IH]; intros i failed w Hal.
  - exists w. cbn [for_passes map]. rewrite app_nil_r. now repeat split.
  - apply alive_cons in Hal as [[ps Hps] Hal].
    rewrite for_passes_cons, (purge_step_run _ _ _ _ _ Hps).
    match goal with |- context [for_passes _ _ _ _ ?w1] => set (w1' := w1) end.
    destruct (IH (S i) failed w1') as (w' & Hrun & Hg & Ht & Hal').
    { now apply alive_insert. }
    exists w'. rewrite Hrun, Hg, Ht. cbn [graph trace map w1'] in *.
    rewrite <- app_assoc. repeat split; try reflexivity.
    intros l Hl. apply Hal'. now apply alive_insert.
Qed.

Lemma build_loop vec : forall i failed (w : World Backend),
  alive (heap w) vec ->
  exists oks w',
    length oks = length vec /\
    for_passes (build_step build) i vec failed w
      = Some (fold_left count_failure oks failed, w') /\
    graph w' = graph w /\
    trace w' = trace w ++ build_events 0 vec oks /\
    (forall l, alive (heap w) l -> alive (heap w') l).
Proof.
  induction vec as [|p vec IH]; intros i failed w Hal.
  - exists [], w. cbn [for_passes build_events zip_with fold_left].
    rewrite app_nil_r. now repeat split.
  - apply alive_cons in Hal as [[ps Hps] Hal].
    rewrite for_passes_cons, (build_step_run _ _ _ _ _ Hps). cbv zeta.
    set (r := build (backend w) p ps 0).
    match goal with |- context [for_passes _ _ _ _ ?w1] => set (w1' := w1) end.
    destruct (IH (S i) (count_failure failed r.1.1) w1')
      as (oks & w' & Hlen & Hrun & Hg & Ht & Hal').
    { now do 2 apply alive_insert. }
    exists (r.1.1 :: oks), w'. rewrite Hrun, Hg, Ht.
    cbn [graph trace length build_events zip_with fold_left w1'] in *.
    rewrite <- app_assoc. repeat split; try reflexivity; [now rewrite Hlen|].
    intros l Hl. apply Hal'. now do 2 apply alive_insert.
Qed.

Lemma backed_by_insert_fresh (h : gmap N GFXPass) index p ps vec :
  p ∉ vec -> backed_by (<[p := ps]> h) index vec = backed_by h index vec.
Proof.
  intros Hp. unfold backed_by. apply List.filter_ext_in. intros q Hq.
  rewrite lookup_insert_ne; [reflexivity|].
  intros ->. apply Hp. now apply list_elem_of_In.
Qed.

Lemma rebuild_loop index flags vec : forall i failed (w : World Backend),
  NoDup vec -> alive (heap w) vec ->
  exists oks w',
    length oks = length (backed_by (heap w) index vec) /\
    for_passes (rebuild_step build index flags) i vec failed w
      = Some (fold_left count_failure oks failed, w') /\
    graph w' = graph w /\
    trace w' = trace w ++ build_events flags (backed_by (heap w) index vec) oks.
Proof.
  induction vec as [|p vec IH]; intros i failed w Hnd Hal.
  - exists [], w. cbn [for_passes backed_by List.filter build_events zip_with fold_left].
    rewrite app_nil_r. now repeat split.
  - apply alive_cons in Hal as [[ps Hps] Hal].
    apply NoDup_cons in Hnd as [Hp Hnd].
    rewrite for_passes_cons, (rebuild_step_run _ _ _ _ _ _ _ Hps). cbv zeta.
    unfold backed_by at 1 2. cbn [List.filter]. rewrite Hps. fold (backed_by (heap w) index vec).
    destruct (build_backing ps =? index).
    + set (r := build (backend w) p ps flags).
      match goal with |- context [for_passes _ _ _ _ ?w1] => set (w1' := w1) end.
      destruct (IH (S i) (count_failure failed r.1.1) w1' Hnd)
        as (oks & w' & Hlen & Hrun & Hg & Ht).
      { now apply alive_insert. }
      cbn [heap w1'] in Hlen, Ht. rewrite backed_by_insert_fresh in Hlen, Ht by assumption.
      exists (r.1.1 :: oks), w'. rewrite Hrun, Hg, Ht.
      cbn [graph trace length build_events zip_with fold_left w1'] in *.
      rewrite <- app_assoc. repeat split; try reflexivity. now rewrite Hlen.
    + destruct (IH (S i) failed w Hnd Hal) as (oks & w' & Hlen & Hrun & Hg & Ht).
      exists oks, w'. now repeat split.
Qed.

(** *** The answers of the pass module *)

Lemma call_results_ext (call : Backend -> N -> GFXPass -> bool * GFXPass * Backend)
    (h h' : gmap N GFXPass) vec : forall b,
  (forall q, q ∈ vec -> h' !! q = h !! q) ->
  call_results call h' vec b = call_results call h vec b.
Proof.
  induction vec as [|p vec IH]; intros b Hsame; [reflexivity|].
  cbn [call_results]. rewrite (Hsame p) by now left.
  destruct (h !! p) as [ps|]; [|reflexivity]. cbv zeta. f_equal.
  apply IH. intros q Hq. apply Hsame. now right.
Qed.

Lemma call_results_length (call : Backend -> N -> GFXPass -> bool * GFXPass * Backend)
    (h : gmap N GFXPass) vec : forall b,
  alive h vec -> length (call_results call h vec b) = length vec.
Proof.
  induction vec as [|p vec IH]; intros b Hal; [reflexivity|].
  apply alive_cons in Hal as [[ps Hps] Hal].
  cbn [call_results]. rewrite Hps. cbn [length]. now rewrite IH.
Qed.

Lemma alive_destructed vec : forall (h : gmap N GFXPass) b l,
  alive h l -> alive (destructed destruct h vec b).1 l.
Proof.
  induction vec as [|p vec IH]; intros h b l Hal; [exact Hal|].
  cbn [destructed]. destruct (h !! p) as [ps|]; [|exact Hal].
  cbv zeta. apply IH. now apply alive_insert.
Qed.

(** The purge leaves the memory and the backend that the destruct calls
    leave. *)
Lemma purge_loop_result vec : forall i failed (w : World Backend),
  alive (heap w) vec ->
  for_passes (purge_step destruct) i vec failed w =
  Some (failed,
        mkWorld Backend (graph w)
          (destructed destruct (heap w) vec (backend w)).1
          (destructed destruct (heap w) vec (backend w)).2
          (trace w ++ map PassDestruct vec)).
Proof.
  induction vec as [|p vec IH]; intros i failed w Hal.
  - cbn [for_passes destructed map fst snd]. rewrite app_nil_r. now destruct w.
  - apply alive_cons in Hal as [[ps Hps] Hal].
    rewrite for_passes_cons, (purge_step_run _ _ _ _ _ Hps).
    rewrite IH by (now apply alive_insert).
    cbn [graph heap backend trace destructed map]. rewrite Hps. cbv zeta.
    now rewrite <- app_assoc.
Qed.

(** The build loop records, for each pass, what [_gfx_pass_build] answers
    when it is given the pass as it was before the loop. *)
Lemma build_loop_results vec : forall i failed (w : World Backend),
  NoDup vec -> alive (heap w) vec ->
  exists w',
    for_passes (build_step build) i vec failed w
      = Some (fold_left count_failure
                (call_results (fun b p ps => build b p ps 0) (heap w) vec (backend w))
                failed, w') /\
    graph w' = graph w /\
    trace w' = trace w ++
      build_events 0 vec
        (call_results (fun b p ps => build b p ps 0) (heap w) vec (backend w)).
Proof.
  induction vec as [|p vec IH]; intros i failed w Hnd Hal.
  - exists w. cbn [for_passes call_results build_events zip_with fold_left].
    rewrite app_nil_r. now repeat split.
  - apply alive_cons in Hal as [[ps Hps] Hal].
    apply NoDup_cons in Hnd as [Hp Hnd].
    rewrite for_passes_cons, (build_step_run _ _ _ _ _ Hps). cbv zeta.
    cbn [call_results]. rewrite Hps. cbv zeta.
    set (r := build (backend w) p ps 0).
    match goal with |- context [for_passes _ _ _ _ ?w1] => set (w1' := w1) end.
    destruct (IH (S i) (count_failure failed r.1.1) w1' Hnd)
      as (w' & Hrun & Hg & Ht).
    { now do 2 apply alive_insert. }
    assert (Hres : call_results (fun b p ps => build b p ps 0) (heap w1') vec (backend w1')
                   = call_results (fun b p ps => build b p ps 0) (heap w) vec r.2).
    { cbn [heap backend w1']. apply call_results_ext. intros q Hq.
      rewrite !lookup_insert_ne; [reflexivity| |]; intros ->; contradiction. }
    rewrite Hres in Hrun, Ht.
    exists w'. rewrite Hrun, Hg, Ht.
    cbn [graph trace build_events zip_with fold_left w1'].
    rewrite <- app_assoc. now repeat split.
Qed.

(** The rebuild loop records what [_gfx_pass_build] answers for the passes
    that the attachment backs. *)
Lemma rebuild_loop_results index flags vec : forall i failed (w : World Backend),
  NoDup vec -> alive (heap w) vec ->
  exists w',
    for_passes (rebuild_step build index flags) i vec failed w
      = Some (fold_left count_failure
                (call_results (fun b p ps => build b p ps flags) (heap w)
                   (backed_by (heap w) index vec) (backend w))
                failed, w') /\
    graph w' = graph w /\
    trace w' = trace w ++
      build_events flags (backed_by (heap w) index vec)
        (call_results (fun b p ps => build b p ps flags) (heap w)
           (backed_by (heap w) index vec) (backend w)).
Proof.
  induction vec as [|p vec IH]; intros i failed w Hnd Hal.
  - exists w.
    cbn [for_passes backed_by List.filter call_results build_events zip_with fold_left].
    rewrite app_nil_r. now repeat split.
  - apply alive_cons in Hal as [[ps Hps] Hal].
    apply NoDup_cons in Hnd as [Hp Hnd].
    rewrite for_passes_cons, (rebuild_step_run _ _ _ _ _ _ _ Hps). cbv zeta.
    unfold backed_by at 1 2 3. cbn [List.filter]. rewrite Hps.
    fold (backed_by (heap w) index vec).
    destruct (build_backing ps =? index).
    + cbn [call_results]. rewrite Hps. cbv zeta.
      set (r := build (backend w) p ps flags).
      match goal with |- context [for_passes _ _ _ _ ?w1] => set (w1' := w1) end.
      destruct (IH (S i) (count_failure failed r.1.1) w1' Hnd)
        as (w' & Hrun & Hg & Ht).
      { now apply alive_insert. }
      cbn [heap backend w1'] in Hrun, Ht.
      rewrite backed_by_insert_fresh in Hrun, Ht by assumption.
      assert (Hres :
        call_results (fun b p ps => build b p ps flags) (<[p := r.1.2]> (heap w))
          (backed_by (heap w) index vec) r.2
        = call_results (fun b p ps => build b p ps flags) (heap w)
            (backed_by (heap w) index vec) r.2).
      { apply call_results_ext. intros q Hq.
        rewrite lookup_insert_ne; [reflexivity|]. intros ->. apply Hp.
        unfold backed_by in Hq. apply list_elem_of_In, filter_In in Hq as [Hq _].
        now apply list_elem_of_In. }
      rewrite Hres in Hrun, Ht.
      exists w'. rewrite Hrun, Hg, Ht.
      cbn [graph trace build_events zip_with fold_left w1'].
      rewrite <- app_assoc. now repeat split.
    + destruct (IH (S i) failed w Hnd Hal) as (w' & Hrun & Hg & Ht).
      exists w'. now repeat split.
Qed.

(** *** Purging and analyzing *)

Lemma purge_and_analyze_run (w : World Backend) :
  alive (heap w) (passes (graph w)) ->
  exists w1,
    purge_and_analyze destruct w = Some (true, w1) /\
    passes (graph w1) = passes (graph w) /\
    sinks (graph w1) = sinks (graph w) /\
    state (graph w1) =
      (if state_value (state (graph w)) <? state_value _GFX_GRAPH_VALIDATED
       then _GFX_GRAPH_VALIDATED else state (graph w)) /\
    trace w1 = trace w ++
      (if bool_decide (state (graph w) = _GFX_GRAPH_INVALID)
       then map PassDestruct (passes (graph w)) else []) ++
      (if state_value (state (graph w)) <? state_value _GFX_GRAPH_VALIDATED
       then [Analyze] else []) /\
    alive (heap w1) (passes (graph w)).
Proof.
  intros Hal. unfold purge_and_analyze.
  destruct (state (graph w)) eqn:Est.
  - eexists. unfold _gfx_render_graph_analyze. run. rewrite Est. enumerators. run.
    rewrite Est. run. repeat split; try reflexivity. assumption.
  - destruct (purge_loop (passes (graph w)) 0%nat 0 w Hal) as (w' & Hrun & Hg & Ht & Hal').
    unfold _gfx_render_graph_purge, _gfx_render_graph_analyze. run.
    rewrite Est. enumerators. rewrite Hrun. run. rewrite Hg, Ht.
    eexists. repeat split; try reflexivity.
    + cbn [trace]. now rewrite <- app_assoc.
    + now apply Hal'.
  - eexists. run. rewrite Est. enumerators. run. rewrite Est, app_nil_r. run.
    repeat split; try reflexivity; assumption.
  - eexists. run. rewrite Est. enumerators. run. rewrite Est, app_nil_r. run.
    repeat split; try reflexivity; assumption.
  - eexists. run. rewrite Est. enumerators. run. rewrite Est, app_nil_r. run.
    repeat split; try reflexivity; assumption.
Qed.

(** The world after the shared opening, in full. *)
Lemma purge_and_analyze_result (w : World Backend) :
  alive (heap w) (passes (graph w)) ->
  purge_and_analyze destruct w =
  Some (true,
        mkWorld Backend
          (mkGraph (sinks (graph w)) (passes (graph w))
             (if state_value (state (graph w)) <? state_value _GFX_GRAPH_VALIDATED
              then _GFX_GRAPH_VALIDATED else state (graph w)))
          (if bool_decide (state (graph w) = _GFX_GRAPH_INVALID)
           then destructed destruct (heap w) (passes (graph w)) (backend w)
           else (heap w, backend w)).1
          (if bool_decide (state (graph w) = _GFX_GRAPH_INVALID)
           then destructed destruct (heap w) (passes (graph w)) (backend w)
           else (heap w, backend w)).2
          (trace w ++
           (if bool_decide (state (graph w) = _GFX_GRAPH_INVALID)
            then map PassDestruct (passes (graph w)) else []) ++
           (if state_value (state (graph w)) <? state_value _GFX_GRAPH_VALIDATED
            then [Analyze] else []))).
Proof.
  intros Hal. unfold purge_and_analyze.
  destruct (state (graph w)) eqn:Est.
  - unfold _gfx_render_graph_analyze. run. rewrite Est. enumerators. run.
    rewrite Est. run. reflexivity.
  - unfold _gfx_render_graph_purge, _gfx_render_graph_analyze. run.
    rewrite Est. enumerators.
    rewrite (purge_loop_result (passes (graph w)) 0%nat 0 w Hal). run.
    now rewrite <- app_assoc.
  - run. rewrite Est. enumerators. run. rewrite Est, app_nil_r. run.
    rewrite <- Est. now destruct w as [[]].
  - run. rewrite Est. enumerators. run. rewrite Est, app_nil_r. run.
    rewrite <- Est. now destruct w as [[]].
  - run. rewrite Est. enumerators. run. rewrite Est, app_nil_r. run.
    rewrite <- Est. now destruct w as [[]].
Qed.

(** C9. A graph that has just been initialized holds no pass and no sink
    and is in the state BUILT, which is not EMPTY. Warming it up and
    building it succeed and leave the world as it is: the state is
    unchanged and the trace has no new entry, so nothing was purged,
    analyzed or visited. *)
Theorem init_is_built (w : World Backend) :
  exists w0,
    _gfx_render_graph_init w = Some (tt, w0) /\
    passes (graph w0) = [] /\
    sinks (graph w0) = [] /\
    state (graph w0) = _GFX_GRAPH_BUILT /\
    state (graph w0) <> _GFX_GRAPH_EMPTY /\
    _gfx_render_graph_warmup warmup destruct w0 = Some (true, w0) /\
    _gfx_render_graph_build build destruct w0 = Some (true, w0).
Proof.
  eexists. split; [reflexivity|].
  repeat split; try reflexivity. discriminate.
Qed.

(** The test [failed > 0] after a loop that started from 0. *)
Lemma failed_test oks :
  Z.of_nat (length oks) <= SIZE_MAX ->
  (fold_left count_failure oks 0 >? 0) = negb (forallb id oks) /\
  fold_left count_failure oks 0 = failures oks.
Proof.
  intros Hsz. rewrite count_failures by lia. rewrite Z.add_0_l. split; [|reflexivity].
  pose proof (failures_nonneg oks). pose proof (failures_zero oks) as Hz.
  destruct (forallb id oks); cbn [negb].
  - destruct Hz as [_ Hz]. rewrite Hz by reflexivity. reflexivity.
  - destruct (Z.gtb_spec (failures oks) 0); [reflexivity|].
    assert (failures oks = 0) as E by lia. apply Hz in E. discriminate.
Qed.

(** C5, as the code has it. In a graph whose passes are distinct and in
    memory, [_gfx_render_graph_build] returns. If the state is BUILT it
    returns success at once and changes nothing. Otherwise every pass is
    first destructed if the state was INVALID (the purge), the graph is
    analyzed if the state was below VALIDATED, and then [_gfx_pass_build]
    is called with no flags on every pass of the vector, in order, each
    call on the backend that the call before it left; if a call failed,
    one error line with the number of failed calls follows. The result is
    success exactly when every one of these calls of [_gfx_pass_build]
    answers success. The state is then BUILT; after a failure it is WARMED
    if it was WARMED, and VALIDATED otherwise. *)
Theorem build_outcome (w : World Backend) :
  world_ok w ->
  let entry :=
    if bool_decide (state (graph w) = _GFX_GRAPH_INVALID)
    then destructed destruct (heap w) (passes (graph w)) (backend w)
    else (heap w, backend w) in
  let oks :=
    call_results (fun b pass p => build b pass p 0)
      entry.1 (passes (graph w)) entry.2 in
  exists ok w' evs,
    _gfx_render_graph_build build destruct w = Some (ok, w') /\
    trace w' = trace w ++ evs /\
    passes (graph w') = passes (graph w) /\
    sinks (graph w') = sinks (graph w) /\
    if bool_decide (state (graph w) = _GFX_GRAPH_BUILT) then
      ok = true /\ w' = w
    else
      length oks = length (passes (graph w)) /\
      evs =
        (if bool_decide (state (graph w) = _GFX_GRAPH_INVALID)
         then map PassDestruct (passes (graph w)) else []) ++
        (if state_value (state (graph w)) <? state_value _GFX_GRAPH_VALIDATED
         then [Analyze] else []) ++
        build_events 0 (passes (graph w)) oks ++
        (if forallb id oks then []
         else [LogError "Failed to build %zu pass(es) of the renderer's graph."
                 (Some (failures oks))]) /\
      ok = forallb id oks /\
      (ok = true <-> Forall (fun b => b = true) oks) /\
      state (graph w') =
        (if forallb id oks then _GFX_GRAPH_BUILT
         else if bool_decide (state (graph w) = _GFX_GRAPH_WARMED)
              then _GFX_GRAPH_WARMED else _GFX_GRAPH_VALIDATED).
Proof.
  intros (Hnd & Hal & Hsz) entry oks. unfold _gfx_render_graph_build. run.
  case_bool_decide as Hst.
  - exists true, w, []. rewrite app_nil_r. now repeat split.
  - rewrite (purge_and_analyze_result w Hal). run. fold entry.
    match goal with |- context [for_passes _ _ _ _ ?x] => set (w1 := x) end.
    assert (Hal1 : alive (heap w1) (passes (graph w))).
    { cbn [heap w1]. unfold entry. case_bool_decide; [|exact Hal].
      now apply alive_destructed. }
    destruct (build_loop_results (passes (graph w)) 0%nat 0 w1 Hnd Hal1)
      as (w2 & Hrun & Hg & Ht2).
    cbn [heap backend w1] in Hrun, Ht2. fold oks in Hrun, Ht2.
    rewrite Hrun.
    assert (Hlen : length oks = length (passes (graph w))).
    { apply call_results_length. exact Hal1. }
    destruct (failed_test oks) as [Htest Hcount]; [now rewrite Hlen|].
    rewrite Htest, Hcount.
    assert (Hall : forallb id oks = true <-> Forall (fun b => b = true) oks).
    { rewrite forallb_forall, Forall_forall. unfold id.
      split; intros Hx b Hb; apply Hx; now apply list_elem_of_In. }
    destruct (forallb id oks) eqn:Eall; cbn [negb]; run.
    + eexists true, _, _. split; [reflexivity|]. cbn [trace graph passes sinks state].
      rewrite Hg, Ht2. cbn [graph trace passes sinks w1]. rewrite <- !app_assoc.
      split; [reflexivity|]. split; [reflexivity|]. split; [reflexivity|].
      rewrite app_nil_r.
      repeat split; try assumption; try reflexivity. now apply Hall.
    + eexists false, _, _. split; [reflexivity|]. cbn [trace graph passes sinks state].
      rewrite Hg, Ht2. cbn [graph trace passes sinks state w1]. rewrite <- !app_assoc.
      split; [reflexivity|]. split; [reflexivity|]. split; [reflexivity|].
      split; [assumption|]. split; [reflexivity|]. split; [reflexivity|].
      split; [split; [discriminate|intros Hf; apply Hall in Hf; discriminate]|].
      destruct (state (graph w)); try reflexivity. now contradict Hst.
Qed.

Lemma destructs_of_build_events flags vec oks tail :
  destructs_of (build_events flags vec oks ++ tail) = destructs_of tail.
Proof.
  revert oks. induction vec as [|p vec IH]; intros [|ok oks]; try reflexivity.
  cbn [build_events zip_with app]. unfold destructs_of at 1. cbn [omap list_omap].
  apply IH.
Qed.

Lemma builds_of_build_events flags vec oks :
  length oks = length vec ->
  map (fun b => b.1) (builds_of (build_events flags vec oks))
  = map (fun p => (p, flags)) vec.
Proof.
  revert oks. induction vec as [|p vec IH]; intros [|ok oks] Hlen;
    try reflexivity; try discriminate.
  cbn [build_events zip_with]. unfold builds_of. cbn [omap list_omap map fst].
  f_equal. apply IH. now injection Hlen.
Qed.

(** C6. In a graph whose passes are distinct and in memory,
    [_gfx_render_graph_rebuild], called with flags that hold the
    [_GFX_RECREATE] bit, returns, and it changes neither the pass vector
    nor the sinks. Below the state WARMED it changes nothing at all. From
    WARMED on it calls [_gfx_pass_build] with the given flags on each pass
    whose [build.backing] is the index, in the order of the vector, each
    call on the backend that the call before it left, and on no other
    pass. If one of these calls answers failure, one warning with the
    number of failures follows and the state becomes VALIDATED; if all
    answer success the state stays. No pass is destructed. *)
Theorem rebuild_outcome (recreate index flags : Z) (w : World Backend) :
  world_ok w ->
  has_bits flags recreate = true ->
  let rebuilt := backed_by (heap w) index (passes (graph w)) in
  let oks :=
    call_results (fun b pass p => build b pass p flags) (heap w) rebuilt (backend w) in
  exists w' evs,
    _gfx_render_graph_rebuild build recreate index flags w = Some (tt, w') /\
    trace w' = trace w ++ evs /\
    passes (graph w') = passes (graph w) /\
    sinks (graph w') = sinks (graph w) /\
    destructs_of evs = [] /\
    if state_value (state (graph w)) <? state_value _GFX_GRAPH_WARMED then
      w' = w
    else
      length oks = length rebuilt /\
      evs = build_events flags rebuilt oks ++
            (if forallb id oks then []
             else [LogWarn "Failed to rebuild %zu pass(es) of the renderer's graph."
                     (Some (failures oks))]) /\
      builds_of evs = zip_with (fun pass ok => (pass, flags, ok)) rebuilt oks /\
      state (graph w') =
        (if forallb id oks then state (graph w) else _GFX_GRAPH_VALIDATED).
Proof.
  intros (Hnd & Hal & Hsz) Hflags rebuilt oks.
  unfold _gfx_render_graph_rebuild. rewrite Hflags. run.
  destruct (state_value (state (graph w)) <? 3) eqn:Est.
  - exists w, []. rewrite app_nil_r. now repeat split.
  - destruct (rebuild_loop_results index flags (passes (graph w)) 0%nat 0 w Hnd Hal)
      as (w1 & Hrun & Hg & Ht).
    fold rebuilt in Hrun, Ht. fold oks in Hrun, Ht. rewrite Hrun.
    assert (Halr : alive (heap w) rebuilt).
    { intros q Hq. apply Hal. unfold rebuilt, backed_by in Hq.
      apply list_elem_of_In, filter_In in Hq as [Hq _]. now apply list_elem_of_In. }
    assert (Hlen : length oks = length rebuilt) by now apply call_results_length.
    assert (Hle : Z.of_nat (length oks) <= SIZE_MAX).
    { rewrite Hlen. unfold rebuilt, backed_by.
      pose proof (List.filter_length_le
        (fun p => match heap w !! p with
                  | Some ps => build_backing ps =? index
                  | None => false
                  end) (passes (graph w))).
      lia. }
    assert (Hb : forall tail, builds_of tail = [] ->
              builds_of (build_events flags rebuilt oks ++ tail)
              = zip_with (fun pass ok => (pass, flags, ok)) rebuilt oks).
    { intros tail Htail. unfold builds_of in *. rewrite omap_app, Htail, app_nil_r.
      clear. generalize oks. induction rebuilt as [|p l IH]; intros [|ok l'];
        try reflexivity.
      cbn [build_events zip_with omap list_omap]. f_equal. apply IH. }
    destruct (failed_test oks Hle) as [Htest Hcount]. rewrite Htest, Hcount.
    destruct (forallb id oks) eqn:Eall; cbn [negb]; run.
    + exists w1, (build_events flags rebuilt oks).
      rewrite Hg, Ht. split; [reflexivity|]. split; [reflexivity|].
      split; [reflexivity|]. split; [reflexivity|].
      split. { rewrite <- (app_nil_r (build_events _ _ _)).
               apply destructs_of_build_events. }
      rewrite app_nil_r. split; [assumption|]. split; [reflexivity|].
      split; [|reflexivity].
      rewrite <- (app_nil_r (build_events _ _ _)). now apply Hb.
    + eexists _, _. split; [reflexivity|]. cbn [trace graph passes sinks state].
      rewrite Hg, Ht. rewrite <- app_assoc.
      split; [reflexivity|]. split; [reflexivity|]. split; [reflexivity|].
      split. { now rewrite destructs_of_build_events. }
      split; [assumption|]. split; [reflexivity|].
      split; [|reflexivity]. now apply Hb.
Qed.

End Passes.

(** The one-pass and three-pass worlds are well formed. *)
Lemma single_ok st failing : world_ok (GraphData.single st failing).
Proof.
  split; [|split].
  - apply NoDup_singleton.
  - intros p Hp. apply list_elem_of_singleton in Hp. subst p.
    exists (mkPass 0 0 0 0 []). reflexivity.
  - cbn. unfold SIZE_MAX. lia.
Defined.

Lemma windows_ok : world_ok GraphData.windows.
Proof.
  split; [|split].
  - refine (@bool_decide_unpack (NoDup [1%N; 2%N; 3%N]) _ I).
  - intros p Hp. cbn in Hp.
    repeat (apply elem_of_cons in Hp as [-> |Hp]; [eexists; reflexivity|]).
    inversion Hp.
  - cbn. unfold SIZE_MAX. lia.
Defined.

(** C5, against the claim, with one pass whose build fails. From WARMED the
    build returns failure and the state is WARMED afterwards, not
    VALIDATED. From INVALID the pass is destructed by the call that then
    fails to build it. From BUILT the call returns success although the
    pass would not build. *)
Lemma build_failure_leaves_warmed :
  (exists w',
     _gfx_render_graph_build GraphData.build GraphData.destruct
       (GraphData.single _GFX_GRAPH_WARMED [1%N]) = Some (false, w') /\
     state (graph w') = _GFX_GRAPH_WARMED /\
     state (graph w') <> _GFX_GRAPH_VALIDATED) /\
  (exists w',
     _gfx_render_graph_build GraphData.build GraphData.destruct
       (GraphData.single _GFX_GRAPH_INVALID [1%N]) = Some (false, w') /\
     trace w' =
       [PassDestruct 1; Analyze; PassBuild 1 0 false;
        LogError "Failed to build %zu pass(es) of the renderer's graph." (Some 1)]) /\
  (_gfx_render_graph_build GraphData.build GraphData.destruct
     (GraphData.single _GFX_GRAPH_BUILT [1%N])
     = Some (true, GraphData.single _GFX_GRAPH_BUILT [1%N]) /\
   (GraphData.build [1%N] 1%N (mkPass 0 0 0 0 []) 0).1.1 = false).
Proof.
  split; [|split].
  - eexists. split; [vm_compute; reflexivity|]. split; [reflexivity|discriminate].
  - eexists. split; vm_compute; reflexivity.
  - split; vm_compute; reflexivity.
Qed.

Lemma stale_ok : world_ok GraphData.stale.
Proof.
  split; [|split].
  - refine (@bool_decide_unpack (NoDup [1%N; 2%N; 3%N]) _ I).
  - intros p Hp. cbn in Hp.
    repeat (apply elem_of_cons in Hp as [-> |Hp]; [eexists; reflexivity|]).
    inversion Hp.
  - cbn. unfold SIZE_MAX. lia.
Defined.

(** C5, the theorem at the invalidated graph of three passes, the last of
    which fails to build: the three passes are destructed, the graph is
    analyzed, the three calls answer success, success and failure, and the
    build returns failure with the state VALIDATED. *)
Lemma build_outcome_witness :
  world_ok GraphData.stale /\
  call_results (fun b pass p => GraphData.build b pass p 0)
    (destructed GraphData.destruct (heap GraphData.stale)
       (passes (graph GraphData.stale)) (backend GraphData.stale)).1
    (passes (graph GraphData.stale))
    (destructed GraphData.destruct (heap GraphData.stale)
       (passes (graph GraphData.stale)) (backend GraphData.stale)).2
    = [true; true; false] /\
  exists w',
    _gfx_render_graph_build GraphData.build GraphData.destruct GraphData.stale
      = Some (false, w') /\
    trace w' =
      [PassDestruct 1; PassDestruct 2; PassDestruct 3; Analyze;
       PassBuild 1 0 true; PassBuild 2 0 true; PassBuild 3 0 false;
       LogError "Failed to build %zu pass(es) of the renderer's graph." (Some 1)] /\
    state (graph w') = _GFX_GRAPH_VALIDATED.
Proof.
  split; [apply stale_ok|]. split; [reflexivity|].
  pose proof (build_outcome GraphData.build GraphData.destruct GraphData.stale
                stale_ok) as Hthm.
  cbv zeta in Hthm.
  destruct Hthm as (ok & w' & evs & Hrun & Ht & _ & _ & Hrest).
  rewrite (bool_decide_eq_false_2 (_ = _GFX_GRAPH_BUILT)) in Hrest by discriminate.
  destruct Hrest as (_ & Hevs & Hok & _ & Hst).
  exists w'. split; [|split].
  - rewrite Hrun, Hok. reflexivity.
  - rewrite Ht, Hevs. reflexivity.
  - rewrite Hst. reflexivity.
Defined.

(** C6, the theorem at the built graph of three passes, two of them on window
    0, when window 0 is recreated: the first and the last pass are rebuilt,
    the calls answer success and failure, and the state drops to
    VALIDATED. *)
Lemma rebuild_outcome_witness :
  world_ok GraphData.windows /\
  has_bits 1 GraphData.recreate = true /\
  call_results (fun b pass p => GraphData.build b pass p 1)
    (heap GraphData.windows)
    (backed_by (heap GraphData.windows) 0 (passes (graph GraphData.windows)))
    (backend GraphData.windows)
    = [true; false] /\
  exists w',
    _gfx_render_graph_rebuild GraphData.build GraphData.recreate 0 1
      GraphData.windows = Some (tt, w') /\
    trace w' =
      [PassBuild 1 1 true; PassBuild 3 1 false;
       LogWarn "Failed to rebuild %zu pass(es) of the renderer's graph." (Some 1)] /\
    state (graph w') = _GFX_GRAPH_VALIDATED.
Proof.
  split; [apply windows_ok|]. split; [reflexivity|]. split; [reflexivity|].
  pose proof (rebuild_outcome GraphData.build GraphData.recreate 0 1
                GraphData.windows windows_ok eq_refl) as Hthm.
  cbv zeta in Hthm.
  destruct Hthm as (w' & evs & Hrun & Ht & _ & _ & _ & Hrest).
  change (state_value (state (graph GraphData.windows)) <?
          state_value _GFX_GRAPH_WARMED) with false in Hrest.
  destruct Hrest as (_ & Hevs & _ & Hst).
  exists w'. split; [exact Hrun|]. split.
  - rewrite Ht, Hevs. reflexivity.
  - rewrite Hst. reflexivity.
Defined.

(** Flags without the [_GFX_RECREATE] bit violate the assertion of
    [_gfx_render_graph_rebuild]: nothing is defined for them. *)
Example rebuild_without_recreate :
  _gfx_render_graph_rebuild GraphData.build GraphData.recreate 0 0
    GraphData.windows = None.
Proof. reflexivity. Qed.

(** ** Adding passes *)

Section Adding.
Context {Backend : Type}.
Implicit Types (w : World Backend) (h : gmap N GFXPass).

Lemma parent_index_spec sink parents :
  (parent_index sink parents <? length parents)%nat = bool_decide (sink ∈ parents).
Proof.
  induction parents as [|q parents IH].
  - cbn. symmetry. apply bool_decide_eq_false_2. intros Hin. inversion Hin.
  - cbn [parent_index length]. destruct (decide (sink = q)) as [-> |Hq].
    + rewrite (bool_decide_eq_true_2 (q = q)) by reflexivity.
      symmetry. apply bool_decide_eq_true_2. now left.
    + rewrite (bool_decide_eq_false_2 (sink = q)) by assumption.
      change (S (parent_index sink parents) <? S (length parents))%nat
        with (parent_index sink parents <? length parents)%nat.
      rewrite IH. apply bool_decide_ext. rewrite elem_of_cons. tauto.
Qed.

(** The sinks loop erases, among the first [t] sinks, those that are
    parents, and keeps the rest of the vector. *)
Lemma erase_parents_spec parents t : forall vec,
  (t <= length vec)%nat ->
  erase_parents parents t vec =
  Some (filter (fun x => x ∉ parents) (take t vec) ++ drop t vec).
Proof.
  induction t as [|t IH]; intros vec Hlen.
  - cbn. now rewrite drop_0.
  - destruct (lookup_lt_is_Some_2 vec t) as [sink Hsink]; [lia|].
    cbn [erase_parents]. rewrite Hsink. cbn [mbind option_bind].
    rewrite parent_index_spec, (take_S_r _ _ _ Hsink), filter_app.
    case_bool_decide as Hin.
    + rewrite IH by (rewrite length_delete by eauto; lia).
      rewrite delete_take_drop.
      rewrite take_app_length' by (rewrite length_take; lia).
      rewrite drop_app_length' by (rewrite length_take; lia).
      rewrite (filter_cons_False _ sink []) by tauto.
      rewrite filter_nil, app_nil_r. reflexivity.
    + rewrite IH by lia.
      rewrite (filter_cons_True _ sink []) by assumption.
      rewrite filter_nil, <- app_assoc. cbn [app].
      now rewrite (drop_S _ _ _ Hsink).
Qed.

Lemma erase_parents_pushed parents old p :
  erase_parents parents (length (old ++ [p]) - 1) (old ++ [p]) =
  Some (filter (fun x => x ∉ parents) old ++ [p]).
Proof.
  rewrite length_app. cbn [length]. replace (length old + 1 - 1)%nat with (length old) by lia.
  rewrite erase_parents_spec by (rewrite length_app; lia).
  now rewrite take_app_length, drop_app_length.
Qed.

(** The level of the new pass lies above the level of every parent. *)
Lemma level_above_spec h parents : forall lvl0,
  alive h parents ->
  exists lvl, level_above h parents lvl0 = Some lvl /\ lvl0 <= lvl /\
              forall q, q ∈ parents -> level_of h q < lvl.
Proof.
  induction parents as [|q parents IH]; intros lvl0 Hal.
  - exists lvl0. split; [reflexivity|]. split; [lia|]. intros q Hq. inversion Hq.
  - apply alive_cons in Hal as [[ps Hps] Hal].
    cbn [level_above]. rewrite Hps. cbn [mbind option_bind].
    destruct (IH (if level ps >=? lvl0 then level ps + 1 else lvl0) Hal)
      as (lvl & Hrun & Hle & Hlt).
    exists lvl. split; [assumption|].
    destruct (Z.geb_spec (level ps) lvl0).
    + split; [lia|]. intros x Hx. apply elem_of_cons in Hx as [-> |Hx]; [|auto].
      unfold level_of. rewrite Hps. lia.
    + split; [lia|]. intros x Hx. apply elem_of_cons in Hx as [-> |Hx]; [|auto].
      unfold level_of. rewrite Hps. lia.
Qed.

(** The search from the right stops behind the last pass whose level is at
    most [lvl]. *)
Lemma find_loc_spec h vec lvl : forall n,
  (n <= length vec)%nat -> alive h vec ->
  exists loc,
    find_loc h vec lvl n = Some loc /\ (loc <= n)%nat /\
    (forall i q, (loc <= i < n)%nat -> vec !! i = Some q -> lvl < level_of h q) /\
    (loc = 0%nat \/ exists q, vec !! (loc - 1)%nat = Some q /\ level_of h q <= lvl).
Proof.
  induction n as [|n IH]; intros Hlen Hal.
  - exists 0%nat. split; [reflexivity|]. split; [lia|]. split; [intros; lia|now left].
  - destruct (lookup_lt_is_Some_2 vec n) as [q Hq]; [lia|].
    destruct (Hal q) as [ps Hps]; [eapply list_elem_of_lookup_2; eassumption|].
    cbn [find_loc]. rewrite Hq. cbn [mbind option_bind]. rewrite Hps.
    cbn [mbind option_bind].
    destruct (Z.leb_spec (level ps) lvl) as [Hle|Hgt].
    + exists (S n). split; [reflexivity|]. split; [lia|]. split; [intros; lia|].
      right. exists q. replace (S n - 1)%nat with n by lia.
      split; [assumption|]. unfold level_of. now rewrite Hps.
    + destruct IH as (loc & Hrun & Hloc & Habove & Hbelow); [lia|assumption|].
      exists loc. split; [assumption|]. split; [lia|]. split; [|assumption].
      intros i x Hi Hx. destruct (decide (i = n)) as [-> |Hne].
      * rewrite Hq in Hx. injection Hx as <-. unfold level_of. now rewrite Hps.
      * apply (Habove i); [lia|assumption].
Qed.

Lemma length_vec_insert vec p loc :
  length (gfx_vec_insert vec p loc) = S (length vec).
Proof.
  unfold gfx_vec_insert. rewrite length_app. cbn [length].
  rewrite length_take, length_drop. lia.
Qed.

(** A successful call, step by step. *)
Lemma add_pass_success a parents w p w' :
  gfx_renderer_add_pass a parents w = Some (Some p, w') ->
  exists lvl loc,
    malloc_pass a = Some p /\
    level_above (heap w) parents 0 = Some lvl /\
    heap w' = <[p := mkPass lvl 0 0 SIZE_MAX parents]> (heap w) /\
    find_loc (heap w') (passes (graph w)) lvl (length (passes (graph w))) = Some loc /\
    passes (graph w') = gfx_vec_insert (passes (graph w)) p loc /\
    sinks (graph w') = filter (fun x => x ∉ parents) (sinks (graph w)) ++ [p] /\
    state (graph w') =
      (if bool_decide (state (graph w) = _GFX_GRAPH_EMPTY) then _GFX_GRAPH_EMPTY
       else if (1 <? length (passes (graph w')))%nat
            then _GFX_GRAPH_INVALID else _GFX_GRAPH_EMPTY) /\
    backend w' = backend w /\ trace w' = trace w.
Proof.
  intros E.
  unfold gfx_renderer_add_pass, _gfx_create_pass, add_pass_clean, _gfx_destroy_pass in E.
  destruct (malloc_pass a) as [p0|] eqn:Em; run; [|discriminate].
  destruct (level_above (heap w) parents 0) as [lvl|] eqn:El; [|discriminate].
  destruct (push_ok a); run; [|discriminate].
  rewrite lookup_insert_eq in E.
  destruct (find_loc _ _ _ _) as [loc|] eqn:Ef; [|discriminate].
  destruct (insert_ok a); run; [|discriminate].
  rewrite erase_parents_pushed in E.
  exists lvl, loc.
  destruct (decide (state (graph w) = _GFX_GRAPH_EMPTY)) as [Hst|Hst];
    [rewrite !bool_decide_eq_true_2 in E |- * by assumption
    |rewrite !bool_decide_eq_false_2 in E |- * by assumption];
    run; injection E as <- <-; cbn [graph heap backend trace sinks passes state];
    repeat split; try reflexivity; assumption.
Qed.

(** A failed call changes neither the graph nor the memory. *)
Lemma add_pass_failure a parents w w' :
  valid_call w a parents ->
  gfx_renderer_add_pass a parents w = Some (None, w') ->
  graph w' = graph w /\ heap w' = heap w /\ backend w' = backend w.
Proof.
  intros [_ Hfresh] E.
  unfold gfx_renderer_add_pass, _gfx_create_pass, add_pass_clean, _gfx_destroy_pass in E.
  destruct (malloc_pass a) as [p0|] eqn:Em; run.
  - specialize (Hfresh p0 eq_refl).
    destruct (level_above (heap w) parents 0) as [lvl|] eqn:El; [|discriminate].
    destruct (push_ok a); run.
    + rewrite lookup_insert_eq in E.
      destruct (find_loc _ _ _ _) as [loc|] eqn:Ef; [|discriminate].
      destruct (insert_ok a); run.
      * rewrite erase_parents_pushed in E.
        destruct (decide (state (graph w) = _GFX_GRAPH_EMPTY)) as [Hst|Hst];
          [rewrite !bool_decide_eq_true_2 in E by assumption
          |rewrite !bool_decide_eq_false_2 in E by assumption];
          run; discriminate.
      * injection E as <-. cbn [graph heap backend].
        unfold gfx_vec_pop. rewrite length_app. cbn [length].
        replace (length (sinks (graph w)) + 1 - 1)%nat with (length (sinks (graph w))) by lia.
        rewrite take_app_length, delete_insert_id by assumption.
        now destruct (graph w).
    + injection E as <-. cbn [graph heap backend].
      now rewrite delete_insert_id by assumption.
  - injection E as <-. now repeat split.
Qed.

(** C4, as the code has it. After a successful [gfx_renderer_add_pass] the
    state is EMPTY if it was EMPTY before the call, whatever the number of
    passes; from any other state, the initial BUILT of a fresh renderer
    included, it is INVALID if the graph held a pass before the call and
    EMPTY if it held none. *)
Theorem add_pass_state (a : Alloc) (parents : list N) (w w' : World Backend) (p : N) :
  gfx_renderer_add_pass a parents w = Some (Some p, w') ->
  state (graph w') =
    if bool_decide (state (graph w) = _GFX_GRAPH_EMPTY) then _GFX_GRAPH_EMPTY
    else if bool_decide (passes (graph w) = []) then _GFX_GRAPH_EMPTY
    else _GFX_GRAPH_INVALID.
Proof.
  intros E. apply add_pass_success in E
    as (lvl & loc & _ & _ & _ & _ & Hp & _ & Hst & _).
  rewrite Hst, Hp, length_vec_insert.
  case_bool_decide; [reflexivity|].
  destruct (passes (graph w)) as [|q l]; [reflexivity|].
  rewrite (bool_decide_eq_false_2 (q :: l = [])) by discriminate. reflexivity.
Qed.

(** *** The invariant of adding *)

Lemma elem_of_vec_insert (vec : list N) p loc x :
  x ∈ gfx_vec_insert vec p loc <-> x = p \/ x ∈ vec.
Proof.
  unfold gfx_vec_insert. rewrite <- (take_drop loc vec) at 3.
  rewrite !elem_of_app, elem_of_cons. tauto.
Qed.

Lemma sorted_lookup {A} (R : relation A) (l : list A) : forall i j x y,
  StronglySorted R l -> (i < j)%nat ->
  l !! i = Some x -> l !! j = Some y -> R x y.
Proof.
  induction l as [|a l IH]; intros i j x y Hs Hij Hi Hj; [discriminate|].
  apply StronglySorted_cons in Hs as [Hall Hs].
  destruct j as [|j]; [lia|]. cbn in Hj.
  destruct i as [|i].
  - cbn in Hi. injection Hi as ->. rewrite Forall_forall in Hall.
    apply Hall. eapply list_elem_of_lookup_2. eassumption.
  - cbn in Hi. apply (IH i j); [assumption|lia|assumption|assumption].
Qed.

Lemma sorted_ext {A} (R R' : relation A) (l : list A) :
  StronglySorted R l ->
  (forall x y, x ∈ l -> y ∈ l -> R x y -> R' x y) ->
  StronglySorted R' l.
Proof.
  induction 1 as [|a l Hs IH Hall]; intros Hext; [constructor|].
  constructor.
  - apply IH. intros x y Hx Hy. apply Hext; now right.
  - rewrite Forall_forall in *. intros y Hy. apply Hext; [now left| |auto].
    now right.
Qed.

Lemma level_of_insert_ne h p ps q :
  q <> p -> level_of (<[p := ps]> h) q = level_of h q.
Proof. intros Hne. unfold level_of. now rewrite lookup_insert_ne by auto. Qed.

Lemma level_of_insert_eq h p ps : level_of (<[p := ps]> h) p = level ps.
Proof. unfold level_of. now rewrite lookup_insert_eq. Qed.

Lemma graph_inv_ext w w' :
  graph w' = graph w -> heap w' = heap w -> graph_inv w -> graph_inv w'.
Proof.
  intros Hg Hh. unfold graph_inv, sink_closure. now rewrite Hg, Hh.
Qed.

Lemma init_inv w w0 : _gfx_render_graph_init w = Some (tt, w0) -> graph_inv w0.
Proof.
  intros E. unfold _gfx_render_graph_init in E. run. injection E as <-.
  split; [|split; [|split]]; cbn [graph heap passes sinks].
  - intros p Hp. inversion Hp.
  - intros p ps q Hp. inversion Hp.
  - constructor.
  - intros x. split; [intros Hx; inversion Hx|intros [Hx _]; inversion Hx].
Qed.

(** The shape of the pass vector after a successful call from a graph that
    satisfies the invariant: the new pass stands behind the passes of its
    level or below and before those of a higher level, and its level lies
    above the levels of its parents. *)
Lemma add_pass_position a parents w p w' :
  graph_inv w -> valid_call w a parents ->
  gfx_renderer_add_pass a parents w = Some (Some p, w') ->
  exists loc lvl,
    heap w !! p = None /\
    level_above (heap w) parents 0 = Some lvl /\
    heap w' = <[p := mkPass lvl 0 0 SIZE_MAX parents]> (heap w) /\
    passes (graph w') =
      take loc (passes (graph w)) ++ p :: drop loc (passes (graph w)) /\
    sinks (graph w') = filter (fun x => x ∉ parents) (sinks (graph w)) ++ [p] /\
    (forall q, q ∈ parents -> level_of (heap w) q < lvl) /\
    Forall (fun q => level_of (heap w') q <= lvl) (take loc (passes (graph w))) /\
    Forall (fun q => lvl < level_of (heap w') q) (drop loc (passes (graph w))).
Proof.
  intros (Hal & Hpar & Hsorted & Hsinks) [Hin Hfresh] E.
  apply add_pass_success in E
    as (lvl & loc & Hm & Hlvl & Hh & Hloc & Hp & Hs & _).
  specialize (Hfresh p Hm).
  assert (Hnew : p ∉ passes (graph w)).
  { intros Hp'. destruct (Hal p Hp') as [x Hx]. congruence. }
  destruct (level_above_spec (heap w) parents 0) as (lvl' & Hlvl' & _ & Habove).
  { intros q Hq. apply Hal. now apply Hin. }
  assert (lvl' = lvl) as -> by congruence.
  destruct (find_loc_spec (heap w') (passes (graph w)) lvl (length (passes (graph w))))
    as (loc' & Hloc' & Hle & Hright & Hleft); [lia| |].
  { rewrite Hh. now apply alive_insert. }
  assert (loc' = loc) as -> by congruence.
  exists loc, lvl. repeat split; try assumption.
  - (* the passes before the position *)
    rewrite Forall_forall. intros x Hx.
    apply elem_of_take in Hx as (i & Hi & Hlt).
    destruct Hleft as [-> |(q & Hq & Hql)]; [lia|].
    destruct (decide (i = loc - 1)%nat) as [-> |Hne]; [congruence|].
    assert (Hxq : level_of (heap w) x <= level_of (heap w) q).
    { apply (sorted_lookup _ _ i (loc - 1)%nat x q Hsorted); [lia|assumption|assumption]. }
    rewrite Hh in Hql |- *.
    rewrite level_of_insert_ne in Hql |- *; [lia| |].
    + intros ->. apply Hnew. eapply list_elem_of_lookup_2. eassumption.
    + intros ->. apply Hnew. eapply list_elem_of_lookup_2. eassumption.
  - (* the passes from the position on *)
    rewrite Forall_forall. intros x Hx.
    apply list_elem_of_lookup_1 in Hx as (i & Hi).
    rewrite lookup_drop in Hi.
    apply (Hright (loc + i)%nat); [|assumption].
    apply lookup_lt_Some in Hi. lia.
Qed.

Lemma add_pass_preserves a parents w res w' :
  graph_inv w -> valid_call w a parents ->
  gfx_renderer_add_pass a parents w = Some (res, w') -> graph_inv w'.
Proof.
  intros Hinv Hvalid E. destruct res as [p|].
  2: { destruct (add_pass_failure _ _ _ _ Hvalid E) as (Hg & Hh & _).
       now apply (graph_inv_ext w). }
  destruct (add_pass_position _ _ _ _ _ Hinv Hvalid E)
    as (loc & lvl & Hfresh & Hlvl & Hh & Hp & Hs & Habove & Hleft & Hright).
  destruct Hinv as (Hal & Hpar & Hsorted & Hsinks). destruct Hvalid as [Hin _].
  set (ps := passes (graph w)) in *.
  assert (Hnew : p ∉ ps).
  { intros Hp'. destruct (Hal p Hp') as [x Hx]. congruence. }
  assert (Hmem : forall x, x ∈ passes (graph w') <-> x = p \/ x ∈ ps).
  { intros x. rewrite Hp. apply elem_of_vec_insert. }
  assert (Hold : forall x, x ∈ ps -> heap w' !! x = heap w !! x).
  { intros x Hx. rewrite Hh. apply lookup_insert_ne. congruence. }
  assert (Hlev : forall x, x ∈ ps -> level_of (heap w') x = level_of (heap w) x).
  { intros x Hx. unfold level_of. now rewrite Hold. }
  assert (Hnewp : heap w' !! p = Some (mkPass lvl 0 0 SIZE_MAX parents)).
  { rewrite Hh. apply lookup_insert_eq. }
  split; [|split; [|split]].
  - (* in memory *)
    intros x Hx. apply Hmem in Hx as [-> |Hx]; [eauto|].
    rewrite Hold by assumption. now apply Hal.
  - (* parents *)
    intros x xs q Hx Hxs Hq. apply Hmem in Hx as [-> |Hx].
    + rewrite Hnewp in Hxs. injection Hxs as <-. cbn [Graph.parents Graph.level] in *.
      split; [apply Hmem; right; now apply Hin|].
      rewrite Hlev by now apply Hin. now apply Habove.
    + rewrite Hold in Hxs by assumption.
      destruct (Hpar x xs q Hx Hxs Hq) as [Hqin Hql].
      split; [apply Hmem; now right|]. now rewrite Hlev.
  - (* sorted *)
    rewrite Hp. apply StronglySorted_app_2.
    + intros x1 x2 Hx1 Hx2. rewrite Forall_forall in Hleft, Hright.
      apply elem_of_cons in Hx2 as [-> |Hx2].
      * unfold level_of at 2. rewrite Hnewp. cbn [level]. now apply Hleft.
      * specialize (Hleft x1 Hx1). specialize (Hright x2 Hx2). lia.
    + apply (sorted_ext (fun x y => level_of (heap w) x <= level_of (heap w) y)).
      * rewrite <- (take_drop loc ps) in Hsorted.
        now apply StronglySorted_app_1_l in Hsorted.
      * intros x y Hx%elem_of_take Hy%elem_of_take.
        destruct Hx as (i & Hi & _), Hy as (i' & Hi' & _).
        rewrite !Hlev by (eapply list_elem_of_lookup_2; eassumption). auto.
    + apply StronglySorted_cons. split.
      * rewrite Forall_forall in *. intros y Hy. specialize (Hright y Hy).
        unfold level_of at 1. rewrite Hnewp. cbn [level]. lia.
      * apply (sorted_ext (fun x y => level_of (heap w) x <= level_of (heap w) y)).
        -- rewrite <- (take_drop loc ps) in Hsorted.
           now apply StronglySorted_app_1_r in Hsorted.
        -- intros x y Hx Hy.
           assert (x ∈ ps) by (rewrite <- (take_drop loc ps), elem_of_app; now right).
           assert (y ∈ ps) by (rewrite <- (take_drop loc ps), elem_of_app; now right).
           now rewrite !Hlev.
  - (* sinks *)
    intros x. rewrite Hs, elem_of_app, list_elem_of_filter, list_elem_of_singleton.
    rewrite (Hsinks x). fold ps. split.
    + intros [(Hxp & Hx & Hchild)| ->].
      * split; [apply Hmem; now right|].
        intros y ys Hy Hys. apply Hmem in Hy as [-> |Hy].
        -- rewrite Hnewp in Hys. now injection Hys as <-.
        -- rewrite Hold in Hys by assumption. now apply (Hchild y).
      * split; [apply Hmem; now left|].
        intros y ys Hy Hys Hc. apply Hmem in Hy as [-> |Hy].
        -- rewrite Hnewp in Hys. injection Hys as <-. cbn [Graph.parents] in Hc.
           apply Hnew. now apply Hin.
        -- rewrite Hold in Hys by assumption.
           apply Hnew. now apply (Hpar y ys p).
    + intros [Hx Hchild]. apply Hmem in Hx as [-> |Hx]; [now right|]. left.
      split; [|split; [assumption|]].
      * apply (Hchild p _ (proj2 (Hmem p) (or_introl eq_refl)) Hnewp).
      * intros y ys Hy Hys. apply (Hchild y); [apply Hmem; now right|].
        now rewrite Hold.
Qed.

Lemma added_inv w : added w -> graph_inv w.
Proof.
  induction 1 as [w w0 E|w a parents res w' _ IH Hvalid E].
  - now apply (init_inv w).
  - now apply (add_pass_preserves a parents w res).
Qed.

Lemma inv_topological w : graph_inv w -> topological w.
Proof.
  intros (Hal & Hpar & Hsorted & _) j p ps q Hj Hp Hq.
  assert (Hpin : p ∈ passes (graph w)) by (eapply list_elem_of_lookup_2; eassumption).
  destruct (Hpar p ps q Hpin Hp Hq) as [Hqin Hlt].
  destruct (list_elem_of_lookup_1 _ _ Hqin) as [i Hi].
  destruct (Hal q Hqin) as [qs Hqs].
  assert (Hq' : level_of (heap w) q = level qs) by (unfold level_of; now rewrite Hqs).
  assert (Hp' : level_of (heap w) p = level ps) by (unfold level_of; now rewrite Hp).
  exists i, qs. split; [|split; [assumption|split; [assumption|lia]]].
  destruct (Nat.lt_trichotomy i j) as [Hij|[-> |Hij]]; [assumption| |].
  - assert (q = p) as -> by congruence. lia.
  - pose proof (sorted_lookup _ _ j i p q Hsorted Hij Hj Hi) as Hle.
    cbv beta in Hle. lia.
Qed.

(** C3. In a graph built by adding passes, every parent of a pass of the
    vector stands at a strictly smaller index and has a strictly smaller
    level. A further successful call gives the new pass the level above its
    parents (0 without parents) and inserts it at the rightmost position
    among the passes of its level or below: every pass before it has at
    most its level, every pass behind it a higher one. *)
Theorem add_pass_order (w : World Backend) :
  added w ->
  topological w /\
  forall (a : Alloc) (parents : list N) (p : N) (w' : World Backend),
    valid_call w a parents ->
    gfx_renderer_add_pass a parents w = Some (Some p, w') ->
    topological w' /\
    exists loc lvl,
      level_above (heap w) parents 0 = Some lvl /\
      level_of (heap w') p = lvl /\
      (parents = [] -> lvl = 0) /\
      (forall q, q ∈ parents -> level_of (heap w) q < lvl) /\
      passes (graph w') =
        take loc (passes (graph w)) ++ p :: drop loc (passes (graph w)) /\
      Forall (fun q => level_of (heap w') q <= lvl) (take loc (passes (graph w))) /\
      Forall (fun q => lvl < level_of (heap w') q) (drop loc (passes (graph w))).
Proof.
  intros Hadded. pose proof (added_inv _ Hadded) as Hinv.
  split; [now apply inv_topological|].
  intros a parents p w' Hvalid E. split.
  - apply inv_topological. now apply (add_pass_preserves a parents w (Some p)).
  - destruct (add_pass_position _ _ _ _ _ Hinv Hvalid E)
      as (loc & lvl & Hfresh & Hlvl & Hh & Hp & Hs & Habove & Hleft & Hright).
    exists loc, lvl. repeat split; try assumption.
    + rewrite Hh. apply level_of_insert_eq.
    + intros ->. cbn in Hlvl. congruence.
Qed.

End Adding.

(** ** The graphs that the functions of graph.c reach *)

Section Reaching.
Context {Backend : Type}.
Variable warmup : Backend -> N -> GFXPass -> bool * GFXPass * Backend.
Variable build : Backend -> N -> GFXPass -> Z -> bool * GFXPass * Backend.
Variable destruct : Backend -> N -> GFXPass -> GFXPass * Backend.
Variable recreate : Z.
Implicit Types (w : World Backend).

(** The pass module, which is not part of these sources, builds, warms up
    and destructs a pass where it stands: [level] and [parents] are set
    when the pass is created and stay as they are. *)
Hypothesis warmup_links : forall b pass p, links (warmup b pass p).1.2 = links p.
Hypothesis build_links :
  forall b pass p flags, links (build b pass p flags).1.2 = links p.
Hypothesis destruct_links : forall b pass p, links (destruct b pass p).1 = links p.

Lemma same_links_refl w : same_links w w.
Proof. now repeat split. Qed.

Lemma same_links_trans w1 w2 w3 :
  same_links w1 w2 -> same_links w2 w3 -> same_links w1 w3.
Proof.
  intros (Hp & Hs & Hh) (Hp' & Hs' & Hh'). split; [|split].
  - now rewrite Hp'.
  - now rewrite Hs'.
  - intros p. now rewrite Hh'.
Qed.

Lemma same_links_insert w w' pass p p' :
  graph w' = graph w -> heap w' = <[pass := p']> (heap w) ->
  heap w !! pass = Some p -> links p' = links p -> same_links w w'.
Proof.
  intros Hg Hh Hp Hl. split; [|split]; try now rewrite Hg.
  intros q. rewrite Hh. destruct (decide (q = pass)) as [-> |Hq].
  - rewrite lookup_insert_eq, Hp. cbn. now rewrite Hl.
  - now rewrite lookup_insert_ne by auto.
Qed.

Lemma keeps_ret {A} (a : A) : keeps_links (ret (Backend := Backend) a).
Proof. intros w a' w' [= _ <-]. apply same_links_refl. Qed.

Lemma keeps_bind {A B} (c : M Backend A) (k : A -> M Backend B) :
  keeps_links c -> (forall a, keeps_links (k a)) -> keeps_links (bind k c).
Proof.
  intros Hc Hk w b w' E. run. destruct (c w) as [[a w1]|] eqn:Ec; [|discriminate].
  apply (same_links_trans w w1 w'); [now apply (Hc w a)|now apply (Hk a w1 b)].
Qed.

Lemma keeps_get_graph : keeps_links (get_graph (Backend := Backend)).
Proof. intros w a w' E. run. injection E as _ <-. apply same_links_refl. Qed.

Lemma keeps_set_state st : keeps_links (set_state (Backend := Backend) st).
Proof. intros w a w' E. run. injection E as _ <-. now repeat split. Qed.

Lemma keeps_emit e : keeps_links (emit (Backend := Backend) e).
Proof. intros w a w' E. run. injection E as _ <-. now repeat split. Qed.

Lemma keeps_load pass : keeps_links (load (Backend := Backend) pass).
Proof.
  intros w a w' E. run. destruct (heap w !! pass); [|discriminate].
  injection E as _ <-. apply same_links_refl.
Qed.

Lemma keeps_pass_destruct pass : keeps_links (pass_destruct destruct pass).
Proof using destruct_links.
  intros w a w' E. unfold pass_destruct in E.
  destruct (heap w !! pass) as [p|] eqn:Ep; [|discriminate].
  pose proof (destruct_links (backend w) pass p) as Hl.
  destruct (destruct (backend w) pass p) as [p' b']. injection E as _ <-.
  now apply (same_links_insert _ _ pass p p').
Qed.

Lemma keeps_pass_warmup pass : keeps_links (pass_warmup warmup pass).
Proof using warmup_links.
  intros w a w' E. unfold pass_warmup in E.
  destruct (heap w !! pass) as [p|] eqn:Ep; [|discriminate].
  pose proof (warmup_links (backend w) pass p) as Hl.
  destruct (warmup (backend w) pass p) as [[ok p'] b']. injection E as _ <-.
  now apply (same_links_insert _ _ pass p p').
Qed.

Lemma keeps_pass_build pass flags : keeps_links (pass_build build pass flags).
Proof using build_links.
  intros w a w' E. unfold pass_build in E.
  destruct (heap w !! pass) as [p|] eqn:Ep; [|discriminate].
  pose proof (build_links (backend w) pass p flags) as Hl.
  destruct (build (backend w) pass p flags) as [[ok p'] b']. injection E as _ <-.
  now apply (same_links_insert _ _ pass p p').
Qed.

(** [pass->order = (unsigned int)i] *)
Lemma keeps_set_order {A} pass o (a : A) :
  keeps_links
    (bind (fun p => bind (fun _ => ret a) (store pass (set_order o p)))
       (load (Backend := Backend) pass)).
Proof.
  intros w a' w' E. run.
  destruct (heap w !! pass) as [p|] eqn:Ep; [|discriminate]. injection E as _ <-.
  now apply (same_links_insert _ _ pass p (set_order o p)).
Qed.

Lemma keeps_for_passes (body : nat -> N -> Z -> M Backend Z) :
  (forall i pass failed, keeps_links (body i pass failed)) ->
  forall vec i failed, keeps_links (for_passes body i vec failed).
Proof.
  intros Hbody. induction vec as [|pass vec IH]; intros i failed.
  - apply keeps_ret.
  - cbn [for_passes]. apply keeps_bind; [apply Hbody|]. intros failed'. apply IH.
Qed.

(** Takes a computation apart down to the calls into the pass module. *)
Ltac keep :=
  repeat first
    [ apply keeps_ret | apply keeps_get_graph | apply keeps_set_state
    | apply keeps_emit | apply keeps_load
    | apply keeps_pass_destruct | apply keeps_pass_warmup
    | apply keeps_pass_build | apply keeps_set_order
    | apply keeps_for_passes; intros ? ? ?
    | apply keeps_bind; [|intros ?]
    | match goal with |- keeps_links (if ?b then _ else _) => destruct b end ].

Lemma keeps_warmup : keeps_links (_gfx_render_graph_warmup warmup destruct).
Proof using warmup_links destruct_links.
  unfold _gfx_render_graph_warmup, warmup_step. keep.
Qed.

Lemma keeps_build : keeps_links (_gfx_render_graph_build build destruct).
Proof using build_links destruct_links.
  unfold _gfx_render_graph_build, build_step. keep.
Qed.

Lemma keeps_rebuild index flags :
  keeps_links (_gfx_render_graph_rebuild build recreate index flags).
Proof using build_links.
  unfold _gfx_render_graph_rebuild.
  destruct (negb (has_bits flags recreate)); [intros w a w' E; discriminate|].
  unfold rebuild_step. keep.
Qed.

Lemma keeps_destruct index :
  keeps_links (_gfx_render_graph_destruct destruct index).
Proof using destruct_links.
  unfold _gfx_render_graph_destruct, destruct_step. keep.
Qed.

Lemma keeps_invalidate :
  keeps_links (_gfx_render_graph_invalidate (Backend := Backend)).
Proof. unfold _gfx_render_graph_invalidate. keep. Qed.

Lemma same_links_lookup w w' p ps' :
  same_links w w' -> heap w' !! p = Some ps' ->
  exists ps, heap w !! p = Some ps /\ level ps = level ps' /\ parents ps = parents ps'.
Proof.
  intros (_ & _ & Hh) Hp. specialize (Hh p). rewrite Hp in Hh.
  destruct (heap w !! p) as [ps|]; [|discriminate].
  exists ps. cbn in Hh. unfold links in Hh. injection Hh as Hl Hq. now repeat split.
Qed.

Lemma same_links_level w w' q :
  same_links w w' -> level_of (heap w') q = level_of (heap w) q.
Proof.
  intros (_ & _ & Hh). specialize (Hh q). unfold level_of.
  destruct (heap w' !! q), (heap w !! q); try discriminate; [|reflexivity].
  cbn in Hh. unfold links in Hh. now injection Hh as Hl _.
Qed.

(** The invariant of adding speaks of memory through levels and parents
    only. *)
Lemma same_links_inv w w' : same_links w w' -> graph_inv w -> graph_inv w'.
Proof.
  intros Hsame (Hal & Hpar & Hsorted & Hclosed).
  pose proof Hsame as (Hp & Hs & Hh).
  split; [|split; [|split]].
  - intros p Hin. rewrite Hp in Hin. destruct (Hal p Hin) as [ps Hps].
    specialize (Hh p). rewrite Hps in Hh.
    destruct (heap w' !! p); [eauto|discriminate].
  - intros p ps' q Hin Hps' Hq. rewrite Hp in *.
    destruct (same_links_lookup _ _ _ _ Hsame Hps') as (ps & Hps & Hl & Hq').
    rewrite <- Hq' in Hq. destruct (Hpar p ps q Hin Hps Hq) as [Hqin Hlt].
    split; [assumption|]. rewrite (same_links_level _ _ q Hsame). lia.
  - rewrite Hp. clear -Hsorted Hsame.
    induction Hsorted as [|x l _ IH Hall]; constructor; [assumption|].
    eapply Forall_impl; [exact Hall|]. intros y Hy. cbv beta in *.
    now rewrite !(same_links_level _ _ _ Hsame).
  - intros x. rewrite Hs, Hp, (Hclosed x). split; intros [Hx Hno]; (split; [assumption|]).
    + intros y ps' Hy Hps'.
      destruct (same_links_lookup _ _ _ _ Hsame Hps') as (ps & Hps & _ & Hq).
      rewrite <- Hq. now apply (Hno y).
    + intros y ps Hy Hps. specialize (Hh y). rewrite Hps in Hh.
      destruct (heap w' !! y) as [ps'|] eqn:Hps'; [|discriminate].
      cbn in Hh. unfold links in Hh. injection Hh as _ Hq.
      rewrite <- Hq. now apply (Hno y).
Qed.

Lemma destroy_passes_graph vec i : forall w w',
  destroy_passes vec i w = Some (tt, w') -> graph w' = graph w.
Proof.
  induction i as [|i IH]; intros w w' E; cbn [destroy_passes] in E.
  - run. now injection E as <-.
  - destruct (vec !! i) as [pass|]; [|discriminate].
    unfold _gfx_destroy_pass in E. run. now apply IH in E.
Qed.

Lemma clear_inv w w' :
  _gfx_render_graph_clear w = Some (tt, w') -> graph_inv w'.
Proof.
  intros E. unfold _gfx_render_graph_clear in E. run.
  destruct (destroy_passes _ _ w) as [[[] w1]|] eqn:E1; [|discriminate].
  injection E as <-.
  split; [|split; [|split]]; cbn [graph heap passes sinks].
  - intros p Hp. inversion Hp.
  - intros p ps q Hp. inversion Hp.
  - constructor.
  - intros x. split; [intros Hx; inversion Hx|intros [Hx _]; inversion Hx].
Qed.

(** Every graph that the functions of [graph.c] reach satisfies the
    invariant of adding. *)
Lemma reachable_inv w : reachable warmup build destruct recreate w -> graph_inv w.
Proof using warmup_links build_links destruct_links.
  induction 1 as [w w0 E|w a parents res w' _ IH Hvalid E|w ok w' _ IH E
                 |w ok w' _ IH E|w index flags w' _ IH E|w index w' _ IH E
                 |w w' _ IH E|w w' _ IH E].
  - now apply (init_inv w).
  - now apply (add_pass_preserves a parents w res).
  - exact (same_links_inv _ _ (keeps_warmup _ _ _ E) IH).
  - exact (same_links_inv _ _ (keeps_build _ _ _ E) IH).
  - exact (same_links_inv _ _ (keeps_rebuild _ _ _ _ _ E) IH).
  - exact (same_links_inv _ _ (keeps_destruct _ _ _ _ E) IH).
  - exact (same_links_inv _ _ (keeps_invalidate _ _ _ E) IH).
  - now apply (clear_inv w).
Qed.

Lemma added_reachable w : added w -> reachable warmup build destruct recreate w.
Proof.
  induction 1 as [w w0 E|w a parents res w' _ IH Hvalid E].
  - now apply (reach_init _ _ _ _ w).
  - now apply (reach_add_pass _ _ _ _ w a parents res).
Qed.

(** C2. Take any graph that the functions of [graph.c] reach from a
    freshly initialized one: passes are added, and the graph is warmed up,
    built, rebuilt, destructed, invalidated and cleared, in any order and
    with any outcome, by a pass module that leaves the level and the
    parents of a pass as they are. After every successful
    [gfx_renderer_add_pass] on such a graph the sinks are exactly the
    passes of the vector that no pass of the vector lists as a parent: the
    sink vector is the old one without the parents of the new pass, with
    the new pass pushed at its end. *)
Theorem add_pass_sinks (a : Alloc) (parents : list N) (w w' : World Backend) (p : N) :
  reachable warmup build destruct recreate w ->
  valid_call w a parents ->
  gfx_renderer_add_pass a parents w = Some (Some p, w') ->
  sink_closure w' /\
  sinks (graph w') = filter (fun x => x ∉ parents) (sinks (graph w)) ++ [p].
Proof using warmup_links build_links destruct_links.
  intros Hreach Hvalid E. pose proof (reachable_inv _ Hreach) as Hinv. split.
  - now destruct (add_pass_preserves _ _ _ _ _ Hinv Hvalid E) as (_ & _ & _ & Hs).
  - now destruct (add_pass_position _ _ _ _ _ Hinv Hvalid E)
      as (loc & lvl & _ & _ & _ & _ & Hs & _).
Qed.

End Reaching.

(** ** The diamond *)

(** Closes a decidable goal on concrete data by running its decision
    procedure. *)
Ltac by_decision :=
  match goal with |- ?P => refine (@bool_decide_unpack P _ I) end.

Lemma valid_first : valid_call GraphData.fresh (GraphData.at_address 1) [].
Proof.
  split.
  - intros q Hq. inversion Hq.
  - intros p [= <-]. reflexivity.
Defined.

Lemma valid_second : valid_call GraphData.one (GraphData.at_address 2) [1%N].
Proof.
  split.
  - intros q Hq. apply list_elem_of_singleton in Hq. subst q.
    change (1%N ∈ [1%N]). by_decision.
  - intros p [= <-]. reflexivity.
Defined.

Lemma valid_third : valid_call GraphData.two (GraphData.at_address 3) [1%N].
Proof.
  split.
  - intros q Hq. apply list_elem_of_singleton in Hq. subst q.
    change (1%N ∈ [1%N; 2%N]). by_decision.
  - intros p [= <-]. reflexivity.
Defined.

Lemma valid_fourth : valid_call GraphData.three (GraphData.at_address 4) [2%N; 3%N].
Proof.
  split.
  - intros q Hq. apply elem_of_cons in Hq as [-> |Hq].
    + change (2%N ∈ [1%N; 2%N; 3%N]). by_decision.
    + apply list_elem_of_singleton in Hq. subst q.
      change (3%N ∈ [1%N; 2%N; 3%N]). by_decision.
  - intros p [= <-]. reflexivity.
Defined.

Lemma added_one : added GraphData.one.
Proof.
  apply (added_pass GraphData.fresh (GraphData.at_address 1) [] (Some 1%N)).
  - apply (added_init GraphData.blank). reflexivity.
  - apply valid_first.
  - reflexivity.
Defined.

Lemma added_three : added GraphData.three.
Proof.
  apply (added_pass GraphData.two (GraphData.at_address 3) [1%N] (Some 3%N)).
  - apply (added_pass GraphData.one (GraphData.at_address 2) [1%N] (Some 2%N)).
    + apply added_one.
    + apply valid_second.
    + reflexivity.
  - apply valid_third.
  - reflexivity.
Defined.

(** The scenario of the spec: A, then B and C on A, then D on B and C give
    the pass vector A, B, C, D with the levels 0, 1, 1, 2 and the single
    sink D. *)
Example diamond_graph :
  passes (graph GraphData.diamond) = [1%N; 2%N; 3%N; 4%N] /\
  map (level_of (heap GraphData.diamond)) (passes (graph GraphData.diamond))
    = [0; 1; 1; 2] /\
  sinks (graph GraphData.diamond) = [4%N].
Proof. repeat split; vm_compute; reflexivity. Qed.

Lemma valid_regrown : valid_call GraphData.built (GraphData.at_address 4) [2%N; 3%N].
Proof.
  split.
  - intros q Hq. apply elem_of_cons in Hq as [-> |Hq].
    + change (2%N ∈ [1%N; 2%N; 3%N]). by_decision.
    + apply list_elem_of_singleton in Hq. subst q.
      change (3%N ∈ [1%N; 2%N; 3%N]). by_decision.
  - intros p [= <-]. reflexivity.
Defined.

Lemma reachable_built :
  reachable GraphData.warmup GraphData.build GraphData.destruct GraphData.recreate
    GraphData.built.
Proof.
  apply (reach_build _ _ _ _ GraphData.three true); [|reflexivity].
  apply added_reachable, added_three.
Defined.

(** C2, the theorem at a graph that has been built: A, then B and C on A,
    are added and the graph is built, which purges and builds the three
    passes and leaves the state BUILT; then D is added on B and C. The
    sinks B and C give way to the single sink D. *)
Lemma add_pass_sinks_witness :
  reachable GraphData.warmup GraphData.build GraphData.destruct GraphData.recreate
    GraphData.built /\
  state (graph GraphData.built) = _GFX_GRAPH_BUILT /\
  sinks (graph GraphData.built) = [2%N; 3%N] /\
  valid_call GraphData.built (GraphData.at_address 4) [2%N; 3%N] /\
  gfx_renderer_add_pass (GraphData.at_address 4) [2%N; 3%N] GraphData.built
    = Some (Some 4%N, GraphData.grown) /\
  sink_closure GraphData.grown /\
  sinks (graph GraphData.grown) =
    filter (fun x => x ∉ [2%N; 3%N]) (sinks (graph GraphData.built)) ++ [4%N] /\
  sinks (graph GraphData.grown) = [4%N].
Proof.
  split; [apply reachable_built|]. split; [reflexivity|]. split; [reflexivity|].
  split; [apply valid_regrown|]. split; [reflexivity|].
  split; [|split; [|reflexivity]];
    apply (add_pass_sinks GraphData.warmup GraphData.build GraphData.destruct
             GraphData.recreate (fun _ _ _ => eq_refl) (fun _ _ _ _ => eq_refl)
             (fun _ _ _ => eq_refl)
             (GraphData.at_address 4) [2%N; 3%N] GraphData.built
             GraphData.grown 4%N reachable_built valid_regrown eq_refl).
Defined.

(** C3, the theorem at the graph of A, B and C, and at the call that adds D. *)
Lemma add_pass_order_witness :
  added GraphData.three /\
  topological GraphData.three /\
  valid_call GraphData.three (GraphData.at_address 4) [2%N; 3%N] /\
  gfx_renderer_add_pass (GraphData.at_address 4) [2%N; 3%N] GraphData.three
    = Some (Some 4%N, GraphData.diamond) /\
  topological GraphData.diamond /\
  exists loc lvl,
    level_of (heap GraphData.diamond) 4%N = lvl /\
    passes (graph GraphData.diamond) =
      take loc (passes (graph GraphData.three)) ++
      4%N :: drop loc (passes (graph GraphData.three)) /\
    Forall (fun q => level_of (heap GraphData.diamond) q <= lvl)
      (take loc (passes (graph GraphData.three))) /\
    Forall (fun q => lvl < level_of (heap GraphData.diamond) q)
      (drop loc (passes (graph GraphData.three))).
Proof.
  split; [apply added_three|].
  destruct (add_pass_order GraphData.three added_three) as [Htopo Hnext].
  split; [exact Htopo|]. split; [apply valid_fourth|]. split; [reflexivity|].
  destruct (Hnext (GraphData.at_address 4) [2%N; 3%N] 4%N GraphData.diamond
              valid_fourth eq_refl)
    as (Htopo' & loc & lvl & _ & Hlvl & _ & _ & Hp & Hleft & Hright).
  split; [exact Htopo'|].
  exists loc, lvl. split; [exact Hlvl|]. split; [exact Hp|].
  split; [exact Hleft|exact Hright].
Defined.

(** C4, against the claim: the second pass added to a fresh renderer finds
    one pass in the graph, and the state after the call is EMPTY and not
    INVALID, because the first call left the state EMPTY. *)
Lemma add_second_pass_stays_empty :
  gfx_renderer_add_pass (GraphData.at_address 1) [] GraphData.fresh
    = Some (Some 1%N, GraphData.one) /\
  passes (graph GraphData.one) = [1%N] /\
  state (graph GraphData.one) = _GFX_GRAPH_EMPTY /\
  gfx_renderer_add_pass (GraphData.at_address 2) [1%N] GraphData.one
    = Some (Some 2%N, GraphData.two) /\
  state (graph GraphData.two) = _GFX_GRAPH_EMPTY /\
  state (graph GraphData.two) <> _GFX_GRAPH_INVALID.
Proof.
  repeat split; try (vm_compute; reflexivity). vm_compute. discriminate.
Qed.

(** C4, the theorem at the first and at the second call on a fresh renderer. *)
Lemma add_pass_state_witness :
  gfx_renderer_add_pass (GraphData.at_address 1) [] GraphData.fresh
    = Some (Some 1%N, GraphData.one) /\
  state (graph GraphData.one) = _GFX_GRAPH_EMPTY /\
  state (graph GraphData.two) = _GFX_GRAPH_EMPTY.
Proof.
  split; [reflexivity|]. split.
  - exact (add_pass_state (GraphData.at_address 1) [] GraphData.fresh
             GraphData.one 1%N eq_refl).
  - exact (add_pass_state (GraphData.at_address 2) [1%N] GraphData.one
             GraphData.two 2%N eq_refl).
Defined.

End GraphSpec.

(* ===================================================================== *)
(** * Further properties of the render graph *)
(* ===================================================================== *)

Module GraphMore.
Import Graph GraphSpec.
Local Open Scope Z_scope.

Section Passes.
Context {Backend : Type}.
Variable warmup : Backend -> N -> GFXPass -> bool * GFXPass * Backend.
Variable build : Backend -> N -> GFXPass -> Z -> bool * GFXPass * Backend.
Variable destruct : Backend -> N -> GFXPass -> GFXPass * Backend.

(** *** Warming up *)

Lemma warmup_step_run i p failed (w : World Backend) ps :
  heap w !! p = Some ps ->
  let r := warmup (backend w) p ps in
  warmup_step warmup i p failed w =
  Some (count_failure failed r.1.1,
        mkWorld Backend (graph w) (<[p := r.1.2]> (heap w)) r.2
          (trace w ++ [PassWarmup p r.1.1])).
Proof.
  intros Hps r. unfold warmup_step, pass_warmup. run. rewrite Hps. subst r.
  now destruct (warmup (backend w) p ps) as [[ok ps'] b'].
Qed.

(** The warmup loop records, for each pass, what [_gfx_pass_warmup]
    answers when it is given the pass as it was before the loop. *)
Lemma warmup_loop_results vec : forall i failed (w : World Backend),
  NoDup vec -> alive (heap w) vec ->
  exists w',
    for_passes (warmup_step warmup) i vec failed w
      = Some (fold_left count_failure
                (call_results warmup (heap w) vec (backend w)) failed, w') /\
    graph w' = graph w /\
    trace w' = trace w ++
      zip_with PassWarmup vec (call_results warmup (heap w) vec (backend w)).
Proof.
  induction vec as [|p vec IH]; intros i failed w Hnd Hal.
  - exists w. cbn [for_passes call_results zip_with fold_left].
    rewrite app_nil_r. now repeat split.
  - apply alive_cons in Hal as [[ps Hps] Hal].
    apply NoDup_cons in Hnd as [Hp Hnd].
    rewrite for_passes_cons, (warmup_step_run _ _ _ _ _ Hps). cbv zeta.
    cbn [call_results]. rewrite Hps. cbv zeta.
    set (r := warmup (backend w) p ps).
    match goal with |- context [for_passes _ _ _ _ ?x] => set (w1 := x) end.
    destruct (IH (S i) (count_failure failed r.1.1) w1 Hnd)
      as (w' & Hrun & Hg & Ht).
    { now apply alive_insert. }
    assert (Hres : call_results warmup (heap w1) vec (backend w1)
                   = call_results warmup (heap w) vec r.2).
    { cbn [heap backend w1]. apply call_results_ext. intros q Hq.
      rewrite lookup_insert_ne; [reflexivity|]. intros ->; contradiction. }
    rewrite Hres in Hrun, Ht.
    exists w'. rewrite Hrun, Hg, Ht.
    cbn [graph trace zip_with fold_left w1].
    rewrite <- app_assoc. now repeat split.
Qed.

(** X1. In a graph whose passes are distinct and in memory,
    [_gfx_render_graph_warmup] returns. From WARMED or BUILT it returns
    success and changes nothing. Below WARMED every pass is first
    destructed if the state was INVALID (the purge), the graph is analyzed
    if the state was below VALIDATED, and then [_gfx_pass_warmup] is
    called on every pass of the vector, in order, each call on the backend
    that the call before it left; after a failure one error line with the
    number of failures follows. The result is success exactly when every
    one of these calls of [_gfx_pass_warmup] answers success; the state is
    then WARMED, and VALIDATED after a failure. Neither the pass vector
    nor the sinks change. *)
Theorem warmup_outcome (w : World Backend) :
  world_ok w ->
  let entry :=
    if bool_decide (state (graph w) = _GFX_GRAPH_INVALID)
    then destructed destruct (heap w) (passes (graph w)) (backend w)
    else (heap w, backend w) in
  let oks := call_results warmup entry.1 (passes (graph w)) entry.2 in
  exists ok w' evs,
    _gfx_render_graph_warmup warmup destruct w = Some (ok, w') /\
    trace w' = trace w ++ evs /\
    passes (graph w') = passes (graph w) /\
    sinks (graph w') = sinks (graph w) /\
    if state_value (state (graph w)) >=? state_value _GFX_GRAPH_WARMED then
      ok = true /\ w' = w
    else
      length oks = length (passes (graph w)) /\
      evs =
        (if bool_decide (state (graph w) = _GFX_GRAPH_INVALID)
         then map PassDestruct (passes (graph w)) else []) ++
        (if state_value (state (graph w)) <? state_value _GFX_GRAPH_VALIDATED
         then [Analyze] else []) ++
        zip_with PassWarmup (passes (graph w)) oks ++
        (if forallb id oks then []
         else [LogError "Failed to warmup %zu pass(es) of the renderer's graph."
                 (Some (failures oks))]) /\
      ok = forallb id oks /\
      (ok = true <-> Forall (fun b => b = true) oks) /\
      state (graph w') =
        (if forallb id oks then _GFX_GRAPH_WARMED else _GFX_GRAPH_VALIDATED).
Proof.
  intros (Hnd & Hal & Hsz) entry oks. unfold _gfx_render_graph_warmup. run.
  destruct (state_value (state (graph w)) >=? 3) eqn:Est.
  - exists true, w, []. rewrite app_nil_r. now repeat split.
  - rewrite (purge_and_analyze_result destruct w Hal). run. fold entry.
    match goal with |- context [for_passes _ _ _ _ ?x] => set (w1 := x) end.
    assert (Hal1 : alive (heap w1) (passes (graph w))).
    { cbn [heap w1]. unfold entry. case_bool_decide; [|exact Hal].
      now apply alive_destructed. }
    destruct (warmup_loop_results (passes (graph w)) 0%nat 0 w1 Hnd Hal1)
      as (w2 & Hrun & Hg & Ht2).
    cbn [heap backend w1] in Hrun, Ht2. fold oks in Hrun, Ht2.
    rewrite Hrun.
    assert (Hlen : length oks = length (passes (graph w))).
    { apply call_results_length. exact Hal1. }
    destruct (failed_test oks) as [Htest Hcount]; [now rewrite Hlen|].
    rewrite Htest, Hcount.
    assert (Hall : forallb id oks = true <-> Forall (fun b => b = true) oks).
    { rewrite forallb_forall, Forall_forall. unfold id.
      split; intros Hx b Hb; apply Hx; now apply list_elem_of_In. }
    destruct (forallb id oks) eqn:Eall; cbn [negb]; run.
    + eexists true, _, _. split; [reflexivity|]. cbn [trace graph passes sinks state].
      rewrite Hg, Ht2. cbn [graph trace passes sinks w1]. rewrite <- !app_assoc.
      split; [reflexivity|]. split; [reflexivity|]. split; [reflexivity|].
      rewrite app_nil_r.
      repeat split; try assumption; try reflexivity. now apply Hall.
    + eexists false, _, _. split; [reflexivity|]. cbn [trace graph passes sinks state].
      rewrite Hg, Ht2. cbn [graph trace passes sinks state w1]. rewrite <- !app_assoc.
      split; [reflexivity|]. split; [reflexivity|]. split; [reflexivity|].
      split; [assumption|]. split; [reflexivity|]. split; [reflexivity|].
      split; [split; [discriminate|intros Hf; apply Hall in Hf; discriminate]|].
      destruct (state (graph w)); try reflexivity; discriminate.
Qed.

(** *** Building *)

(** The loop of the build, with the memory it leaves: every pass of the
    vector carries its index as order, and no other pass is touched. *)
Lemma build_loop_orders vec : forall i failed (w : World Backend),
  NoDup vec -> alive (heap w) vec ->
  exists oks w',
    length oks = length vec /\
    for_passes (build_step build) i vec failed w
      = Some (fold_left count_failure oks failed, w') /\
    graph w' = graph w /\
    trace w' = trace w ++ build_events 0 vec oks /\
    (forall k p, vec !! k = Some p ->
       exists ps, heap w' !! p = Some ps /\
                  order ps = wrap 32 (Z.of_nat (i + k))) /\
    (forall q, q ∉ vec -> heap w' !! q = heap w !! q).
Proof.
  induction vec as [|p vec IH]; intros i failed w Hnd Hal.
  - exists [], w. cbn [for_passes build_events zip_with fold_left].
    rewrite app_nil_r. repeat split; try reflexivity. intros k p Hk. discriminate.
  - apply alive_cons in Hal as [[ps Hps] Hal].
    apply NoDup_cons in Hnd as [Hp Hnd].
    rewrite for_passes_cons, (build_step_run _ _ _ _ _ _ Hps). cbv zeta.
    set (r := build (backend w) p ps 0).
    match goal with |- context [for_passes _ _ _ _ ?w1] => set (w1' := w1) end.
    destruct (IH (S i) (count_failure failed r.1.1) w1' Hnd)
      as (oks & w' & Hlen & Hrun & Hg & Ht & Hord & Hrest).
    { now do 2 apply alive_insert. }
    exists (r.1.1 :: oks), w'. rewrite Hrun, Hg, Ht.
    cbn [graph trace length build_events zip_with fold_left w1'] in *.
    rewrite <- app_assoc. repeat split; try reflexivity; [now rewrite Hlen| |].
    + intros [|k] q Hk.
      * cbn in Hk. injection Hk as <-. rewrite (Hrest p Hp).
        cbn [heap w1']. rewrite lookup_insert_eq. eexists. split; [reflexivity|].
        cbn [order set_order]. now rewrite Nat.add_0_r.
      * cbn in Hk. destruct (Hord k q Hk) as (qs & Hq & Ho).
        exists qs. split; [assumption|]. rewrite Ho. f_equal. lia.
    + intros q Hq. rewrite not_elem_of_cons in Hq. destruct Hq as [Hne Hq].
      rewrite (Hrest q Hq). cbn [heap w1'].
      now rewrite !lookup_insert_ne by congruence.
Qed.

(** What a build does, in full, from a state other than BUILT. *)
Lemma build_full (w : World Backend) :
  world_ok w -> state (graph w) <> _GFX_GRAPH_BUILT ->
  exists oks w1 w2,
    purge_and_analyze destruct w = Some (true, w1) /\
    passes (graph w1) = passes (graph w) /\
    sinks (graph w1) = sinks (graph w) /\
    state (graph w1) =
      (if state_value (state (graph w)) <? state_value _GFX_GRAPH_VALIDATED
       then _GFX_GRAPH_VALIDATED else state (graph w)) /\
    trace w1 = trace w ++
      (if bool_decide (state (graph w) = _GFX_GRAPH_INVALID)
       then map PassDestruct (passes (graph w)) else []) ++
      (if state_value (state (graph w)) <? state_value _GFX_GRAPH_VALIDATED
       then [Analyze] else []) /\
    length oks = length (passes (graph w)) /\
    graph w2 = graph w1 /\
    trace w2 = trace w1 ++ build_events 0 (passes (graph w)) oks /\
    (forall k p, passes (graph w) !! k = Some p ->
       exists ps, heap w2 !! p = Some ps /\ order ps = wrap 32 (Z.of_nat k)) /\
    _gfx_render_graph_build build destruct w =
      Some (forallb id oks,
            if forallb id oks
            then mkWorld Backend
                   (mkGraph (sinks (graph w2)) (passes (graph w2)) _GFX_GRAPH_BUILT)
                   (heap w2) (backend w2) (trace w2)
            else mkWorld Backend (graph w2) (heap w2) (backend w2)
                   (trace w2 ++
                    [LogError "Failed to build %zu pass(es) of the renderer's graph."
                       (Some (failures oks))])).
Proof.
  intros (Hnd & Hal & Hsz) Hst.
  destruct (purge_and_analyze_run destruct w Hal)
    as (w1 & Hpa & Hp & Hs & Hst1 & Ht1 & Hal1).
  destruct (build_loop_orders (passes (graph w)) 0%nat 0 w1 Hnd Hal1)
    as (oks & w2 & Hlen & Hrun & Hg & Ht2 & Hord & _).
  exists oks, w1, w2. repeat (split; [assumption|]).
  unfold _gfx_render_graph_build. run.
  rewrite (bool_decide_eq_false_2 _ Hst), Hpa. run. rewrite Hp, Hrun.
  destruct (failed_test oks) as [Htest Hcount]; [now rewrite Hlen|].
  rewrite Htest, Hcount.
  destruct (forallb id oks); cbn [negb]; run; reflexivity.
Qed.

(** X2. In a graph whose passes are in memory, [_gfx_render_graph_build]
    returns success exactly when the state afterwards is BUILT. It never
    lowers the state, and the state afterwards is at least VALIDATED. After
    a success a second build succeeds and changes nothing. *)
Theorem build_result_is_state (w : World Backend) :
  world_ok w ->
  exists ok w',
    _gfx_render_graph_build build destruct w = Some (ok, w') /\
    (ok = true <-> state (graph w') = _GFX_GRAPH_BUILT) /\
    state_value (state (graph w)) <= state_value (state (graph w')) /\
    state_value _GFX_GRAPH_VALIDATED <= state_value (state (graph w')) /\
    (ok = true -> _gfx_render_graph_build build destruct w' = Some (true, w')).
Proof.
  intros Hok. destruct (decide (state (graph w) = _GFX_GRAPH_BUILT)) as [Hst|Hst].
  - exists true, w.
    assert (Hrun : _gfx_render_graph_build build destruct w = Some (true, w)).
    { unfold _gfx_render_graph_build. run. now rewrite (bool_decide_eq_true_2 _ Hst). }
    split; [assumption|]. rewrite Hst. cbn [state_value].
    split; [split; reflexivity|]. split; [lia|]. split; [lia|]. intros _. assumption.
  - destruct (build_full w Hok Hst)
      as (oks & w1 & w2 & _ & _ & _ & Hst1 & _ & _ & Hg & _ & _ & Hrun).
    eexists _, _. split; [exact Hrun|].
    destruct (forallb id oks); cbn [graph state].
    + split; [split; reflexivity|]. cbn [state_value].
      split; [destruct (state (graph w)); cbn [state_value]; lia|].
      split; [lia|]. intros _. unfold _gfx_render_graph_build. run.
      now rewrite bool_decide_eq_true_2 by reflexivity.
    + rewrite Hg, Hst1.
      destruct (state (graph w)) eqn:E; try congruence;
        cbv [state_value Z.ltb Z.compare Pos.compare Pos.compare_cont];
        (split; [split; discriminate|]);
        (split; [lia|]); (split; [lia|]); discriminate.
Qed.

(** X3. A build from any state but BUILT leaves each pass of the vector
    with its index in the vector as order (an [unsigned int]), whether or
    not the passes build. *)
Theorem build_sets_order (w : World Backend) :
  world_ok w -> state (graph w) <> _GFX_GRAPH_BUILT ->
  exists ok w',
    _gfx_render_graph_build build destruct w = Some (ok, w') /\
    forall k p, passes (graph w') !! k = Some p ->
      exists ps, heap w' !! p = Some ps /\ order ps = wrap 32 (Z.of_nat k).
Proof.
  intros Hok Hst.
  destruct (build_full w Hok Hst)
    as (oks & w1 & w2 & _ & Hp & _ & _ & _ & _ & Hg & _ & Hord & Hrun).
  eexists _, _. split; [exact Hrun|].
  destruct (forallb id oks); cbn [graph heap passes]; rewrite ?Hg, Hp; exact Hord.
Qed.

(** *** Destructing the passes of an attachment *)

Lemma destruct_step_run index i p failed (w : World Backend) ps :
  heap w !! p = Some ps ->
  let r := destruct (backend w) p ps in
  destruct_step destruct index i p failed w =
  if build_backing ps =? index then
    Some (failed,
          mkWorld Backend
            (mkGraph (sinks (graph w)) (passes (graph w))
               (if state_value (state (graph w)) >=? state_value _GFX_GRAPH_WARMED
                then _GFX_GRAPH_VALIDATED else state (graph w)))
            (<[p := r.1]> (heap w)) r.2 (trace w ++ [PassDestruct p]))
  else Some (failed, w).
Proof.
  intros Hps r. unfold destruct_step, pass_destruct. run. rewrite Hps.
  destruct (build_backing ps =? index); [|reflexivity].
  rewrite Hps. subst r. destruct (destruct (backend w) p ps) as [ps' b']. run.
  destruct (state_value (state (graph w)) >=? 3); run; [reflexivity|].
  now destruct (graph w).
Qed.

Lemma destruct_loop index vec : forall i failed (w : World Backend),
  NoDup vec -> alive (heap w) vec ->
  exists w',
    for_passes (destruct_step destruct index) i vec failed w = Some (failed, w') /\
    passes (graph w') = passes (graph w) /\
    sinks (graph w') = sinks (graph w) /\
    trace w' = trace w ++ map PassDestruct (backed_by (heap w) index vec) /\
    state (graph w') =
      match backed_by (heap w) index vec with
      | [] => state (graph w)
      | _ => if state_value (state (graph w)) >=? state_value _GFX_GRAPH_WARMED
             then _GFX_GRAPH_VALIDATED else state (graph w)
      end.
Proof.
  induction vec as [|p vec IH]; intros i failed w Hnd Hal.
  - exists w. cbn [for_passes backed_by List.filter map]. rewrite app_nil_r.
    now repeat split.
  - apply alive_cons in Hal as [[ps Hps] Hal].
    apply NoDup_cons in Hnd as [Hp Hnd].
    rewrite for_passes_cons, (destruct_step_run _ _ _ _ _ _ Hps). cbv zeta.
    unfold backed_by at 1 2. cbn [List.filter]. rewrite Hps.
    fold (backed_by (heap w) index vec).
    destruct (build_backing ps =? index).
    + set (r := destruct (backend w) p ps).
      match goal with |- context [for_passes _ _ _ _ ?w1] => set (w1' := w1) end.
      destruct (IH (S i) failed w1' Hnd) as (w' & Hrun & Hpv & Hsv & Ht & Hst).
      { now apply alive_insert. }
      cbn [heap w1'] in Ht, Hst. rewrite backed_by_insert_fresh in Ht, Hst by assumption.
      exists w'. rewrite Hrun, Hpv, Hsv, Ht, Hst.
      cbn [graph trace passes sinks state map w1'].
      rewrite <- app_assoc. repeat split; try reflexivity.
      destruct (backed_by (heap w) index vec); [reflexivity|].
      destruct (state (graph w)); reflexivity.
    + destruct (IH (S i) failed w Hnd Hal) as (w' & Hrun & Hpv & Hsv & Ht & Hst).
      exists w'. now repeat split.
Qed.

(** X4. In a graph whose passes are distinct and in memory,
    [_gfx_render_graph_destruct] calls [_gfx_pass_destruct] on exactly the
    passes whose [build.backing] is the index, in the order of the vector,
    and neither builds nor destroys a pass. If there is such a pass and the
    state is WARMED or BUILT, the state becomes VALIDATED; otherwise it
    stays, so that the state is never raised. *)
Theorem destruct_outcome (index : Z) (w : World Backend) :
  world_ok w ->
  exists w',
    _gfx_render_graph_destruct destruct index w = Some (tt, w') /\
    passes (graph w') = passes (graph w) /\
    sinks (graph w') = sinks (graph w) /\
    trace w' = trace w ++
      map PassDestruct (backed_by (heap w) index (passes (graph w))) /\
    state (graph w') =
      match backed_by (heap w) index (passes (graph w)) with
      | [] => state (graph w)
      | _ => if state_value (state (graph w)) >=? state_value _GFX_GRAPH_WARMED
             then _GFX_GRAPH_VALIDATED else state (graph w)
      end /\
    state_value (state (graph w')) <= state_value (state (graph w)).
Proof.
  intros (Hnd & Hal & _). unfold _gfx_render_graph_destruct. run.
  destruct (destruct_loop index (passes (graph w)) 0%nat 0 w Hnd Hal)
    as (w' & Hrun & Hpv & Hsv & Ht & Hst).
  rewrite Hrun. exists w'. repeat (split; [assumption || reflexivity|]).
  rewrite Hst. destruct (backed_by _ _ _); [lia|].
  destruct (state (graph w)); cbn; lia.
Qed.

(** *** Invalidating *)

(** X5. [_gfx_render_graph_invalidate] leaves an EMPTY graph as it is and
    sets every other state to INVALID, touching nothing else, and doing it
    twice is doing it once. The build that follows an invalidation first
    destructs every pass of the vector, then analyzes, then builds every
    pass. *)
Theorem invalidate_forces_rebuild (w : World Backend) :
  world_ok w ->
  exists w1,
    _gfx_render_graph_invalidate w = Some (tt, w1) /\
    _gfx_render_graph_invalidate w1 = Some (tt, w1) /\
    (state (graph w) = _GFX_GRAPH_EMPTY -> w1 = w) /\
    (state (graph w) <> _GFX_GRAPH_EMPTY ->
     w1 = mkWorld Backend
            (mkGraph (sinks (graph w)) (passes (graph w)) _GFX_GRAPH_INVALID)
            (heap w) (backend w) (trace w) /\
     exists ok w' oks,
       _gfx_render_graph_build build destruct w1 = Some (ok, w') /\
       length oks = length (passes (graph w)) /\
       ok = forallb id oks /\
       trace w' = trace w ++
         map PassDestruct (passes (graph w)) ++ [Analyze] ++
         build_events 0 (passes (graph w)) oks ++
         (if forallb id oks then []
          else [LogError "Failed to build %zu pass(es) of the renderer's graph."
                  (Some (failures oks))])).
Proof.
  intros Hok. unfold _gfx_render_graph_invalidate. run.
  destruct (decide (state (graph w) = _GFX_GRAPH_EMPTY)) as [Hst|Hst].
  - rewrite (bool_decide_eq_true_2 _ Hst). run. exists w.
    rewrite (bool_decide_eq_true_2 _ Hst). run.
    split; [reflexivity|]. split; [reflexivity|]. split; [reflexivity|].
    intros Hne. contradiction.
  - rewrite (bool_decide_eq_false_2 _ Hst). run. eexists. split; [reflexivity|].
    run. enumerators. run. split; [reflexivity|]. split; [intros E; contradiction|].
    intros _. split; [reflexivity|].
    match goal with |- context [_gfx_render_graph_build _ _ ?x] => set (w1 := x) end.
    assert (Hok1 : world_ok w1) by exact Hok.
    assert (Hst1 : state (graph w1) <> _GFX_GRAPH_BUILT) by discriminate.
    destruct (build_full w1 Hok1 Hst1)
      as (oks & w2 & w3 & _ & _ & _ & _ & Ht2 & Hlen & _ & Ht3 & _ & Hrun).
    eexists _, _, oks. split; [exact Hrun|]. split; [exact Hlen|].
    split; [reflexivity|].
    cbn [w1 graph passes state trace] in Ht2, Ht3.
    rewrite bool_decide_eq_true_2 in Ht2 by reflexivity.
    cbv [state_value Z.ltb Z.compare Pos.compare Pos.compare_cont] in Ht2.
    destruct (forallb id oks); cbn [trace]; rewrite Ht3, Ht2;
      rewrite <- ?app_assoc; [now rewrite app_nil_r|reflexivity].
Qed.

(** *** Clearing *)

Lemma destroy_passes_run vec : forall i (w : World Backend),
  (i <= length vec)%nat ->
  exists w',
    destroy_passes vec i w = Some (tt, w') /\
    graph w' = graph w /\ backend w' = backend w /\
    trace w' = trace w ++ map PassDestroy (reverse (take i vec)) /\
    (forall q, heap w' !! q =
               if bool_decide (q ∈ take i vec) then None else heap w !! q).
Proof.
  induction i as [|i IH]; intros w Hi.
  - exists w. cbn [destroy_passes take reverse map]. rewrite app_nil_r.
    repeat split; reflexivity.
  - destruct (lookup_lt_is_Some_2 vec i) as [p Hp]; [lia|].
    cbn [destroy_passes]. rewrite Hp. unfold _gfx_destroy_pass. run.
    match goal with |- context [destroy_passes _ _ ?w1] => set (w1' := w1) end.
    destruct (IH w1') as (w' & Hrun & Hg & Hb & Ht & Hh); [lia|].
    exists w'. rewrite Hrun, Hg, Hb, Ht. cbn [graph backend trace w1'].
    rewrite (take_S_r _ _ _ Hp), reverse_app. cbn [reverse rev_append map app].
    rewrite <- app_assoc. repeat split; try reflexivity.
    intros q. rewrite Hh. cbn [heap w1'].
    destruct (decide (q = p)) as [-> |Hne].
    + rewrite lookup_delete_eq.
      rewrite (bool_decide_eq_true_2 (p ∈ take i vec ++ [p]));
        [now destruct (bool_decide _)|].
      apply elem_of_app. right. now left.
    + rewrite lookup_delete_ne by congruence.
      apply (f_equal (fun b : bool => if b then None else heap w !! q)).
      apply bool_decide_ext. rewrite elem_of_app, list_elem_of_singleton. tauto.
Qed.

(** X6. [_gfx_render_graph_clear] always returns: it destroys the passes
    of the vector one by one from the last to the first, frees their memory
    and no other, and leaves the pass vector and the sinks empty. The
    state of the graph is not touched. *)
Theorem clear_outcome (w : World Backend) :
  exists w',
    _gfx_render_graph_clear w = Some (tt, w') /\
    passes (graph w') = [] /\
    sinks (graph w') = [] /\
    state (graph w') = state (graph w) /\
    backend w' = backend w /\
    trace w' = trace w ++ map PassDestroy (reverse (passes (graph w))) /\
    forall q, heap w' !! q =
              if bool_decide (q ∈ passes (graph w)) then None else heap w !! q.
Proof.
  unfold _gfx_render_graph_clear. run.
  destruct (destroy_passes_run (passes (graph w)) (length (passes (graph w))) w)
    as (w' & Hrun & Hg & Hb & Ht & Hh); [lia|].
  rewrite Hrun. run. rewrite firstn_all in Ht, Hh.
  eexists. split; [reflexivity|]. cbn [graph heap backend trace passes sinks state].
  rewrite Hg. repeat split; assumption || reflexivity.
Qed.

End Passes.


Section Adding.
Context {Backend : Type}.
Implicit Types (w : World Backend) (h : gmap N GFXPass).

(** *** Calls of [gfx_renderer_add_pass] return *)

Lemma add_pass_runs a parents w :
  graph_inv w -> valid_call w a parents ->
  exists res w',
    gfx_renderer_add_pass a parents w = Some (res, w') /\
    (res = None <->
     malloc_pass a = None \/ push_ok a = false \/ insert_ok a = false) /\
    (res = None ->
     trace w' = trace w ++
       match malloc_pass a with Some p => [PassDestroy p] | None => [] end ++
       [LogError "Could not add a new pass to a renderer's graph." None]).
Proof.
  intros (Hal & _) [Hin Hfresh].
  destruct (level_above_spec (heap w) parents 0) as (lvl & Hlvl & _).
  { intros q Hq. apply Hal. now apply Hin. }
  unfold gfx_renderer_add_pass, _gfx_create_pass, add_pass_clean, _gfx_destroy_pass.
  destruct (malloc_pass a) as [p|] eqn:Em; run.
  2: { eexists _, _. split; [reflexivity|]. split; [tauto|reflexivity]. }
  rewrite Hlvl. run. destruct (push_ok a) eqn:Epush; run.
  2: { eexists _, _. split; [reflexivity|]. split; [tauto|].
       intros _. cbn [trace]. now rewrite <- app_assoc. }
  rewrite lookup_insert_eq. run. cbn [level].
  destruct (find_loc_spec (<[p := mkPass lvl 0 0 SIZE_MAX parents]> (heap w))
              (passes (graph w)) lvl (length (passes (graph w))))
    as (loc & Hloc & _); [lia|now apply alive_insert|].
  rewrite Hloc. run. destruct (insert_ok a) eqn:Eins; run.
  2: { eexists _, _. split; [reflexivity|]. split; [tauto|].
       intros _. cbn [trace]. now rewrite <- app_assoc. }
  rewrite erase_parents_pushed. run.
  destruct (bool_decide (state (graph w) = _GFX_GRAPH_EMPTY)); run;
    (eexists _, _; split; [reflexivity|]; split; [|discriminate]);
    (split; [discriminate|]); intros [H|[H|H]]; discriminate.
Qed.

(** X7. On a graph built by adding passes, a call of
    [gfx_renderer_add_pass] with parents of this renderer and an unused
    address always returns. It returns NULL exactly when one of its three
    allocations fails; then the graph and the memory are as before the
    call, the pass that was created is destroyed again, and one error is
    logged. Otherwise it returns the address that was allocated and logs
    nothing. *)
Theorem add_pass_returns (a : Alloc) (parents : list N) (w : World Backend) :
  added w ->
  valid_call w a parents ->
  exists res w',
    gfx_renderer_add_pass a parents w = Some (res, w') /\
    (res = None <->
     malloc_pass a = None \/ push_ok a = false \/ insert_ok a = false) /\
    (res = None ->
     graph w' = graph w /\ heap w' = heap w /\ backend w' = backend w /\
     trace w' = trace w ++
       match malloc_pass a with Some p => [PassDestroy p] | None => [] end ++
       [LogError "Could not add a new pass to a renderer's graph." None]) /\
    (forall p, res = Some p -> malloc_pass a = Some p /\ trace w' = trace w).
Proof.
  intros Hadded Hvalid. pose proof (added_inv _ Hadded) as Hinv.
  destruct (add_pass_runs a parents w Hinv Hvalid) as (res & w' & E & Hres & Ht).
  exists res, w'. split; [exact E|]. split; [exact Hres|]. split.
  - intros ->. destruct (add_pass_failure _ _ _ _ Hvalid E) as (Hg & Hh & Hb).
    repeat split; try assumption. now apply Ht.
  - intros p ->. destruct (add_pass_success _ _ _ _ _ E)
      as (lvl & loc & Hm & _ & _ & _ & _ & _ & _ & _ & Htr).
    now split.
Qed.

(** *** The shape of a graph built by adding passes *)

Lemma NoDup_vec_insert (vec : list N) p loc :
  NoDup vec -> p ∉ vec -> NoDup (take loc vec ++ p :: drop loc vec).
Proof.
  intros Hnd Hp. rewrite <- (take_drop loc vec) in Hnd, Hp.
  apply NoDup_app in Hnd as (Hl & Hlr & Hr).
  rewrite elem_of_app in Hp.
  apply NoDup_app. split; [assumption|]. split.
  - intros x Hx Hx'. apply elem_of_cons in Hx' as [-> |Hx']; [tauto|].
    now apply (Hlr x).
  - apply NoDup_cons. split; [tauto|assumption].
Qed.

Lemma added_shape w :
  added w ->
  NoDup (passes (graph w)) /\
  NoDup (sinks (graph w)) /\
  (sinks (graph w) = [] <-> passes (graph w) = []).
Proof.
  induction 1 as [w w0 E|w a parents res w' Hadded IH Hvalid E].
  - unfold _gfx_render_graph_init in E. run. injection E as <-.
    cbn [graph passes sinks]. repeat split; try constructor.
  - destruct IH as (Hp & Hs & Hiff). pose proof (added_inv _ Hadded) as Hinv.
    destruct res as [p|].
    2: { destruct (add_pass_failure _ _ _ _ Hvalid E) as (-> & _). tauto. }
    destruct (add_pass_position _ _ _ _ _ Hinv Hvalid E)
      as (loc & lvl & Hfresh & _ & _ & -> & -> & _).
    destruct Hinv as (Hal & _ & _ & Hclosed).
    assert (Hnew : p ∉ passes (graph w)).
    { intros Hin. destruct (Hal p Hin) as [x Hx]. congruence. }
    split; [now apply NoDup_vec_insert|]. split.
    + apply NoDup_app. split; [now apply NoDup_filter|]. split; [|apply NoDup_singleton].
      intros x Hx Hx'. apply list_elem_of_singleton in Hx' as ->.
      apply list_elem_of_filter in Hx as [_ Hx]. apply Hnew. now apply Hclosed.
    + split; intros Hnil; exfalso.
      * now apply app_eq_nil in Hnil as [_ Hnil].
      * now apply app_eq_nil in Hnil as [_ Hnil].
Qed.

(** X8. A graph built by adding passes holds every pass once: the
    passes of the vector are distinct and in memory, the sinks are distinct
    passes of the vector, and there is no sink exactly when there is no
    pass. *)
Theorem added_wellformed (w : World Backend) :
  added w ->
  NoDup (passes (graph w)) /\
  alive (heap w) (passes (graph w)) /\
  NoDup (sinks (graph w)) /\
  (forall x, x ∈ sinks (graph w) -> x ∈ passes (graph w)) /\
  (sinks (graph w) = [] <-> passes (graph w) = []).
Proof.
  intros Hadded. destruct (added_shape w Hadded) as (Hp & Hs & Hiff).
  destruct (added_inv _ Hadded) as (Hal & _ & _ & Hclosed).
  repeat split; try assumption; try tauto.
  intros x Hx. now apply Hclosed.
Qed.

(** X9. After a successful [gfx_renderer_add_pass] the new pass is the
    last sink: [gfx_renderer_get_num_sinks] is one more than the number of
    old sinks that are not a parent of the new pass, and
    [gfx_renderer_get_sink] at the last index returns the new pass. Neither
    call changes anything. *)
Theorem added_pass_is_last_sink (a : Alloc) (parents : list N)
    (w w' : World Backend) (p : N) :
  gfx_renderer_add_pass a parents w = Some (Some p, w') ->
  exists n,
    n = length (filter (fun x => x ∉ parents) (sinks (graph w))) /\
    (n <= length (sinks (graph w)))%nat /\
    gfx_renderer_get_num_sinks w' = Some (S n, w') /\
    gfx_renderer_get_sink n w' = Some (p, w').
Proof.
  intros E. destruct (add_pass_success _ _ _ _ _ E)
    as (lvl & loc & _ & _ & _ & _ & _ & Hs & _).
  eexists. split; [reflexivity|]. split; [apply length_filter|].
  unfold gfx_renderer_get_num_sinks, gfx_renderer_get_sink. run. rewrite Hs.
  rewrite length_app, Nat.add_1_r. split; [reflexivity|].
  rewrite lookup_app_r by lia. now rewrite Nat.sub_diag.
Qed.

(** X10. Clearing a graph built by adding passes destroys every pass
    of the vector exactly once and no pass before a pass that lists it as a
    parent; afterwards none of them is in memory. *)
Theorem clear_children_first (w : World Backend) :
  added w ->
  exists w' order,
    _gfx_render_graph_clear w = Some (tt, w') /\
    trace w' = trace w ++ map PassDestroy order /\
    NoDup order /\
    (forall p, p ∈ order <-> p ∈ passes (graph w)) /\
    (forall i p ps q,
       order !! i = Some p -> heap w !! p = Some ps -> q ∈ parents ps ->
       exists j, (i < j)%nat /\ order !! j = Some q) /\
    (forall p, p ∈ passes (graph w) -> heap w' !! p = None).
Proof.
  intros Hadded. destruct (added_shape w Hadded) as (Hnd & _).
  pose proof (inv_topological _ (added_inv _ Hadded)) as Htop.
  unfold _gfx_render_graph_clear. run.
  destruct (destroy_passes_run (passes (graph w)) (length (passes (graph w))) w)
    as (w' & Hrun & Hg & Hb & Ht & Hh); [lia|].
  rewrite Hrun. run. rewrite firstn_all in Ht, Hh.
  eexists _, (reverse (passes (graph w))). split; [reflexivity|].
  cbn [trace heap]. split; [assumption|]. split; [now rewrite reverse_Permutation|].
  split; [intros p; apply elem_of_reverse|]. split.
  - intros i p ps q Hi Hp Hq.
    assert (Hlt : (i < length (passes (graph w)))%nat).
    { rewrite <- length_reverse. eapply lookup_lt_Some. eassumption. }
    rewrite reverse_lookup in Hi by assumption.
    destruct (Htop _ _ _ _ Hi Hp Hq) as (k & qs & Hk & Hkq & _).
    exists (length (passes (graph w)) - S k)%nat. split; [lia|].
    rewrite reverse_lookup by lia. rewrite <- Hkq. f_equal. lia.
  - intros p Hp. rewrite Hh. now rewrite bool_decide_eq_true_2.
Qed.

(** *** The state of a graph built by adding passes *)

Lemma added_state_inv w :
  added w ->
  (passes (graph w) = [] /\ state (graph w) = _GFX_GRAPH_BUILT) \/
  (passes (graph w) <> [] /\ state (graph w) = _GFX_GRAPH_EMPTY).
Proof.
  induction 1 as [w w0 E|w a parents res w' Hadded IH Hvalid E].
  - unfold _gfx_render_graph_init in E. run. injection E as <-. now left.
  - destruct res as [p|].
    2: { destruct (add_pass_failure _ _ _ _ Hvalid E) as (-> & _). exact IH. }
    destruct (add_pass_success _ _ _ _ _ E)
      as (lvl & loc & _ & _ & _ & _ & Hp & _ & Hst & _).
    right. split.
    + rewrite Hp. unfold gfx_vec_insert. intros Hnil.
      apply app_eq_nil in Hnil as [_ Hnil]. discriminate.
    + rewrite Hst, Hp, length_vec_insert.
      destruct IH as [[Hnil Hb]|[_ He]].
      * rewrite Hb, Hnil. reflexivity.
      * rewrite He. reflexivity.
Qed.

(** X11. A graph that was only initialized and added to is in the
    state BUILT as long as it holds no pass and in the state EMPTY as soon
    as it holds one: adding passes never leaves it INVALID, VALIDATED or
    WARMED. *)
Theorem added_state (w : World Backend) :
  added w ->
  state (graph w) =
    if bool_decide (passes (graph w) = []) then _GFX_GRAPH_BUILT
    else _GFX_GRAPH_EMPTY.
Proof.
  intros Hadded. destruct (added_state_inv w Hadded) as [[Hnil ->]|[Hne ->]].
  - now rewrite bool_decide_eq_true_2.
  - now rewrite bool_decide_eq_false_2.
Qed.

End Adding.

Section Building.
Context {Backend : Type}.
Variable build : Backend -> N -> GFXPass -> Z -> bool * GFXPass * Backend.
Variable destruct : Backend -> N -> GFXPass -> GFXPass * Backend.

(** X12. Building a graph that was built by adding passes destructs
    nothing and builds every pass of the vector exactly once, each pass
    after all the passes it lists as parents. *)
Theorem added_graph_builds_parents_first (w : World Backend) :
  added w ->
  Z.of_nat (length (passes (graph w))) <= SIZE_MAX ->
  exists ok w' evs,
    _gfx_render_graph_build build destruct w = Some (ok, w') /\
    trace w' = trace w ++ evs /\
    destructs_of evs = [] /\
    map (fun b => b.1.1) (builds_of evs) = passes (graph w) /\
    forall j p ps q,
      passes (graph w) !! j = Some p -> heap w !! p = Some ps -> q ∈ parents ps ->
      exists i, (i < j)%nat /\
                map (fun b => b.1.1) (builds_of evs) !! i = Some q.
Proof.
  intros Hadded Hsz.
  pose proof (inv_topological _ (added_inv _ Hadded)) as Htop.
  assert (Horder : forall evs,
    map (fun b => b.1.1) (builds_of evs) = passes (graph w) ->
    forall j p ps q,
      passes (graph w) !! j = Some p -> heap w !! p = Some ps -> q ∈ parents ps ->
      exists i, (i < j)%nat /\ map (fun b => b.1.1) (builds_of evs) !! i = Some q).
  { intros evs Hb j p ps q Hj Hp Hq.
    destruct (Htop _ _ _ _ Hj Hp Hq) as (i & qs & Hi & Hiq & _).
    exists i. split; [exact Hi|]. now rewrite Hb. }
  destruct (added_state_inv w Hadded) as [[Hnil Hst]|[Hne Hst]].
  - exists true, w, [].
    split. { unfold _gfx_render_graph_build. run.
             now rewrite (bool_decide_eq_true_2 _ Hst). }
    split; [now rewrite app_nil_r|]. split; [reflexivity|].
    assert (Hb : map (fun b => b.1.1) (builds_of []) = passes (graph w))
      by now rewrite Hnil.
    split; [exact Hb|now apply Horder].
  - destruct (added_shape w Hadded) as (Hnd & _).
    destruct (added_inv _ Hadded) as (Hal & _).
    assert (Hok : world_ok w) by now repeat split.
    assert (Hnb : state (graph w) <> _GFX_GRAPH_BUILT) by (rewrite Hst; discriminate).
    destruct (build_full build destruct w Hok Hnb)
      as (oks & w1 & w2 & _ & _ & _ & _ & Ht1 & Hlen & _ & Ht2 & _ & Hrun).
    rewrite Hst in Ht1. rewrite bool_decide_eq_false_2 in Ht1 by discriminate.
    cbn in Ht1.
    set (log := if forallb id oks then []
                else [LogError "Failed to build %zu pass(es) of the renderer's graph."
                        (Some (failures oks))]).
    eexists _, _, ([Analyze] ++ build_events 0 (passes (graph w)) oks ++ log).
    split; [exact Hrun|].
    assert (Hb : map (fun b => b.1.1)
                   (builds_of ([Analyze] ++ build_events 0 (passes (graph w)) oks ++ log))
                 = passes (graph w)).
    { unfold builds_of. rewrite !omap_app. cbn [omap list_omap app].
      replace (omap _ log) with (@nil (N * Z * bool))
        by (unfold log; now destruct (forallb id oks)).
      rewrite app_nil_r.
      pose proof (builds_of_build_events 0 (passes (graph w)) oks Hlen) as E.
      unfold builds_of in E.
      transitivity (map fst (map (fun p : N => (p, 0)) (passes (graph w)))).
      - rewrite <- E, map_map. reflexivity.
      - rewrite map_map. cbn [fst]. apply map_id. }
    split; [|split; [|split; [exact Hb|now apply Horder]]].
    + unfold log. destruct (forallb id oks); cbn [trace]; rewrite Ht2, Ht1;
        rewrite <- ?app_assoc; cbn [app]; [now rewrite app_nil_r|reflexivity].
    + change (destructs_of ([Analyze] ++ build_events 0 (passes (graph w)) oks ++ log))
        with (destructs_of (build_events 0 (passes (graph w)) oks ++ log)).
      rewrite destructs_of_build_events. unfold log. now destruct (forallb id oks).
Qed.

End Building.

(** ** The theorems on the example graphs *)

Lemma unordered_ok : world_ok GraphData.unordered.
Proof.
  split; [|split].
  - refine (@bool_decide_unpack (NoDup [1%N; 2%N; 3%N]) _ I).
  - intros p Hp. cbn in Hp.
    repeat (apply elem_of_cons in Hp as [-> |Hp]; [eexists; reflexivity|]).
    inversion Hp.
  - cbn. unfold SIZE_MAX. lia.
Defined.

Lemma valid_no_insert :
  valid_call GraphData.three GraphData.no_insert [2%N; 3%N].
Proof.
  split.
  - intros q Hq. apply elem_of_cons in Hq as [-> |Hq].
    + change (2%N ∈ [1%N; 2%N; 3%N]). by_decision.
    + apply list_elem_of_singleton in Hq. subst q.
      change (3%N ∈ [1%N; 2%N; 3%N]). by_decision.
  - intros p [= <-]. reflexivity.
Defined.

(** X1, at the invalidated graph of three passes, the last of which fails
    to warm up: the three passes are destructed, the graph is analyzed, the
    calls answer success, success and failure, and the warmup returns
    failure with the state VALIDATED. *)
Lemma warmup_outcome_witness :
  world_ok GraphData.stale /\
  call_results GraphData.warmup_failing
    (destructed GraphData.destruct (heap GraphData.stale)
       (passes (graph GraphData.stale)) (backend GraphData.stale)).1
    (passes (graph GraphData.stale))
    (destructed GraphData.destruct (heap GraphData.stale)
       (passes (graph GraphData.stale)) (backend GraphData.stale)).2
    = [true; true; false] /\
  exists w',
    _gfx_render_graph_warmup GraphData.warmup_failing GraphData.destruct
      GraphData.stale = Some (false, w') /\
    trace w' =
      [PassDestruct 1; PassDestruct 2; PassDestruct 3; Analyze;
       PassWarmup 1 true; PassWarmup 2 true; PassWarmup 3 false;
       LogError "Failed to warmup %zu pass(es) of the renderer's graph." (Some 1)] /\
    state (graph w') = _GFX_GRAPH_VALIDATED.
Proof.
  split; [apply stale_ok|]. split; [reflexivity|].
  pose proof (warmup_outcome GraphData.warmup_failing GraphData.destruct
                GraphData.stale stale_ok) as Hthm.
  cbv zeta in Hthm.
  destruct Hthm as (ok & w' & evs & Hrun & Ht & _ & _ & Hrest).
  change (state_value (state (graph GraphData.stale)) >=?
          state_value _GFX_GRAPH_WARMED) with false in Hrest.
  destruct Hrest as (_ & Hevs & Hok & _ & Hst).
  exists w'. split; [|split].
  - rewrite Hrun, Hok. reflexivity.
  - rewrite Ht, Hevs. reflexivity.
  - rewrite Hst. reflexivity.
Defined.

(** X2, at the one-pass graph in the state WARMED whose pass fails to
    build. *)
Lemma build_result_is_state_witness :
  world_ok (GraphData.single _GFX_GRAPH_WARMED [1%N]) /\
  exists ok w',
    _gfx_render_graph_build GraphData.build GraphData.destruct
      (GraphData.single _GFX_GRAPH_WARMED [1%N]) = Some (ok, w') /\
    (ok = true <-> state (graph w') = _GFX_GRAPH_BUILT).
Proof.
  split; [apply single_ok|].
  destruct (build_result_is_state GraphData.build GraphData.destruct
              (GraphData.single _GFX_GRAPH_WARMED [1%N]) (single_ok _ _))
    as (ok & w' & Hrun & Hiff & _).
  exists ok, w'. split; [exact Hrun|exact Hiff].
Defined.

(** X3, at the validated graph of three passes whose [order] is stale. *)
Lemma build_sets_order_witness :
  world_ok GraphData.unordered /\
  state (graph GraphData.unordered) <> _GFX_GRAPH_BUILT /\
  exists ps,
    heap (GraphData.after
            (_gfx_render_graph_build GraphData.build GraphData.destruct)
            GraphData.unordered) !! 3%N = Some ps /\
    order ps = wrap 32 2.
Proof.
  split; [apply unordered_ok|]. split; [discriminate|].
  destruct (build_sets_order GraphData.build GraphData.destruct
              GraphData.unordered unordered_ok)
    as (ok & w' & Hrun & Hord); [discriminate|].
  unfold GraphData.after. rewrite Hrun. apply (Hord 2%nat 3%N).
  vm_compute in Hrun. injection Hrun as _ <-. reflexivity.
Defined.

(** X4, at the built graph of three passes when window 0 goes. *)
Lemma destruct_outcome_witness :
  world_ok GraphData.windows /\
  exists w',
    _gfx_render_graph_destruct GraphData.destruct 0 GraphData.windows
      = Some (tt, w') /\
    trace w' = trace GraphData.windows ++
      map PassDestruct
        (backed_by (heap GraphData.windows) 0 (passes (graph GraphData.windows))) /\
    state_value (state (graph w')) <= state_value (state (graph GraphData.windows)).
Proof.
  split; [apply windows_ok|].
  destruct (destruct_outcome GraphData.destruct 0 GraphData.windows windows_ok)
    as (w' & Hrun & _ & _ & Ht & _ & Hle).
  exists w'. split; [exact Hrun|]. split; [exact Ht|exact Hle].
Defined.

(** X5, at the built graph of three passes. *)
Lemma invalidate_forces_rebuild_witness :
  world_ok GraphData.windows /\
  exists w1,
    _gfx_render_graph_invalidate GraphData.windows = Some (tt, w1) /\
    _gfx_render_graph_invalidate w1 = Some (tt, w1).
Proof.
  split; [apply windows_ok|].
  destruct (invalidate_forces_rebuild GraphData.build GraphData.destruct
              GraphData.windows windows_ok)
    as (w1 & Hrun & Hagain & _).
  exists w1. split; [exact Hrun|exact Hagain].
Defined.

(** X7, at the call that adds D to A, B and C when the insertion into the
    pass vector fails. *)
Lemma add_pass_returns_witness :
  added GraphData.three /\
  valid_call GraphData.three GraphData.no_insert [2%N; 3%N] /\
  exists res w',
    gfx_renderer_add_pass GraphData.no_insert [2%N; 3%N] GraphData.three
      = Some (res, w') /\
    (res = None <->
     malloc_pass GraphData.no_insert = None \/
     push_ok GraphData.no_insert = false \/
     insert_ok GraphData.no_insert = false).
Proof.
  split; [apply added_three|]. split; [apply valid_no_insert|].
  destruct (add_pass_returns GraphData.no_insert [2%N; 3%N] GraphData.three
              added_three valid_no_insert)
    as (res & w' & Hrun & Hres & _).
  exists res, w'. split; [exact Hrun|exact Hres].
Defined.

(** X8, at the graph of A, B and C. *)
Lemma added_wellformed_witness :
  added GraphData.three /\
  NoDup (passes (graph GraphData.three)) /\
  NoDup (sinks (graph GraphData.three)).
Proof.
  split; [apply added_three|].
  destruct (added_wellformed GraphData.three added_three)
    as (Hp & _ & Hs & _).
  split; [exact Hp|exact Hs].
Defined.

(** X9, at the last call of the diamond. *)
Lemma added_pass_is_last_sink_witness :
  gfx_renderer_add_pass (GraphData.at_address 4) [2%N; 3%N] GraphData.three
    = Some (Some 4%N, GraphData.diamond) /\
  exists n,
    gfx_renderer_get_num_sinks GraphData.diamond = Some (S n, GraphData.diamond) /\
    gfx_renderer_get_sink n GraphData.diamond = Some (4%N, GraphData.diamond).
Proof.
  split; [reflexivity|].
  destruct (added_pass_is_last_sink (GraphData.at_address 4) [2%N; 3%N]
              GraphData.three GraphData.diamond 4%N eq_refl)
    as (n & _ & _ & Hnum & Hget).
  exists n. split; [exact Hnum|exact Hget].
Defined.

(** X11, at the graph of A, B and C. *)
Lemma added_state_witness :
  added GraphData.three /\
  state (graph GraphData.three) = _GFX_GRAPH_EMPTY.
Proof.
  split; [apply added_three|].
  exact (added_state GraphData.three added_three).
Defined.

(** X12, at the graph of A, B and C. *)
Lemma added_graph_builds_parents_first_witness :
  added GraphData.three /\
  Z.of_nat (length (passes (graph GraphData.three))) <= SIZE_MAX /\
  exists ok w' evs,
    _gfx_render_graph_build GraphData.build GraphData.destruct GraphData.three
      = Some (ok, w') /\
    map (fun b => b.1.1) (builds_of evs) = passes (graph GraphData.three).
Proof.
  assert (Hsz : Z.of_nat (length (passes (graph GraphData.three))) <= SIZE_MAX).
  { vm_compute. discriminate. }
  split; [apply added_three|]. split; [exact Hsz|].
  destruct (added_graph_builds_parents_first GraphData.build GraphData.destruct
              GraphData.three added_three Hsz)
    as (ok & w' & evs & Hrun & _ & _ & Hb & _).
  exists ok, w', evs. split; [exact Hrun|exact Hb].
Defined.

(** X10, at the graph of A, B and C. *)
Lemma clear_children_first_witness :
  added GraphData.three /\
  exists w' order,
    _gfx_render_graph_clear GraphData.three = Some (tt, w') /\
    trace w' = trace GraphData.three ++ map PassDestroy order /\
    NoDup order.
Proof.
  split; [apply added_three|].
  destruct (clear_children_first GraphData.three added_three)
    as (w' & order & Hrun & Ht & Hnd & _).
  exists w', order. split; [exact Hrun|]. split; [exact Ht|exact Hnd].
Defined.

End GraphMore.

(* ===================================================================== *)
(** * More on references *)
(* ===================================================================== *)

Module RefMore.
Import Ref RefSpec.
Local Open Scope Z_scope.

(** ** What [_gfx_ref_resolve] returns *)

Lemma resolve_result fuel s : forall ref r log,
  _gfx_ref_resolve fuel s ref = Some (r, log) ->
  (log = [] /\
   exists rec, resolve_switch s r = Some (Rec rec) /\ GFX_REF_IS_NULL rec = true) \/
  (exists warning, log = [warning] /\ r = GFX_REF_NULL).
Proof.
  induction fuel as [|fuel IH]; intros ref r log E; [discriminate|].
  cbn [_gfx_ref_resolve] in E.
  destruct (resolve_switch s ref) as [[w|rec]|] eqn:Es;
    cbn [mbind option_bind] in E; [| |discriminate].
  - injection E as <- <-. right. now exists w.
  - destruct (GFX_REF_IS_NULL rec) eqn:En.
    + injection E as <- <-. left. split; [reflexivity|]. now exists rec.
    + now apply (IH rec).
Qed.

(** X13. Whatever [_gfx_ref_resolve] returns resolves to itself
    without a warning. A run logs at most one warning, and a run that logs
    one returns [GFX_REF_NULL]. *)
Theorem resolve_is_fixed_point (fuel : nat) (s : Store)
    (ref r : GFXReference) (log : list string) :
  _gfx_ref_resolve fuel s ref = Some (r, log) ->
  _gfx_ref_resolve 1 s r = Some (r, []) /\
  (log = [] \/ exists warning, log = [warning] /\ r = GFX_REF_NULL).
Proof.
  intros E.
  destruct (resolve_result _ _ _ _ _ E) as [(-> & rec & Es & En)|(w & -> & ->)].
  - split; [|now left]. now apply (resolve_rec_null 0 s r rec).
  - split; [reflexivity|]. right. now exists w.
Qed.

(** X14. A reference that [_gfx_ref_resolve] rejects unpacks to
    [_GFX_UNPACK_REF_EMPTY], with and without [NDEBUG], and the warning of
    the resolution is the only one logged. *)
Theorem unpack_invalid_is_empty (ndebug : bool) (fuel : nat) (s : Store)
    (ref r : GFXReference) (warning : string) (log : list string) :
  _gfx_ref_resolve fuel s ref = Some (r, warning :: log) ->
  _gfx_ref_unpack ndebug fuel s ref = Some (_GFX_UNPACK_REF_EMPTY, [warning]).
Proof.
  intros E.
  destruct (resolve_result _ _ _ _ _ E) as [(Hl & _)|(w & Hl & ->)];
    [discriminate|].
  injection Hl as -> ->. unfold _gfx_ref_unpack. rewrite E. reflexivity.
Qed.

(** ** The object of an unpacked reference *)

Lemma cast_buffer_not_null s p b : _GFX_BUFFER s p = Some b -> p <> NULL.
Proof. intros E ->. discriminate. Qed.

Lemma cast_image_addr s p i : _GFX_IMAGE s p = Some i -> p <> NULL.
Proof. intros E ->. discriminate. Qed.

Lemma cast_primitive_addr s p x :
  _GFX_PRIMITIVE s p = Some x -> exists a, p = Addr a /\ s !! a = Some (ObjPrimitive x).
Proof.
  destruct p as [|a|a]; cbn; try discriminate.
  destruct (s !! a) as [[]|] eqn:Ea; try discriminate. intros [= ->]. now exists a.
Qed.

Lemma cast_group_addr s p g :
  _GFX_GROUP s p = Some g -> exists a, p = Addr a /\ s !! a = Some (ObjGroup g).
Proof.
  destruct p as [|a|a]; cbn; try discriminate.
  destruct (s !! a) as [[]|] eqn:Ea; try discriminate. intros [= ->]. now exists a.
Qed.

Lemma cast_renderer_addr s p r : _GFX_RENDERER s p = Some r -> p <> NULL.
Proof. intros E ->. discriminate. Qed.

(** The resolved reference behind an unpacked one, by its type. *)
Lemma unpack_cases ndebug fuel s ref unp log :
  _gfx_ref_unpack ndebug fuel s ref = Some (unp, log) ->
  exists r rlog,
    _gfx_ref_resolve fuel s ref = Some (r, rlog) /\
    match type r with
    | GFX_REF_BUFFER | GFX_REF_PRIMITIVE_VERTICES
    | GFX_REF_PRIMITIVE_INDICES | GFX_REF_GROUP_BUFFER =>
        obj_buffer unp <> NULL /\ obj_image unp = NULL /\ obj_renderer unp = NULL
    | GFX_REF_IMAGE =>
        obj_buffer unp = NULL /\ obj_image unp <> NULL /\ obj_renderer unp = NULL /\
        value unp = 0
    | GFX_REF_ATTACHMENT =>
        obj_buffer unp = NULL /\ obj_image unp = NULL /\ obj_renderer unp <> NULL /\
        value unp = Z.of_nat (values0 r)
    | _ => unp = _GFX_UNPACK_REF_EMPTY
    end.
Proof.
  intros E. unfold _gfx_ref_unpack in E.
  destruct (_gfx_ref_resolve fuel s ref) as [[r rlog]|] eqn:Er; [|discriminate].
  exists r, rlog. split; [reflexivity|]. cbn [mbind option_bind] in E.
  destruct (type r).
  - destruct (_GFX_BUFFER s (obj r)) as [b|] eqn:Eb; [|discriminate].
    cbn in E. injection E as <- <-. cbn.
    split; [now apply (cast_buffer_not_null s _ b)|now split].
  - destruct (_GFX_IMAGE s (obj r)) as [i|] eqn:Ei; [|discriminate].
    cbn in E. injection E as <- <-. cbn.
    split; [reflexivity|]. split; [now apply (cast_image_addr s _ i)|now split].
  - destruct (_GFX_PRIMITIVE s (obj r)) as [x|] eqn:Ex; [|discriminate].
    destruct (cast_primitive_addr _ _ _ Ex) as (a & Ha & _).
    cbn in E. injection E as <- <-. cbn. rewrite Ha. now repeat split.
  - destruct (_GFX_PRIMITIVE s (obj r)) as [x|] eqn:Ex; [|discriminate].
    destruct (cast_primitive_addr _ _ _ Ex) as (a & Ha & _).
    cbn in E. injection E as <- <-. cbn. rewrite Ha. now repeat split.
  - destruct (_GFX_GROUP s (obj r)) as [g|] eqn:Eg; [|discriminate].
    destruct (cast_group_addr _ _ _ Eg) as (a & Ha & _). cbn in E.
    destruct (bindings g !! values0 r) as [b|]; [|discriminate]. cbn in E.
    destruct (buffers b !! values1 r) as [st|]; [|discriminate]. cbn in E.
    injection E as <- <-. cbn. rewrite Ha. now repeat split.
  - now injection E as <- <-.
  - destruct (_GFX_RENDERER s (obj r)) as [x|] eqn:Ex; [|discriminate]. cbn in E.
    destruct (attachs x !! values0 r) as [at'|]; [|discriminate]. cbn in E.
    injection E as <- <-. cbn.
    split; [reflexivity|]. split; [reflexivity|].
    split; [now apply (cast_renderer_addr s _ x)|reflexivity].
  - now injection E as <- <-.
Qed.

Lemma unpack_one_object ndebug fuel s ref unp log :
  _gfx_ref_unpack ndebug fuel s ref = Some (unp, log) ->
  (obj_buffer unp = NULL \/ obj_image unp = NULL) /\
  (obj_buffer unp = NULL \/ obj_renderer unp = NULL) /\
  (obj_image unp = NULL \/ obj_renderer unp = NULL) /\
  (obj_buffer unp = NULL -> obj_image unp = NULL -> obj_renderer unp = NULL ->
   unp = _GFX_UNPACK_REF_EMPTY).
Proof.
  intros E. destruct (unpack_cases _ _ _ _ _ _ E) as (r & rlog & _ & H).
  destruct (type r); try (rewrite H; cbn; tauto);
    repeat match goal with H : _ /\ _ |- _ => destruct H end;
    repeat split; try tauto; intros; congruence.
Qed.

(** X15. The three object pointers of an unpacked reference exclude
    each other: at most one of [obj.buffer], [obj.image] and [obj.renderer]
    is not NULL, and where all three are NULL the whole value is
    [_GFX_UNPACK_REF_EMPTY]. *)
Theorem unpack_objects_exclusive (ndebug : bool) (fuel : nat) (s : Store)
    (ref : GFXReference) (unp : _GFXUnpackRef) (log : list string) :
  _gfx_ref_unpack ndebug fuel s ref = Some (unp, log) ->
  (obj_buffer unp = NULL \/ obj_image unp = NULL) /\
  (obj_buffer unp = NULL \/ obj_renderer unp = NULL) /\
  (obj_image unp = NULL \/ obj_renderer unp = NULL) /\
  (obj_buffer unp = NULL -> obj_image unp = NULL -> obj_renderer unp = NULL ->
   unp = _GFX_UNPACK_REF_EMPTY).
Proof. apply unpack_one_object. Qed.

(** ** Equality of unpacked references *)

Lemma is_equal_sym a b :
  _GFX_UNPACK_REF_IS_EQUAL a b = _GFX_UNPACK_REF_IS_EQUAL b a.
Proof.
  unfold _GFX_UNPACK_REF_IS_EQUAL. rewrite (Z.eqb_sym (value a)).
  destruct (value b =? value a);
    repeat case_bool_decide; cbn; try reflexivity; congruence.
Qed.

Lemma is_equal_true a b :
  _GFX_UNPACK_REF_IS_EQUAL a b = true <->
  (obj_buffer a <> NULL /\ obj_buffer a = obj_buffer b) \/
  (obj_image a <> NULL /\ obj_image a = obj_image b) \/
  (obj_renderer a <> NULL /\ value a = value b /\ obj_renderer a = obj_renderer b).
Proof.
  unfold _GFX_UNPACK_REF_IS_EQUAL.
  rewrite !orb_true_iff, !andb_true_iff, !negb_true_iff, Z.eqb_eq,
    !bool_decide_eq_true, !bool_decide_eq_false. tauto.
Qed.

(** X16. On the unpacked references that [_gfx_ref_unpack] returns,
    [_GFX_UNPACK_REF_IS_EQUAL] is symmetric and transitive, and a reference
    equals itself unless it is [_GFX_UNPACK_REF_EMPTY], which equals nothing.
    Two references to the same buffer are equal whatever their values. *)
Theorem unpack_equality (ndebug : bool) (fuel : nat) (s : Store)
    (ref : GFXReference) (b : _GFXUnpackRef) (log : list string) :
  _gfx_ref_unpack ndebug fuel s ref = Some (b, log) ->
  (forall a, _GFX_UNPACK_REF_IS_EQUAL a b = _GFX_UNPACK_REF_IS_EQUAL b a) /\
  (forall a c,
     _GFX_UNPACK_REF_IS_EQUAL a b = true -> _GFX_UNPACK_REF_IS_EQUAL b c = true ->
     _GFX_UNPACK_REF_IS_EQUAL a c = true) /\
  (_GFX_UNPACK_REF_IS_EQUAL b b = true <-> b <> _GFX_UNPACK_REF_EMPTY) /\
  (forall c, _GFX_UNPACK_REF_IS_EQUAL _GFX_UNPACK_REF_EMPTY c = false) /\
  (forall c, obj_buffer b <> NULL -> obj_buffer c = obj_buffer b ->
             _GFX_UNPACK_REF_IS_EQUAL b c = true).
Proof.
  intros E. destruct (unpack_one_object _ _ _ _ _ _ E) as (Hbi & Hbr & Hir & Hempty).
  split; [intros a; apply is_equal_sym|]. split; [|split; [|split]].
  - intros a c Hab Hbc. apply is_equal_true in Hab, Hbc. apply is_equal_true.
    destruct Hab as [[Ha Hab]|[[Ha Hab]|(Ha & Hv & Hab)]];
      destruct Hbc as [[Hb Hbc]|[[Hb Hbc]|(Hb & Hv' & Hbc)]];
      try (exfalso; destruct Hbi, Hbr, Hir; congruence).
    + left. split; congruence.
    + right. left. split; congruence.
    + right. right. repeat split; congruence.
  - rewrite is_equal_true. split.
    + intros [[Hb _]|[[Hb _]|[Hb _]]] ->; now apply Hb.
    + intros Hne.
      destruct (decide (obj_buffer b = NULL)) as [Hb|Hb]; [|now left].
      destruct (decide (obj_image b = NULL)) as [Hi|Hi]; [|right; now left].
      destruct (decide (obj_renderer b = NULL)) as [Hr|Hr]; [|right; right; now repeat split].
      exfalso. now apply Hne, Hempty.
  - intros c. reflexivity.
  - intros c Hb Hc. apply is_equal_true. left. split; congruence.
Qed.

(** ** References of a well typed store *)

Section Typed.
Variable s : Store.
Hypothesis Htyped : well_typed s.

Lemma typed_primitive p x :
  _GFX_PRIMITIVE s p = Some x ->
  stores_buffer (refVertex x) = true /\ stores_buffer (refIndex x) = true.
Proof using Htyped.
  intros E. destruct (cast_primitive_addr _ _ _ E) as (a & _ & Ha).
  pose proof (map_Forall_lookup_1 _ _ _ _ Htyped Ha) as Ht.
  cbn in Ht. now apply andb_true_iff in Ht.
Qed.

Lemma typed_binding p g i b :
  _GFX_GROUP s p = Some g -> bindings g !! i = Some b ->
  (forall j r, buffers b !! j = Some r -> stores_buffer r = true) /\
  (forall j r, images b !! j = Some r -> stores_image r = true).
Proof using Htyped.
  intros E Hb. destruct (cast_group_addr _ _ _ E) as (a & _ & Ha).
  pose proof (map_Forall_lookup_1 _ _ _ _ Htyped Ha) as Ht. cbn in Ht.
  rewrite forallb_forall in Ht.
  specialize (Ht b). rewrite andb_true_iff, !forallb_forall in Ht.
  destruct Ht as [Hbuf Himg].
  { apply list_elem_of_In. eapply list_elem_of_lookup_2. eassumption. }
  split; intros j r Hr.
  - apply Hbuf, list_elem_of_In. eapply list_elem_of_lookup_2. eassumption.
  - apply Himg, list_elem_of_In. eapply list_elem_of_lookup_2. eassumption.
Qed.

Lemma is_buffer_add_offset r k :
  GFX_REF_IS_BUFFER (add_offset r k) = GFX_REF_IS_BUFFER r.
Proof. reflexivity. Qed.

Lemma is_null_add_offset r k :
  GFX_REF_IS_NULL (add_offset r k) = GFX_REF_IS_NULL r.
Proof. reflexivity. Qed.

Lemma stored_not_null r :
  stores_buffer r = true -> GFX_REF_IS_NULL r = false -> GFX_REF_IS_BUFFER r = true.
Proof. unfold stores_buffer. intros H Hn. now rewrite Hn, orb_false_r in H. Qed.

Lemma stored_image_not_null r :
  stores_image r = true -> GFX_REF_IS_NULL r = false -> GFX_REF_IS_IMAGE r = true.
Proof. unfold stores_image. intros H Hn. now rewrite Hn, orb_false_r in H. Qed.

Lemma add_offset_twice r o k :
  add_offset r (wrap 64 (o + k)) = add_offset (add_offset r o) k.
Proof.
  unfold add_offset, wrap. cbn [type obj offset values0 values1]. f_equal.
  rewrite Z.add_mod_idemp_r, Z.add_mod_idemp_l by lia. f_equal. lia.
Qed.

Lemma resolve_kind fuel : forall ref r log,
  _gfx_ref_resolve fuel s ref = Some (r, log) ->
  (GFX_REF_IS_BUFFER ref = true -> GFX_REF_IS_BUFFER r = true \/ r = GFX_REF_NULL) /\
  (GFX_REF_IS_IMAGE ref = true -> GFX_REF_IS_IMAGE r = true \/ r = GFX_REF_NULL).
Proof using Htyped.
  induction fuel as [|fuel IH]; intros ref r log E; [discriminate|].
  cbn [_gfx_ref_resolve] in E.
  destruct (resolve_switch s ref) as [[w|rec]|] eqn:Es;
    cbn [mbind option_bind] in E; [| |discriminate].
  { injection E as <- <-. split; intros _; now right. }
  destruct (GFX_REF_IS_NULL rec) eqn:En.
  { injection E as <- <-. split; intros H; now left. }
  destruct (IH _ _ _ E) as [IHb IHi].
  assert (Hrec : (GFX_REF_IS_BUFFER ref = true -> GFX_REF_IS_BUFFER rec = true) /\
                 (GFX_REF_IS_IMAGE ref = true -> GFX_REF_IS_IMAGE rec = true)).
  { unfold resolve_switch in Es.
    destruct (type ref) eqn:Et;
      try (injection Es as <-; discriminate).
    - destruct (_GFX_PRIMITIVE s (obj ref)) as [x|] eqn:Ex; [|discriminate].
      cbn [mbind option_bind] in Es.
      destruct (negb _); [discriminate|]. injection Es as <-.
      destruct (typed_primitive _ _ Ex) as [Hv _].
      split; [intros _|unfold GFX_REF_IS_IMAGE; rewrite Et; discriminate].
      rewrite is_buffer_add_offset. now apply stored_not_null.
    - destruct (_GFX_PRIMITIVE s (obj ref)) as [x|] eqn:Ex; [|discriminate].
      cbn [mbind option_bind] in Es.
      destruct (negb _); [discriminate|]. injection Es as <-.
      destruct (typed_primitive _ _ Ex) as [_ Hi].
      split; [intros _|unfold GFX_REF_IS_IMAGE; rewrite Et; discriminate].
      rewrite is_buffer_add_offset. now apply stored_not_null.
    - destruct (_GFX_GROUP s (obj ref)) as [g|] eqn:Eg; [|discriminate].
      cbn [mbind option_bind] in Es.
      destruct (bindings g !! values0 ref) as [b|] eqn:Eb; [|discriminate].
      destruct (negb (values1 ref <? count b)%nat); [discriminate|].
      destruct (negb (bool_decide _)); [discriminate|].
      destruct (buffers b !! values1 ref) as [st|] eqn:Est; [|discriminate].
      cbn [mbind option_bind] in Es.
      destruct (bool_decide _); injection Es as <-; [discriminate|].
      destruct (typed_binding _ _ _ _ Eg Eb) as [Hbuf _].
      split; [intros _|unfold GFX_REF_IS_IMAGE; rewrite Et; discriminate].
      rewrite is_buffer_add_offset. apply stored_not_null; [|assumption].
      now apply (Hbuf (values1 ref)).
    - destruct (_GFX_GROUP s (obj ref)) as [g|] eqn:Eg; [|discriminate].
      cbn [mbind option_bind] in Es.
      destruct (bindings g !! values0 ref) as [b|] eqn:Eb; [|discriminate].
      destruct (negb (values1 ref <? count b)%nat); [discriminate|].
      destruct (negb (bool_decide _)); [discriminate|].
      destruct (images b !! values1 ref) as [st|] eqn:Est; [|discriminate].
      cbn [mbind option_bind] in Es. injection Es as <-.
      destruct (typed_binding _ _ _ _ Eg Eb) as [_ Himg].
      split; [unfold GFX_REF_IS_BUFFER; rewrite Et; discriminate|intros _].
      apply stored_image_not_null; [|assumption]. now apply (Himg (values1 ref)).
    - destruct (_GFX_RENDERER s (obj ref)) as [x|]; [|discriminate].
      cbn [mbind option_bind] in Es.
      destruct (attachs x !! values0 ref); [|discriminate].
      destruct (negb _); [discriminate|]. injection Es as <-. discriminate. }
  split; intros H; [apply IHb|apply IHi]; now apply Hrec.
Qed.

(** X17. In a store whose objects hold buffer references where
    [ref.c] expects them, a buffer reference resolves to a buffer reference
    or is rejected, and an image reference resolves to an image reference
    or is rejected. A buffer reference then never unpacks to an image or a
    renderer, and an image reference never to a buffer. *)
Theorem resolve_keeps_kind (ndebug : bool) (fuel : nat)
    (ref : GFXReference) (unp : _GFXUnpackRef) (log : list string) :
  _gfx_ref_unpack ndebug fuel s ref = Some (unp, log) ->
  exists r rlog,
    _gfx_ref_resolve fuel s ref = Some (r, rlog) /\
    (GFX_REF_IS_BUFFER ref = true ->
     (GFX_REF_IS_BUFFER r = true \/ r = GFX_REF_NULL) /\
     obj_image unp = NULL /\ obj_renderer unp = NULL) /\
    (GFX_REF_IS_IMAGE ref = true ->
     (GFX_REF_IS_IMAGE r = true \/ r = GFX_REF_NULL) /\
     obj_buffer unp = NULL).
Proof using Htyped.
  intros E. destruct (unpack_cases _ _ _ _ _ _ E) as (r & rlog & Er & Hcases).
  exists r, rlog. split; [exact Er|].
  destruct (resolve_kind _ _ _ _ Er) as [Hb Hi]. split.
  - intros H. specialize (Hb H). split; [exact Hb|].
    destruct Hb as [Hb| ->]; [|now rewrite Hcases].
    unfold GFX_REF_IS_BUFFER in Hb.
    destruct (type r); try discriminate Hb; tauto.
  - intros H. specialize (Hi H). split; [exact Hi|].
    destruct Hi as [Hi| ->]; [|now rewrite Hcases].
    unfold GFX_REF_IS_IMAGE in Hi.
    destruct (type r); try discriminate Hi; try tauto. now rewrite Hcases.
Qed.

Lemma resolve_shift fuel (k : Z) : forall ref r log,
  GFX_REF_IS_BUFFER ref = true ->
  _gfx_ref_resolve fuel s ref = Some (r, log) ->
  _gfx_ref_resolve fuel s (add_offset ref k) =
    Some (match log with [] => add_offset r k | _ => r end, log).
Proof using Htyped.
  induction fuel as [|fuel IH]; intros ref r log Hbuf E; [discriminate|].
  cbn [_gfx_ref_resolve] in E |- *.
  unfold GFX_REF_IS_BUFFER in Hbuf. unfold resolve_switch in E |- *.
  cbn [type obj values0 values1 offset add_offset].
  destruct (type ref) eqn:Et; try discriminate Hbuf.
  - cbn [mbind option_bind] in E |- *. injection E as <- <-. reflexivity.
  - destruct (_GFX_PRIMITIVE s (obj ref)) as [x|] eqn:Ex; [|discriminate].
    cbn [mbind option_bind] in E |- *.
    destruct (negb _); cbn [mbind option_bind] in E |- *.
    { now injection E as <- <-. }
    rewrite add_offset_twice, is_null_add_offset.
    destruct (GFX_REF_IS_NULL (add_offset (refVertex x) (offset ref))) eqn:En.
    { now injection E as <- <-. }
    apply IH; [|assumption]. rewrite is_buffer_add_offset.
    destruct (typed_primitive _ _ Ex) as [Hv _]. now apply stored_not_null.
  - destruct (_GFX_PRIMITIVE s (obj ref)) as [x|] eqn:Ex; [|discriminate].
    cbn [mbind option_bind] in E |- *.
    destruct (negb _); cbn [mbind option_bind] in E |- *.
    { now injection E as <- <-. }
    rewrite add_offset_twice, is_null_add_offset.
    destruct (GFX_REF_IS_NULL (add_offset (refIndex x) (offset ref))) eqn:En.
    { now injection E as <- <-. }
    apply IH; [|assumption]. rewrite is_buffer_add_offset.
    destruct (typed_primitive _ _ Ex) as [_ Hi]. now apply stored_not_null.
  - destruct (_GFX_GROUP s (obj ref)) as [g|] eqn:Eg; [|discriminate].
    cbn [mbind option_bind] in E |- *.
    destruct (bindings g !! values0 ref) as [b|] eqn:Eb.
    2: { now injection E as <- <-. }
    destruct (negb (values1 ref <? count b)%nat); cbn [mbind option_bind] in E |- *.
    { now injection E as <- <-. }
    destruct (negb (bool_decide _)); cbn [mbind option_bind] in E |- *.
    { now injection E as <- <-. }
    destruct (buffers b !! values1 ref) as [st|] eqn:Est; [|discriminate].
    cbn [mbind option_bind] in E |- *.
    destruct (bool_decide (obj st = buffer_of (obj ref))); cbn [mbind option_bind] in E |- *.
    { now injection E as <- <-. }
    rewrite add_offset_twice, is_null_add_offset.
    destruct (GFX_REF_IS_NULL (add_offset st (offset ref))) eqn:En.
    { now injection E as <- <-. }
    apply IH; [|assumption]. rewrite is_buffer_add_offset.
    destruct (typed_binding _ _ _ _ Eg Eb) as [Hb _].
    apply stored_not_null; [now apply (Hb (values1 ref))|assumption].
Qed.

(** X18. In such a store offsets add up through the resolution of a
    buffer reference: moving the reference by [k] bytes moves what it
    resolves to by [k] bytes, modulo 2^64, and a reference that is rejected
    stays rejected with the same warning. *)
Theorem resolve_adds_offset (fuel : nat) (k : Z)
    (ref r : GFXReference) (log : list string) :
  GFX_REF_IS_BUFFER ref = true ->
  _gfx_ref_resolve fuel s ref = Some (r, log) ->
  _gfx_ref_resolve fuel s (add_offset ref k) =
    Some (match log with [] => add_offset r k | _ => r end, log) /\
  (log = [] ->
   type r = type (add_offset r k) /\ obj r = obj (add_offset r k) /\
   offset (add_offset r k) = wrap 64 (offset r + k)).
Proof using Htyped.
  intros Hbuf E. split; [now apply resolve_shift|]. intros _. now repeat split.
Qed.

End Typed.

(** ** The theorems on the example store *)

Lemma memory_typed : well_typed RefData.memory.
Proof.
  unfold RefData.memory.
  repeat (apply map_Forall_insert_2; [reflexivity|]). apply map_Forall_empty.
Defined.

(** X13, at the vertices of the primitive whose vertices live in a
    buffer of their own. *)
Lemma resolve_is_fixed_point_witness :
  _gfx_ref_resolve 2 RefData.memory RefData.indexed_vertices
    = Some (mkRef GFX_REF_BUFFER (Addr 2) 8 0 0, []) /\
  _gfx_ref_resolve 1 RefData.memory (mkRef GFX_REF_BUFFER (Addr 2) 8 0 0)
    = Some (mkRef GFX_REF_BUFFER (Addr 2) 8 0 0, []).
Proof.
  split; [reflexivity|].
  exact (proj1 (resolve_is_fixed_point 2 RefData.memory RefData.indexed_vertices
                  (mkRef GFX_REF_BUFFER (Addr 2) 8 0 0) [] eq_refl)).
Defined.

(** X14, at the reference to a binding that the group does not have. *)
Lemma unpack_invalid_is_empty_witness :
  _gfx_ref_resolve 1 RefData.memory RefData.no_binding
    = Some (GFX_REF_NULL, ["Referencing a non-existent group buffer!"%string]) /\
  _gfx_ref_unpack false 1 RefData.memory RefData.no_binding
    = Some (_GFX_UNPACK_REF_EMPTY,
            ["Referencing a non-existent group buffer!"%string]).
Proof.
  split; [reflexivity|].
  exact (unpack_invalid_is_empty false 1 RefData.memory RefData.no_binding
           GFX_REF_NULL "Referencing a non-existent group buffer!" [] eq_refl).
Defined.

(** X15, at the second element of the group's buffer binding. *)
Lemma unpack_objects_exclusive_witness :
  _gfx_ref_unpack true 1 RefData.memory RefData.group_element
    = Some (mkUnpack 40 0 7 (BufferOf 4) NULL NULL, []) /\
  (BufferOf 4 = NULL \/ NULL = NULL).
Proof.
  split; [reflexivity|].
  exact (proj1 (unpack_objects_exclusive true 1 RefData.memory RefData.group_element
                  (mkUnpack 40 0 7 (BufferOf 4) NULL NULL) [] eq_refl)).
Defined.

(** X16, at the buffer of 16 bytes referenced past its end. *)
Lemma unpack_equality_witness :
  _gfx_ref_unpack true 1 RefData.memory RefData.beyond
    = Some (mkUnpack 32 0 7 (Addr 5) NULL NULL, []) /\
  _GFX_UNPACK_REF_IS_EQUAL (mkUnpack 32 0 7 (Addr 5) NULL NULL)
    (mkUnpack 0 0 7 (Addr 5) NULL NULL) = true.
Proof.
  split; [reflexivity|].
  destruct (unpack_equality true 1 RefData.memory RefData.beyond
              (mkUnpack 32 0 7 (Addr 5) NULL NULL) [] eq_refl)
    as (_ & _ & _ & _ & Hsame).
  apply Hsame; [discriminate|reflexivity].
Defined.

(** X17, at the vertices of the primitive whose vertices live in a
    buffer of their own. *)
Lemma resolve_keeps_kind_witness :
  well_typed RefData.memory /\
  _gfx_ref_unpack true 2 RefData.memory RefData.indexed_vertices
    = Some (mkUnpack 8 0 7 (Addr 2) NULL NULL, []) /\
  exists r rlog,
    _gfx_ref_resolve 2 RefData.memory RefData.indexed_vertices = Some (r, rlog) /\
    GFX_REF_IS_BUFFER RefData.indexed_vertices = true /\
    (GFX_REF_IS_BUFFER r = true \/ r = GFX_REF_NULL).
Proof.
  split; [apply memory_typed|]. split; [reflexivity|].
  destruct (resolve_keeps_kind RefData.memory memory_typed true 2
              RefData.indexed_vertices (mkUnpack 8 0 7 (Addr 2) NULL NULL) [] eq_refl)
    as (r & rlog & Er & Hb & _).
  exists r, rlog. split; [exact Er|]. split; [reflexivity|].
  exact (proj1 (Hb eq_refl)).
Defined.

(** X18, moving that reference by 4 bytes. *)
Lemma resolve_adds_offset_witness :
  well_typed RefData.memory /\
  GFX_REF_IS_BUFFER RefData.indexed_vertices = true /\
  _gfx_ref_resolve 2 RefData.memory RefData.indexed_vertices
    = Some (mkRef GFX_REF_BUFFER (Addr 2) 8 0 0, []) /\
  _gfx_ref_resolve 2 RefData.memory (add_offset RefData.indexed_vertices 4)
    = Some (add_offset (mkRef GFX_REF_BUFFER (Addr 2) 8 0 0) 4, []).
Proof.
  split; [apply memory_typed|]. split; [reflexivity|]. split; [reflexivity|].
  exact (proj1 (resolve_adds_offset RefData.memory memory_typed 2 4
                  RefData.indexed_vertices (mkRef GFX_REF_BUFFER (Addr 2) 8 0 0) []
                  eq_refl eq_refl)).
Defined.

End RefMore.

(* ===================================================================== *)
(** * More on the format dictionary *)
(* ===================================================================== *)

Module FormatMore.
Import Format FormatSpec.
Local Open Scope Z_scope.

(** ** The distance of two formats *)

Lemma GFX_DIFF_abs x y : GFX_DIFF x y = Z.abs (x - y).
Proof. unfold GFX_DIFF. destruct (Z.gtb_spec x y); lia. Qed.

(** X19. On formats whose depths are bytes, [_GFX_GET_DISTANCE] is a
    metric on the four depths: it is symmetric, at most 1020, zero exactly
    between formats of equal depths, and satisfies the triangle
    inequality. The type and the order of the formats do not count. *)
Theorem distance_is_metric (a b c : GFXFormat) :
  format_ok a -> format_ok b -> format_ok c ->
  _GFX_GET_DISTANCE a b = _GFX_GET_DISTANCE b a /\
  0 <= _GFX_GET_DISTANCE a b <= 1020 /\
  (_GFX_GET_DISTANCE a b = 0 <->
   comps0 a = comps0 b /\ comps1 a = comps1 b /\
   comps2 a = comps2 b /\ comps3 a = comps3 b) /\
  _GFX_GET_DISTANCE a c <= _GFX_GET_DISTANCE a b + _GFX_GET_DISTANCE b c.
Proof.
  intros Ha Hb Hc.
  rewrite (distance_sum a b), (distance_sum b a), (distance_sum a c),
    (distance_sum b c) by assumption.
  rewrite !GFX_DIFF_abs.
  destruct Ha as (a0 & a1 & a2 & a3), Hb as (b0 & b1 & b2 & b3),
    Hc as (c0 & c1 & c2 & c3).
  unfold depth_ok in *. repeat split; lia.
Qed.

Section Search.
Variable H : FormatsHeader.
Variables (fmt : GFXFormat) (flags features : Z).

(** ** What [gfx_format_fuzzy] returns *)

Lemma fuzzy_fold_origin (all : list FormatElem) : forall l b,
  (forall e, e ∈ l -> e ∈ all) ->
  (b = mkBest (GFX_FORMAT_EMPTY H) false UINT_MAX \/
   exists elem, elem ∈ all /\ candidate H fmt flags features elem = true /\
                retFmt b = elem_format elem) ->
  let b' := fold_left (fuzzy_body H fmt flags features) l b in
  b' = mkBest (GFX_FORMAT_EMPTY H) false UINT_MAX \/
  exists elem, elem ∈ all /\ candidate H fmt flags features elem = true /\
               retFmt b' = elem_format elem.
Proof.
  induction l as [|e l IH]; intros b Hsub Hb; [exact Hb|].
  cbn [fold_left]. apply IH.
  - intros x Hx. apply Hsub. now right.
  - unfold fuzzy_body, closest, candidate.
    destruct (skip_match H fmt features e) eqn:Em; [exact Hb|].
    destruct (skip_depth H fmt flags e) eqn:Ed; [exact Hb|].
    match goal with |- context [if ?c then _ else _] => destruct c end;
      [|exact Hb].
    right. exists e. split; [apply Hsub; now left|].
    unfold candidate. rewrite Em, Ed. now split.
Qed.

Lemma fuzzy_origin (dev : _GFXDevice) :
  fold_left (fuzzy_body H fmt flags features) (formats dev)
    (mkBest (GFX_FORMAT_EMPTY H) false UINT_MAX)
    = mkBest (GFX_FORMAT_EMPTY H) false UINT_MAX \/
  exists elem, elem ∈ formats dev /\ candidate H fmt flags features elem = true /\
               gfx_format_fuzzy H fmt flags features dev = elem_format elem.
Proof.
  apply (fuzzy_fold_origin (formats dev)); [tauto|now left].
Qed.

(** X20. [gfx_format_fuzzy] returns [GFX_FORMAT_EMPTY] or the format
    of a record of the dictionary that has every requested feature, whose
    type lies within the requested type, and that respects the depth
    flags: with [GFX_FUZZY_MIN_DEPTH] no component is shallower than
    requested, with [GFX_FUZZY_MAX_DEPTH] none is deeper. *)
Theorem fuzzy_respects_request (dev : _GFXDevice) :
  let r := gfx_format_fuzzy H fmt flags features dev in
  r = GFX_FORMAT_EMPTY H \/
  exists elem,
    elem ∈ formats dev /\ elem_format elem = r /\
    Z.land features (_GFX_GET_FEATURES H (elem_properties elem)) = features /\
    Z.land (type r) (type fmt) = type r /\
    (has_bits flags (GFX_FUZZY_MIN_DEPTH H) = true ->
     comps0 fmt <= comps0 r /\ comps1 fmt <= comps1 r /\
     comps2 fmt <= comps2 r /\ comps3 fmt <= comps3 r) /\
    (has_bits flags (GFX_FUZZY_MAX_DEPTH H) = true ->
     comps0 r <= comps0 fmt /\ comps1 r <= comps1 fmt /\
     comps2 r <= comps2 fmt /\ comps3 r <= comps3 fmt).
Proof.
  intros r. destruct (fuzzy_origin dev) as [E|(elem & Hin & Hc & Hr)].
  - left. unfold r, gfx_format_fuzzy. now rewrite E.
  - right. exists elem. split; [exact Hin|]. split; [now symmetry|].
    unfold candidate, skip_match, skip_depth in Hc. fold r in Hr. rewrite Hr.
    apply andb_true_iff in Hc as [Hm Hd].
    rewrite !negb_true_iff, !orb_false_iff, !negb_false_iff in Hm.
    destruct Hm as [[Hf Ht] _]. apply Z.eqb_eq in Hf, Ht.
    rewrite negb_true_iff, orb_false_iff, !andb_false_iff in Hd.
    destruct Hd as [Hmin Hmax].
    split; [exact Hf|]. split; [exact Ht|]. split.
    + intros Hflag. destruct Hmin as [Hmin|Hmin]; [congruence|].
      rewrite !orb_false_iff, !Z.ltb_ge in Hmin. tauto.
    + intros Hflag. destruct Hmax as [Hmax|Hmax]; [congruence|].
      rewrite !orb_false_iff in Hmax.
      destruct Hmax as [[[H0 H1] H2] H3].
      rewrite Z.gtb_ltb, Z.ltb_ge in H0, H1, H2, H3. tauto.
Qed.

(** ** What [gfx_format_support] returns *)

Lemma support_fold_bit n : forall l acc,
  Z.testbit (fold_left (support_body H fmt) l acc) n = true <->
  Z.testbit acc n = true \/
  exists elem, elem ∈ l /\
    GFX_FORMAT_IS_CONTAINED H (elem_format elem) fmt = true /\
    Z.testbit (_GFX_GET_FEATURES H (elem_properties elem)) n = true.
Proof.
  induction l as [|e l IH]; intros acc; cbn [fold_left].
  - split; [now left|]. intros [Hacc|(elem & Hin & _)]; [assumption|inversion Hin].
  - rewrite IH. unfold support_body.
    destruct (GFX_FORMAT_IS_CONTAINED H (elem_format e) fmt) eqn:Ec; cbn [negb].
    + rewrite Z.lor_spec, orb_true_iff. split.
      * intros [[Hacc|He]|(elem & Hin & Hrest)]; [now left| |].
        -- right. exists e. split; [now left|now split].
        -- right. exists elem. split; [now right|assumption].
      * intros [Hacc|(elem & Hin & Hcont & Hbit)]; [now left; left|].
        apply elem_of_cons in Hin as [-> |Hin]; [now left; right|].
        right. now exists elem.
    + split.
      * intros [Hacc|(elem & Hin & Hrest)]; [now left|].
        right. exists elem. split; [now right|assumption].
      * intros [Hacc|(elem & Hin & Hcont & Hbit)]; [now left|].
        apply elem_of_cons in Hin as [-> |Hin]; [congruence|].
        right. now exists elem.
Qed.

Lemma support_bit (dev : _GFXDevice) (n : Z) :
  Z.testbit (gfx_format_support H fmt dev) n = true <->
  exists elem, elem ∈ formats dev /\
    GFX_FORMAT_IS_CONTAINED H (elem_format elem) fmt = true /\
    Z.testbit (_GFX_GET_FEATURES H (elem_properties elem)) n = true.
Proof.
  unfold gfx_format_support. rewrite support_fold_bit, Z.testbit_0_l.
  split; [intros [Hf|Hex]; [discriminate|assumption]|now right].
Qed.

(** X21. [gfx_format_support] reports a feature bit exactly when a
    record of the dictionary whose format is contained in the given one has
    that bit among its features. Without such a record the result is 0. *)
Theorem support_is_union (dev : _GFXDevice) (n : Z) :
  Z.testbit (gfx_format_support H fmt dev) n = true <->
  exists elem, elem ∈ formats dev /\
    GFX_FORMAT_IS_CONTAINED H (elem_format elem) fmt = true /\
    Z.testbit (_GFX_GET_FEATURES H (elem_properties elem)) n = true.
Proof. apply support_bit. Qed.

Lemma land_covered (f x : Z) :
  Z.land f x = f <-> forall n, Z.testbit f n = true -> Z.testbit x n = true.
Proof.
  split.
  - intros E n Hn. rewrite <- E, Z.land_spec in Hn.
    now apply andb_true_iff in Hn as [_ Hx].
  - intros Hbits. apply Z.bits_inj'. intros n _. rewrite Z.land_spec.
    destruct (Z.testbit f n) eqn:Ef; [|reflexivity].
    now rewrite (Hbits n Ef).
Qed.

(** X22. What [gfx_format_fuzzy] finds, [gfx_format_support] confirms:
    if the search for a format with the given features returns a format
    other than [GFX_FORMAT_EMPTY] that is contained in the requested one,
    the support of the requested format includes every one of these
    features. *)
Theorem fuzzy_contained_is_supported (dev : _GFXDevice) :
  let r := gfx_format_fuzzy H fmt flags features dev in
  r <> GFX_FORMAT_EMPTY H ->
  GFX_FORMAT_IS_CONTAINED H r fmt = true ->
  Z.land features (gfx_format_support H fmt dev) = features.
Proof.
  intros r Hne Hcont.
  destruct (fuzzy_origin dev) as [E|(elem & Hin & Hc & Hr)].
  { exfalso. apply Hne. unfold r, gfx_format_fuzzy. now rewrite E. }
  fold r in Hr. unfold candidate, skip_match in Hc.
  apply andb_true_iff in Hc as [Hm _].
  rewrite !negb_true_iff, !orb_false_iff, !negb_false_iff in Hm.
  destruct Hm as [[Hf _] _]. apply Z.eqb_eq in Hf.
  apply land_covered. intros n Hn. apply support_bit.
  exists elem. split; [exact Hin|]. split; [now rewrite <- Hr|].
  rewrite land_covered in Hf. now apply Hf.
Qed.

End Search.

(** ** What [_gfx_resolve_format] returns *)

Section Resolve.
Variable H : FormatsHeader.
Variable VK_FORMAT_UNDEFINED : Z.
Variables (fmt : GFXFormat) (props : option VkFormatProperties).




End Resolve.

(** ** Filling the dictionary *)

Section Init.
Variable GetPhysicalDeviceFormatProperties : Z -> VkFormatProperties.
Variable push_ok : nat -> bool.

Lemma map_formats_success lines : forall device,
  (forall i, (i < length (List.filter
                  (fun m => format_supported GetPhysicalDeviceFormatProperties (vkValue m))
                  lines))%nat ->
             push_ok (length (formats device) + i) = true) ->
  map_formats GetPhysicalDeviceFormatProperties push_ok lines device =
  (None,
   mkDevice (formats device ++
     map (mapped GetPhysicalDeviceFormatProperties)
       (List.filter
          (fun m => format_supported GetPhysicalDeviceFormatProperties (vkValue m))
          lines))).
Proof.
  induction lines as [|m lines IH]; intros device Hpush.
  - cbn. rewrite app_nil_r. now destruct device.
  - cbn [map_formats List.filter]. unfold _gfx_device_map_format.
    fold (format_supported GetPhysicalDeviceFormatProperties (vkValue m)).
    cbn [List.filter] in Hpush.
    destruct (format_supported GetPhysicalDeviceFormatProperties (vkValue m)).
    + pose proof (Hpush 0%nat) as H0. rewrite Nat.add_0_r in H0.
      rewrite H0 by (cbn; lia). cbn [negb].
      rewrite IH.
      * cbn [formats map]. now rewrite <- app_assoc.
      * intros i Hi. cbn [formats]. rewrite length_app. cbn [length].
        replace (length (formats device) + 1 + i)%nat
          with (length (formats device) + S i)%nat by lia.
        apply Hpush. cbn [length]. lia.
    + cbn [negb]. now apply IH.
Qed.

Lemma map_formats_failure lines : forall device i m,
  List.filter
    (fun m => format_supported GetPhysicalDeviceFormatProperties (vkValue m))
    lines !! i = Some m ->
  push_ok (length (formats device) + i) = false ->
  (forall j, (j < i)%nat -> push_ok (length (formats device) + j) = true) ->
  (map_formats GetPhysicalDeviceFormatProperties push_ok lines device).1 = Some m.
Proof.
  induction lines as [|x lines IH]; intros device i m Hi Hfail Hbefore;
    [discriminate|].
  cbn [map_formats List.filter] in Hi |- *. unfold _gfx_device_map_format.
  fold (format_supported GetPhysicalDeviceFormatProperties (vkValue x)).
  destruct (format_supported GetPhysicalDeviceFormatProperties (vkValue x)).
  - destruct i as [|i].
    + injection Hi as ->. rewrite Nat.add_0_r in Hfail. now rewrite Hfail.
    + pose proof (Hbefore 0%nat) as H0. rewrite Nat.add_0_r in H0.
      rewrite H0 by lia. cbn [negb].
      apply (IH _ i); [exact Hi| |]; cbn [formats]; rewrite length_app; cbn [length].
      * now replace (length (formats device) + 1 + i)%nat
          with (length (formats device) + S i)%nat by lia.
      * intros j Hj.
        replace (length (formats device) + 1 + j)%nat
          with (length (formats device) + S j)%nat by lia.
        apply Hbefore. lia.
  - cbn [negb]. now apply (IH _ i).
Qed.

(** X24. [_gfx_device_init_formats] keeps the lines whose Vulkan
    format the device supports at all. If every push succeeds it returns
    success and the dictionary holds one record for each of these lines, in
    their order, and nothing is logged. At the first push that fails it
    returns failure, the dictionary is empty, and two errors are logged,
    the first of which names the line. *)
Theorem init_formats_outcome (table : list Mapping) (name : string) :
  let kept :=
    List.filter
      (fun m => format_supported GetPhysicalDeviceFormatProperties (vkValue m))
      table in
  let res :=
    _gfx_device_init_formats GetPhysicalDeviceFormatProperties push_ok table name in
  ((forall i, (i < length kept)%nat -> push_ok i = true) ->
   res = (true, mkDevice (map (mapped GetPhysicalDeviceFormatProperties) kept), [])) /\
  (forall i m,
     kept !! i = Some m -> push_ok i = false ->
     (forall j, (j < i)%nat -> push_ok j = true) ->
     res = (false, mkDevice [],
            [(("Could not map " ++ gfxName m ++ " to " ++ vkName m ++ ".")%string, None);
             ("[ %s ] could not initialize format dictionary."%string, Some name)])).
Proof.
  intros kept res. unfold res, _gfx_device_init_formats. split.
  - intros Hpush. rewrite map_formats_success; [reflexivity|].
    intros i Hi. now apply Hpush.
  - intros i m Hi Hfail Hbefore.
    pose proof (map_formats_failure table (mkDevice []) i m Hi Hfail Hbefore) as E.
    destruct (map_formats _ _ table (mkDevice [])) as [[m'|] device];
      cbn [fst] in E; [|discriminate].
    now injection E as ->.
Qed.

End Init.

(** ** The theorems on the example dictionary *)

(** X19, at three formats of the example dictionary. *)
Lemma distance_is_metric_witness :
  format_ok FormatData.rgba8 /\ format_ok FormatData.rgba10 /\
  format_ok FormatData.rgba16 /\
  _GFX_GET_DISTANCE FormatData.rgba8 FormatData.rgba16 <=
    _GFX_GET_DISTANCE FormatData.rgba8 FormatData.rgba10 +
    _GFX_GET_DISTANCE FormatData.rgba10 FormatData.rgba16.
Proof.
  assert (H8 : format_ok FormatData.rgba8) by (repeat split; cbn; lia).
  assert (H10 : format_ok FormatData.rgba10) by (repeat split; cbn; lia).
  assert (H16 : format_ok FormatData.rgba16) by (repeat split; cbn; lia).
  split; [exact H8|]. split; [exact H10|]. split; [exact H16|].
  exact (proj2 (proj2 (proj2
    (distance_is_metric FormatData.rgba8 FormatData.rgba10 FormatData.rgba16
       H8 H10 H16)))).
Defined.

(** X22, at the search for a sampled format of depths 8-8-8-8. *)
Lemma fuzzy_contained_is_supported_witness :
  gfx_format_fuzzy FormatData.header FormatData.rgba8 0 8 FormatData.device
    <> GFX_FORMAT_EMPTY FormatData.header /\
  GFX_FORMAT_IS_CONTAINED FormatData.header
    (gfx_format_fuzzy FormatData.header FormatData.rgba8 0 8 FormatData.device)
    FormatData.rgba8 = true /\
  Z.land 8 (gfx_format_support FormatData.header FormatData.rgba8 FormatData.device) = 8.
Proof.
  split; [discriminate|]. split; [reflexivity|].
  apply (fuzzy_contained_is_supported FormatData.header FormatData.rgba8 0 8
           FormatData.device); [discriminate|reflexivity].
Defined.


(** X24, on the three example lines, of which the device supports the
    first and the last: with every push succeeding, and with the second push
    failing. *)
Lemma init_formats_outcome_witness :
  _gfx_device_init_formats FormatData.properties (fun _ => true)
    FormatData.lines "gpu"
  = (true,
     mkDevice [mkElem FormatData.rgba8 37 FormatData.sampled;
               mkElem FormatData.rgba16 91 FormatData.sampled], []) /\
  _gfx_device_init_formats FormatData.properties (fun i => (i <? 1)%nat)
    FormatData.lines "gpu"
  = (false, mkDevice [],
     [("Could not map GFX_FORMAT_R16G16B16A16_UNORM to VK_FORMAT_R16G16B16A16_UNORM."%string,
       None);
      ("[ %s ] could not initialize format dictionary."%string, Some "gpu"%string)]).
Proof.
  split.
  - apply (proj1 (init_formats_outcome FormatData.properties (fun _ => true)
                    FormatData.lines "gpu")).
    intros i _. reflexivity.
  - apply (proj2 (init_formats_outcome FormatData.properties (fun i => (i <? 1)%nat)
                    FormatData.lines "gpu") 1%nat
             (mkMapping "GFX_FORMAT_R16G16B16A16_UNORM" "VK_FORMAT_R16G16B16A16_UNORM"
                FormatData.rgba16 91)).
    + reflexivity.
    + reflexivity.
    + intros j Hj. destruct j; [reflexivity|lia].
Defined.

End FormatMore.

(* ===================================================================== *)
(** * The alignment macros *)
(* ===================================================================== *)

Module DefMore.
Import Def.
Local Open Scope Z_scope.

Lemma testbit_below w x n :
  0 <= x < 2 ^ w -> w <= n -> Z.testbit x n = false.
Proof.
  intros Hx Hn. destruct (Z.eq_dec x 0) as [-> |Hne]; [apply Z.testbit_0_l|].
  apply Z.bits_above_log2; [lia|].
  assert (Z.log2 x < w); [|lia]. apply Z.log2_lt_pow2; lia.
Qed.

(** [~(align - 1)] keeps the bits from [k] on. *)
Lemma mask_down w k x :
  0 <= k < w -> 0 <= x < 2 ^ w ->
  Z.land x (wrap w (Z.lnot (wrap w (2 ^ k - 1)))) = 2 ^ k * (x / 2 ^ k).
Proof.
  intros Hk Hx.
  assert (Hpow : 0 < 2 ^ k < 2 ^ w).
  { split; [apply Z.pow_pos_nonneg; lia|apply Z.pow_lt_mono_r; lia]. }
  rewrite (wrap_small w (2 ^ k - 1)) by lia.
  replace (2 ^ k - 1) with (Z.ones k) by (rewrite Z.ones_equiv; lia).
  transitivity (Z.ldiff x (Z.ones k)).
  - apply Z.bits_inj'. intros n Hn.
    rewrite Z.land_spec, Z.ldiff_spec. unfold wrap.
    destruct (Z.lt_ge_cases n w) as [Hlt|Hge].
    + rewrite Z.mod_pow2_bits_low by lia. now rewrite Z.lnot_spec by lia.
    + rewrite (testbit_below w x n) by assumption. reflexivity.
  - rewrite Z.ldiff_ones_r by lia.
    rewrite Z.shiftl_mul_pow2, Z.shiftr_div_pow2 by lia. lia.
Qed.

(** X25. For a power of two [align = 2^k] of the type, [GFX_ALIGN_DOWN]
    gives the largest multiple of [align] that is not above [offset]. *)
Theorem align_down_spec (w k offset : Z) :
  0 <= k < w -> 0 <= offset < 2 ^ w ->
  let r := GFX_ALIGN_DOWN w offset (2 ^ k) in
  r = 2 ^ k * (offset / 2 ^ k) /\
  r mod 2 ^ k = 0 /\
  r <= offset < r + 2 ^ k.
Proof.
  intros Hk Hx r. assert (Hpow : 0 < 2 ^ k) by (apply Z.pow_pos_nonneg; lia).
  assert (Er : r = 2 ^ k * (offset / 2 ^ k)) by now apply mask_down.
  split; [exact Er|]. rewrite Er. split.
  - rewrite Z.mul_comm. now apply Z.mod_mul; lia.
  - pose proof (Z.mul_div_le offset (2 ^ k) Hpow).
    pose proof (Z.mul_succ_div_gt offset (2 ^ k) Hpow). lia.
Qed.

(** [~(align - 1)] in [int], where nothing wraps. *)
Lemma mask_down_int k x :
  0 <= k -> 0 <= x ->
  Z.land x (Z.lnot (2 ^ k - 1)) = 2 ^ k * (x / 2 ^ k).
Proof.
  intros Hk Hx.
  replace (2 ^ k - 1) with (Z.ones k) by (rewrite Z.ones_equiv; lia).
  rewrite <- Z.ldiff_land, Z.ldiff_ones_r by lia.
  rewrite Z.shiftl_mul_pow2, Z.shiftr_div_pow2 by lia. lia.
Qed.

(** X26. For a power of two [align = 2^k] of an unsigned type of [w]
    bits, [GFX_ALIGN_UP] aims at the smallest multiple of [align] that is
    not below [offset]. On a type at least as wide as [int] it gives that
    multiple as long as [offset + align - 1] fits into the type; where it
    does not fit the sum wraps around and the result is 0. On a type
    narrower than [int] (by two bits or more, so that the sum fits into
    [int]) the operands are promoted and it always gives that multiple,
    which may lie beyond the type. *)
Theorem align_up_spec (int_bits w k offset : Z) :
  0 <= k < w -> 0 <= offset < 2 ^ w ->
  let m := 2 ^ k * ((offset + 2 ^ k - 1) / 2 ^ k) in
  m mod 2 ^ k = 0 /\ offset <= m < offset + 2 ^ k /\
  (int_bits <= w -> offset + 2 ^ k - 1 < 2 ^ w ->
   GFX_ALIGN_UP int_bits w offset (2 ^ k) = Some m) /\
  (int_bits <= w -> 2 ^ w <= offset + 2 ^ k - 1 ->
   GFX_ALIGN_UP int_bits w offset (2 ^ k) = Some 0) /\
  (w + 2 <= int_bits ->
   GFX_ALIGN_UP int_bits w offset (2 ^ k) = Some m).
Proof.
  intros Hk Hx m.
  assert (Hpow : 0 < 2 ^ k < 2 ^ w).
  { split; [apply Z.pow_pos_nonneg; lia|apply Z.pow_lt_mono_r; lia]. }
  assert (Hw : 0 < 2 ^ w) by lia.
  assert (Esum : wrap w (wrap w (offset + 2 ^ k) - 1) = wrap w (offset + 2 ^ k - 1)).
  { unfold wrap. now rewrite Zminus_mod_idemp_l. }
  split; [unfold m; rewrite Z.mul_comm; now apply Z.mod_mul; lia|].
  split.
  { pose proof (Z.mul_div_le (offset + 2 ^ k - 1) (2 ^ k) (proj1 Hpow)).
    pose proof (Z.mul_succ_div_gt (offset + 2 ^ k - 1) (2 ^ k) (proj1 Hpow)).
    unfold m. lia. }
  unfold GFX_ALIGN_UP. split; [|split].
  - intros Hwide Hfit. rewrite (proj2 (Z.ltb_ge w int_bits)) by lia.
    rewrite Esum, (wrap_small w (offset + 2 ^ k - 1)) by lia.
    now rewrite mask_down by lia.
  - intros Hwide Hover. rewrite (proj2 (Z.ltb_ge w int_bits)) by lia.
    assert (Ew : wrap w (offset + 2 ^ k - 1) = offset + 2 ^ k - 1 - 2 ^ w).
    { unfold wrap. symmetry. apply (Z.mod_unique _ _ 1); lia. }
    rewrite Esum, Ew, mask_down by lia.
    rewrite Z.div_small by lia. f_equal. lia.
  - intros Hnarrow. rewrite (proj2 (Z.ltb_lt w int_bits)) by lia.
    assert (Hint : offset + 2 ^ k < 2 ^ (int_bits - 1)).
    { assert (2 ^ (w + 1) <= 2 ^ (int_bits - 1)) by (apply Z.pow_le_mono_r; lia).
      rewrite Z.pow_add_r in * by lia. lia. }
    rewrite (proj2 (Z.ltb_lt _ _) Hint).
    now rewrite mask_down_int by lia.
Qed.

(** X27. On a value of the type, [GFX_IS_POWER_OF_TWO] holds exactly
    of 0 and of the powers of two. *)
Theorem power_of_two_spec (w x : Z) :
  0 < w -> 0 <= x < 2 ^ w ->
  GFX_IS_POWER_OF_TWO w x = true <->
  x = 0 \/ exists k, 0 <= k < w /\ x = 2 ^ k.
Proof.
  intros Hw Hx. unfold GFX_IS_POWER_OF_TWO. rewrite Z.eqb_eq.
  destruct (Z.eq_dec x 0) as [-> |Hne].
  { rewrite Z.land_0_l. tauto. }
  rewrite (wrap_small w (x - 1)) by lia.
  pose proof (Z.log2_spec x ltac:(lia)) as [Hlow Hhigh].
  assert (Hk : 0 <= Z.log2 x < w).
  { split; [apply Z.log2_nonneg|apply Z.log2_lt_pow2; lia]. }
  split.
  - intros Hland. right. exists (Z.log2 x). split; [exact Hk|].
    destruct (Z.eq_dec x (2 ^ Z.log2 x)) as [E|Hgt]; [exact E|]. exfalso.
    assert (Hbit : Z.testbit (Z.land x (x - 1)) (Z.log2 x) = true).
    { assert (El : Z.log2 (x - 1) = Z.log2 x).
      { apply Z.log2_unique; [apply Z.log2_nonneg|]. lia. }
      rewrite Z.land_spec, Z.bit_log2 by lia.
      rewrite <- El. rewrite Z.bit_log2 by lia. reflexivity. }
    rewrite Hland, Z.testbit_0_l in Hbit. discriminate.
  - intros [E|(k & Hk' & ->)]; [contradiction|].
    replace (2 ^ k - 1) with (Z.ones k) by (rewrite Z.ones_equiv; lia).
    rewrite Z.land_ones by lia. apply Z.mod_same. apply Z.pow_nonzero; lia.
Qed.

(** X25, at the offset 13 aligned to 8 in 64 bits. *)
Lemma align_down_spec_witness :
  0 <= 3 < 64 /\ 0 <= 13 < 2 ^ 64 /\
  GFX_ALIGN_DOWN 64 13 (2 ^ 3) = 2 ^ 3 * (13 / 2 ^ 3).
Proof.
  split; [lia|]. split; [lia|].
  exact (proj1 (align_down_spec 64 3 13 ltac:(lia) ltac:(lia))).
Defined.

(** X26, where [int] has 32 bits: at the offset 13 aligned to 8 in 64
    bits, at the largest value of 64 bits, and at the offset 250 aligned to
    8 in 8 bits, which gives 256. *)
Lemma align_up_spec_witness :
  0 <= 3 < 64 /\ 0 <= 13 < 2 ^ 64 /\ 0 <= 3 < 8 /\ 0 <= 250 < 2 ^ 8 /\
  GFX_ALIGN_UP 32 64 13 (2 ^ 3) = Some 16 /\
  GFX_ALIGN_UP 32 64 (2 ^ 64 - 1) (2 ^ 3) = Some 0 /\
  GFX_ALIGN_UP 32 8 250 (2 ^ 3) = Some 256.
Proof.
  split; [lia|]. split; [lia|]. split; [lia|]. split; [lia|]. split; [|split].
  - exact (proj1 (proj2 (proj2
      (align_up_spec 32 64 3 13 ltac:(lia) ltac:(lia)))) ltac:(lia) ltac:(lia)).
  - exact (proj1 (proj2 (proj2 (proj2
      (align_up_spec 32 64 3 (2 ^ 64 - 1) ltac:(lia) ltac:(lia))))) ltac:(lia) ltac:(lia)).
  - exact (proj2 (proj2 (proj2 (proj2
      (align_up_spec 32 8 3 250 ltac:(lia) ltac:(lia))))) ltac:(lia)).
Defined.

(** X27, at 64 in 32 bits. *)
Lemma power_of_two_spec_witness :
  0 < 32 /\ 0 <= 64 < 2 ^ 32 /\ GFX_IS_POWER_OF_TWO 32 64 = true.
Proof.
  split; [lia|]. split; [lia|].
  apply (proj2 (power_of_two_spec 32 64 ltac:(lia) ltac:(lia))).
  right. exists 6. split; [lia|reflexivity].
Defined.

End DefMore.
